(** * Secousse: the network bridge loader, the chat hook and the emote hook

  A shallow embedding of [src/TauriHlsLoader.ts], [src/hooks/useChat.ts]
  (both revisions found in the repository) and [src/hooks/useEmotes.ts],
  followed by the properties the written specification states about them.

  Asynchronous code is embedded as an event-driven machine: every function
  runs synchronously up to its [await]; the continuation after the [await]
  is a separate transition fired by the event that settles the promise.
  Everything that happens between the two (other loads, aborts, channel
  switches) is just other events of the trace. *)

From stdpp Require Import base tactics option strings numbers gmap sorting list.

Local Open Scope Z_scope.

(** ** The pieces of the JavaScript runtime that the sources use *)

Module JS.

(** Truthiness of a string: only the empty string is falsy. *)
Definition truthy (s : string) : bool :=
  match s with EmptyString => false | String _ _ => true end.

(** Truthiness of [string | null | undefined]. *)
Definition truthy_opt (o : option string) : bool :=
  match o with Some s => truthy s | None => false end.

(** [s.startsWith(needle)] *)
Fixpoint startsWith (s needle : string) {struct needle} : bool :=
  match needle, s with
  | EmptyString, _ => true
  | String _ _, EmptyString => false
  | String a needle', String b s' =>
      if Ascii.eqb a b then startsWith s' needle' else false
  end.

(** [s.includes(needle)]: [needle] occurs at some index of [s]. *)
Fixpoint includes (s needle : string) : bool :=
  startsWith s needle
  || match s with
     | EmptyString => false
     | String _ s' => includes s' needle
     end.

(** [s.endsWith(needle)]: some suffix of [s] is [needle]. *)
Fixpoint endsWith (s needle : string) : bool :=
  String.eqb s needle
  || match s with
     | EmptyString => false
     | String _ s' => endsWith s' needle
     end.

(** [arr.slice(start)], with the relative-index rule of the language:
    a negative [start] counts from the end and is clamped at 0, a
    positive one is clamped at the length. *)
Definition slice {A} (arr : list A) (start : Z) : list A :=
  let len := Z.of_nat (length arr) in
  let k := if start <? 0 then Z.max (len + start) 0 else Z.min start len in
  drop (Z.to_nat k) arr.

(** [arr[arr.length - 1]]: [undefined] on the empty array. *)
Definition at_last {A} (arr : list A) : option A :=
  match length arr with
  | O => None
  | S i => arr !! i
  end.

(** A [Map<string, string>]: entries in insertion order, keys unique. *)
Abbreviation JSMap := (list (string * string)).

Fixpoint Map_get (m : JSMap) (k : string) : option string :=
  match m with
  | [] => None
  | (k', v') :: m' => if String.eqb k' k then Some v' else Map_get m' k
  end.

(** [m.set(k, v)]: an existing key keeps its position, a new one goes
    last. *)
Fixpoint Map_set (m : JSMap) (k v : string) : JSMap :=
  match m with
  | [] => [(k, v)]
  | (k', v') :: m' =>
      if String.eqb k' k then (k', v) :: m' else (k', v') :: Map_set m' k v
  end.

(** Entries [set] one after the other into [m]. *)
Definition set_all (entries : list (string * string)) (m : JSMap) : JSMap :=
  fold_left (fun m kv => Map_set m kv.1 kv.2) entries m.

(** [new Map(iterable)]: the entries are [set] into an empty map. *)
Definition Map_new (entries : list (string * string)) : JSMap :=
  set_all entries [].

(** A [Set<string>]: elements in insertion order, no repetition. *)
Abbreviation JSSet := (list string).

Definition Set_has (s : JSSet) (x : string) : bool :=
  existsb (String.eqb x) s.

Definition Set_add (s : JSSet) (x : string) : JSSet :=
  if Set_has s x then s else s ++ [x].

Definition Set_delete (s : JSSet) (x : string) : JSSet :=
  filter (fun y => y ≠ x) s.

Definition Set_size (s : JSSet) : Z := Z.of_nat (List.length s).

(** [s.values().next().value] *)
Definition Set_first (s : JSSet) : option string := head s.

End JS.

(** ** [TauriHlsLoader]: the loader plugged into hls.js *)

Module Loader.

Record LoaderContext := { url : string }.

(** The callbacks object handed to [load].  The callbacks themselves are
    code of hls.js: the embedding records which object was called, and
    with what.  [onAbort] is an optional member. *)
Record LoaderCallbacks := { handle : nat; hasOnAbort : bool }.

(** [{ start, first, end }]; clock readings are [performance.now()]
    values, of which only the order and the test against 0 are used. *)
Record HlsProgressivePerformanceTiming :=
  { start : Z; first : Z; end_ : Z }.

Record HlsPerformanceTiming := { parsing_start : Z; parsing_end : Z }.

Record LoaderStats := {
  aborted : bool;
  loaded : nat;
  retry : nat;
  total : nat;
  chunkCount : nat;
  bwEstimate : nat;
  loading : HlsProgressivePerformanceTiming;
  parsing : HlsPerformanceTiming;
  buffering : HlsProgressivePerformanceTiming;
}.

Inductive ResponseData :=
| Text (data : string)
| ArrayBuffer (bytes : list Z).

Record LoaderResponse := { response_url : string; data : ResponseData }.

(** One invocation of a member of the callbacks object, with a snapshot
    of the arguments at the time of the call.  What a callback does to
    the loader in turn ([load], [abort], [destroy]) is further events of
    the trace, and so is the exception it may end with: [onSuccess] is
    called inside the [try], so its exception enters the [catch]. *)
Inductive CallbackCall :=
| onSuccess (cb : LoaderCallbacks) (response : LoaderResponse)
    (stats : LoaderStats) (context : LoaderContext)
| onError (cb : LoaderCallbacks) (code : Z) (text : string)
    (context : LoaderContext) (stats : LoaderStats)
| onAbort (cb : LoaderCallbacks) (stats : LoaderStats)
    (context : LoaderContext).

(** The two bridge commands of the host. *)
Inductive Command := fetch_m3u8 | fetch_bytes.

(** One [invoke(command, { url })]: the promise is identified by its
    position in [bridge]; [settled] turns true when its continuation has
    run. *)
Record BridgeCall := { command : Command; arg_url : string; settled : bool }.

Record TauriHlsLoader := {
  (* fields of the instance *)
  context : option LoaderContext;   (* [context!]: unset until [load] *)
  stats : LoaderStats;
  callbacks : option LoaderCallbacks;
  destroyed : bool;
  (* the world around it *)
  bridge : list BridgeCall;         (* bridge calls issued so far *)
  calls : list CallbackCall;        (* callback invocations so far *)
  running : bool;                   (* [onSuccess] was entered and may yet throw *)
}.

Definition set_context c (l : TauriHlsLoader) :=
  {| context := c; stats := stats l; callbacks := callbacks l;
     destroyed := destroyed l; bridge := bridge l; calls := calls l;
     running := running l |}.
Definition set_stats st (l : TauriHlsLoader) :=
  {| context := context l; stats := st; callbacks := callbacks l;
     destroyed := destroyed l; bridge := bridge l; calls := calls l;
     running := running l |}.
Definition set_callbacks cb (l : TauriHlsLoader) :=
  {| context := context l; stats := stats l; callbacks := cb;
     destroyed := destroyed l; bridge := bridge l; calls := calls l;
     running := running l |}.
Definition set_destroyed d (l : TauriHlsLoader) :=
  {| context := context l; stats := stats l; callbacks := callbacks l;
     destroyed := d; bridge := bridge l; calls := calls l;
     running := running l |}.
Definition set_bridge b (l : TauriHlsLoader) :=
  {| context := context l; stats := stats l; callbacks := callbacks l;
     destroyed := destroyed l; bridge := b; calls := calls l;
     running := running l |}.
Definition call (c : CallbackCall) (l : TauriHlsLoader) :=
  {| context := context l; stats := stats l; callbacks := callbacks l;
     destroyed := destroyed l; bridge := bridge l; calls := calls l ++ [c];
     running := running l |}.
Definition set_running r (l : TauriHlsLoader) :=
  {| context := context l; stats := stats l; callbacks := callbacks l;
     destroyed := destroyed l; bridge := bridge l; calls := calls l;
     running := r |}.

Definition set_aborted b (st : LoaderStats) :=
  {| aborted := b; loaded := loaded st; retry := retry st; total := total st;
     chunkCount := chunkCount st; bwEstimate := bwEstimate st;
     loading := loading st; parsing := parsing st;
     buffering := buffering st |}.
Definition set_loading t (st : LoaderStats) :=
  {| aborted := aborted st; loaded := loaded st; retry := retry st;
     total := total st; chunkCount := chunkCount st;
     bwEstimate := bwEstimate st; loading := t; parsing := parsing st;
     buffering := buffering st |}.

(** [constructor()] *)
Definition constructor : TauriHlsLoader :=
  {| context := None;
     stats := {| aborted := false; loaded := 0; retry := 0; total := 0;
                 chunkCount := 0; bwEstimate := 0;
                 loading := {| start := 0; first := 0; end_ := 0 |};
                 parsing := {| parsing_start := 0; parsing_end := 0 |};
                 buffering := {| start := 0; first := 0; end_ := 0 |} |};
     callbacks := None;
     destroyed := false;
     bridge := [];
     calls := [];
     running := false |}.

(** [destroy()] *)
Definition destroy (l : TauriHlsLoader) : TauriHlsLoader :=
  set_callbacks None (set_destroyed true l).

(** [abort()] *)
Definition abort (l : TauriHlsLoader) : TauriHlsLoader :=
  let l := set_stats (set_aborted true (stats l)) l in
  match callbacks l, context l with
  | Some cb, Some ctx =>
      if hasOnAbort cb then call (onAbort cb (stats l) ctx) l else l
  | _, _ => l
  end.

(** [context.url.includes('.m3u8')] *)
Definition isPlaylist (ctx : LoaderContext) : bool :=
  JS.includes (url ctx) ".m3u8"%string.

(** [invoke(command, { url: this.context.url })]: the argument is read
    from the context slot when the call is issued. *)
Definition invoke (c : Command) (l : TauriHlsLoader) : TauriHlsLoader :=
  match context l with
  | Some ctx =>
      set_bridge
        (bridge l ++ [{| command := c; arg_url := url ctx; settled := false |}])
        l
  | None => l
  end.

(** [loadPlaylist()] and [loadSegment()] up to their [await]. *)
Definition loadPlaylist (l : TauriHlsLoader) := invoke fetch_m3u8 l.
Definition loadSegment (l : TauriHlsLoader) := invoke fetch_bytes l.

(** [load(context, _config, callbacks)], entered when the clock reads
    [now]. *)
Definition load (now : Z) (ctx : LoaderContext) (cbs : LoaderCallbacks)
    (l : TauriHlsLoader) : TauriHlsLoader :=
  let l := set_context (Some ctx) l in
  let l := set_callbacks (Some cbs) l in
  let ld := loading (stats l) in
  let l :=
    set_stats
      (set_loading {| start := now; first := first ld; end_ := end_ ld |}
         (stats l)) l in
  if isPlaylist ctx then loadPlaylist l else loadSegment l.

(** The stamping shared by both success continuations, for a payload of
    [len] units received when the clock reads [now]. *)
Definition stamp (now : Z) (len : nat) (st : LoaderStats) : LoaderStats :=
  let ld := loading st in
  {| aborted := aborted st;
     loaded := len;
     retry := retry st;
     total := len;
     chunkCount := chunkCount st;
     bwEstimate := bwEstimate st;
     loading := {| start := start ld;
                   first := if first ld =? 0 then now else first ld;
                   end_ := now |};
     parsing := {| parsing_start := now; parsing_end := now |};
     buffering := {| start := now; first := now; end_ := now |} |}.

(** [this.callbacks?.onSuccess(response, this.stats, this.context)]: the
    last statement of the [try].  The call is recorded and marked as
    running: it either returns, and the continuation is over, or throws,
    which is the event [Thrown]. *)

Definition succeed (rd : ResponseData) (l : TauriHlsLoader) : TauriHlsLoader :=
  match context l with
  | Some ctx =>
      match callbacks l with
      | Some cb =>
          set_running true
            (call (onSuccess cb {| response_url := url ctx; data := rd |}
                     (stats l) ctx) l)
      | None => l
      end
  | None => l
  end.

(** The [catch] block of both functions; [e] is [String(e)]. *)
Definition on_rejected (e : string) (l : TauriHlsLoader) : TauriHlsLoader :=
  if destroyed l || aborted (stats l) then l
  else
    match callbacks l, context l with
    | Some cb, Some ctx => call (onError cb 0 e ctx (stats l)) l
    | _, _ => l
    end.

(** The [onSuccess] call that is running throws [e]: the [try] it was
    made in is left for the same [catch] block, which reads the flags,
    the callbacks and the context as they are then. *)
Definition on_thrown (e : string) (l : TauriHlsLoader) : TauriHlsLoader :=
  if running l then on_rejected e (set_running false l) else l.

(** [loadPlaylist()] after its [await] returned [data]. *)
Definition loadPlaylist_fulfilled (now : Z) (data : string)
    (l : TauriHlsLoader) : TauriHlsLoader :=
  if destroyed l || aborted (stats l) then l
  else
    let l := set_stats (stamp now (String.length data) (stats l)) l in
    succeed (Text data) l.

(** [new Uint8Array(data).buffer] *)
Definition Uint8Array (data : list Z) : list Z :=
  (fun n => n mod 256) <$> data.

(** [loadSegment()] after its [await] returned [data]. *)
Definition loadSegment_fulfilled (now : Z) (data : list Z)
    (l : TauriHlsLoader) : TauriHlsLoader :=
  if destroyed l || aborted (stats l) then l
  else
    let arrayBuffer := Uint8Array data in
    let l := set_stats (stamp now (length arrayBuffer) (stats l)) l in
    succeed (ArrayBuffer arrayBuffer) l.

(** How the host settles a bridge call. *)
Inductive BridgeResult :=
| text (data : string)
| numbers (data : list Z)
| failure (e : string).

(** What can happen to a loader instance.  [Load], [Abort] and [Destroy]
    are calls of hls.js, from inside a callback or not; [Settle] is the
    host settling a bridge call; [Thrown] is the [onSuccess] call made by
    the last continuation ending with an exception. *)
Inductive Event :=
| Load (now : Z) (ctx : LoaderContext) (cbs : LoaderCallbacks)
| Abort
| Destroy
| Settle (now : Z) (id : nat) (r : BridgeResult)
| Thrown (e : string).

Definition mark_settled (id : nat) (l : TauriHlsLoader) : TauriHlsLoader :=
  set_bridge
    (alter (fun c => {| command := command c; arg_url := arg_url c;
                        settled := true |}) id (bridge l)) l.

(** The continuation of bridge call [id], up to the end of the [try] or
    of the [catch] it enters.  A promise settles once, with a value of the
    type its command returns; any other [Settle] is not an event the host
    can produce and changes nothing.  A continuation runs in a task of
    its own, so a callback entered by an earlier one has come back. *)
Definition settle (now : Z) (id : nat) (r : BridgeResult)
    (l : TauriHlsLoader) : TauriHlsLoader :=
  match bridge l !! id with
  | Some c =>
      if settled c then l
      else
        let l' := set_running false (mark_settled id l) in
        match command c, r with
        | fetch_m3u8, text d => loadPlaylist_fulfilled now d l'
        | fetch_bytes, numbers d => loadSegment_fulfilled now d l'
        | _, failure e => on_rejected e l'
        | _, _ => l
        end
  | None => l
  end.

Definition step (l : TauriHlsLoader) (e : Event) : TauriHlsLoader :=
  match e with
  | Load now ctx cbs => load now ctx cbs l
  | Abort => abort l
  | Destroy => destroy l
  | Settle now id r => settle now id r l
  | Thrown e => on_thrown e l
  end.

Definition run (l : TauriHlsLoader) (tr : list Event) : TauriHlsLoader :=
  fold_left step tr l.

(** The clock readings of a trace never go back, starting from [t]. *)
Fixpoint chronological (t : Z) (tr : list Event) : Prop :=
  match tr with
  | [] => True
  | Load now _ _ :: tr' | Settle now _ _ :: tr' =>
      t <= now /\ chronological now tr'
  | _ :: tr' => chronological t tr'
  end.

(** The last clock reading of a trace that started at [t]. *)
Fixpoint clock (t : Z) (tr : list Event) : Z :=
  match tr with
  | [] => t
  | Load now _ _ :: tr' | Settle now _ _ :: tr' => clock now tr'
  | _ :: tr' => clock t tr'
  end.

(** The calls that deliver the outcome of a load: [onSuccess] and
    [onError]. *)
Definition is_result (c : CallbackCall) : bool :=
  match c with
  | onSuccess _ _ _ _ | onError _ _ _ _ _ => true
  | onAbort _ _ _ => false
  end.

Definition results (l : TauriHlsLoader) : list CallbackCall :=
  List.filter is_result (calls l).

(** The test both continuations start with. *)
Definition cancelled (l : TauriHlsLoader) : bool :=
  destroyed l || aborted (stats l).

(** What holds of a loader when the clock reads [t]: [loading.start] is a
    past reading, and a loader that issued a bridge call has a context
    and, unless destroyed, a callbacks object. *)
Definition seasoned (t : Z) (l : TauriHlsLoader) : Prop :=
  start (loading (stats l)) <= t /\
  (bridge l ≠ [] -> context l ≠ None /\
     (destroyed l = false -> callbacks l ≠ None)).

(** The fields a continuation leaves alone. *)
Definition same_frame (l l' : TauriHlsLoader) : Prop :=
  context l' = context l /\ callbacks l' = callbacks l /\
  destroyed l' = destroyed l /\ bridge l' = bridge l /\
  start (loading (stats l')) = start (loading (stats l)).

(** The bridge call [id] is in flight. *)
Definition in_flight (id : nat) (l : TauriHlsLoader) : bool :=
  match bridge l !! id with
  | Some c => negb (settled c)
  | None => false
  end.

End Loader.

(** ** [useChat]: the chat hook

  The repository holds two revisions of the hook, which differ in how a
  repeated message is recognised: [by_id] is [src/hooks/useChat.ts]
  (a set of message ids already seen), [by_content] is the revision that
  compares with the last message shown.  Everything else is shared. *)

Module Chat.

Record ChatMessage := {
  id : option string;               (* [undefined] when the server sent none *)
  user : string;
  message : string;
  color : option string;
  badges : list (string * string);
  timestamp : Z;
  channel : string;
}.

Inductive Revision := by_id | by_content.

(** The continuation of the [chat-disconnected] listener that waits on
    its two-second timer.  [closure_channel] is the [channel] the
    listener closed over: the argument of the render that subscribed it. *)
Record Reconnect := {
  disconnectedChannel : string;
  closure_channel : option string;
  elapsed : bool;
}.

Record UseChat := {
  hook_channel : option string;      (* the [channel] argument of the last render *)
  messages : list ChatMessage;
  isAtBottom : bool;
  currentChannelRef : option string;
  seenIdsRef : JS.JSSet;
  connect_to_chat : list string;     (* [invoke("connect_to_chat", { channel })] so far *)
  timers : list Reconnect;
}.

Definition set_messages ms (s : UseChat) :=
  {| hook_channel := hook_channel s; messages := ms;
     isAtBottom := isAtBottom s; currentChannelRef := currentChannelRef s;
     seenIdsRef := seenIdsRef s; connect_to_chat := connect_to_chat s;
     timers := timers s |}.
Definition set_seenIds ids (s : UseChat) :=
  {| hook_channel := hook_channel s; messages := messages s;
     isAtBottom := isAtBottom s; currentChannelRef := currentChannelRef s;
     seenIdsRef := ids; connect_to_chat := connect_to_chat s;
     timers := timers s |}.
Definition set_currentChannel c (s : UseChat) :=
  {| hook_channel := hook_channel s; messages := messages s;
     isAtBottom := isAtBottom s; currentChannelRef := c;
     seenIdsRef := seenIdsRef s; connect_to_chat := connect_to_chat s;
     timers := timers s |}.
Definition set_isAtBottom b (s : UseChat) :=
  {| hook_channel := hook_channel s; messages := messages s;
     isAtBottom := b; currentChannelRef := currentChannelRef s;
     seenIdsRef := seenIdsRef s; connect_to_chat := connect_to_chat s;
     timers := timers s |}.
Definition set_hook_channel c (s : UseChat) :=
  {| hook_channel := c; messages := messages s;
     isAtBottom := isAtBottom s; currentChannelRef := currentChannelRef s;
     seenIdsRef := seenIdsRef s; connect_to_chat := connect_to_chat s;
     timers := timers s |}.
Definition set_timers ts (s : UseChat) :=
  {| hook_channel := hook_channel s; messages := messages s;
     isAtBottom := isAtBottom s; currentChannelRef := currentChannelRef s;
     seenIdsRef := seenIdsRef s; connect_to_chat := connect_to_chat s;
     timers := ts |}.
Definition invoke_connect_to_chat (c : string) (s : UseChat) :=
  {| hook_channel := hook_channel s; messages := messages s;
     isAtBottom := isAtBottom s; currentChannelRef := currentChannelRef s;
     seenIdsRef := seenIdsRef s;
     connect_to_chat := connect_to_chat s ++ [c];
     timers := timers s |}.

(** [a === b] on [string | null]. *)
Definition strict_eq (a b : option string) : bool :=
  match a, b with
  | Some x, Some y => String.eqb x y
  | None, None => true
  | _, _ => false
  end.

(** [seenIdsRef.current.clear()], which only the [by_id] revision has. *)
Definition clear_seenIds (rv : Revision) (s : UseChat) : UseChat :=
  match rv with by_id => set_seenIds [] s | by_content => s end.

(** The effect with dependency [channel]: "connect to chat when channel
    changes". *)
Definition channel_effect (rv : Revision) (s : UseChat) : UseChat :=
  match hook_channel s with
  | Some c =>
      if JS.truthy c then
        let s := set_currentChannel (Some c) s in
        let s := set_messages [] s in
        let s := clear_seenIds rv s in
        let s := set_isAtBottom true s in
        invoke_connect_to_chat c s
      else
        clear_seenIds rv (set_messages [] (set_currentChannel None s))
  | None =>
      clear_seenIds rv (set_messages [] (set_currentChannel None s))
  end.

(** The first render of the hook, with argument [c]: every effect runs. *)
Definition mount (rv : Revision) (c : option string) : UseChat :=
  channel_effect rv
    {| hook_channel := c; messages := []; isAtBottom := true;
       currentChannelRef := None; seenIdsRef := [];
       connect_to_chat := []; timers := [] |}.

(** A later render with argument [c]: the effect runs only when the
    dependency changed. *)
Definition render (rv : Revision) (c : option string) (s : UseChat) : UseChat :=
  if strict_eq c (hook_channel s) then s
  else channel_effect rv (set_hook_channel c s).

(** [{ ...newMsg, timestamp: Date.now() }] *)
Definition stamped (now : Z) (m : ChatMessage) : ChatMessage :=
  {| id := id m; user := user m; message := message m; color := color m;
     badges := badges m; timestamp := now; channel := channel m |}.

(** [[...prev, { ...newMsg, timestamp: Date.now() }].slice(-200)] *)
Definition append (now : Z) (newMsg : ChatMessage) (prev : list ChatMessage)
    : list ChatMessage :=
  JS.slice (prev ++ [stamped now newMsg]) (-200).

(** [newMsg.id && seenIdsRef.current.has(newMsg.id)] *)
Definition seen_before (seen : JS.JSSet) (newMsg : ChatMessage) : bool :=
  match id newMsg with
  | Some i => JS.truthy i && JS.Set_has seen i
  | None => false
  end.

(** "Add to seen IDs (keep last 500 to prevent memory growth)" *)
Definition remember (seen : JS.JSSet) (newMsg : ChatMessage) : JS.JSSet :=
  match id newMsg with
  | Some i =>
      if JS.truthy i then
        let seen := JS.Set_add seen i in
        if 500 <? JS.Set_size seen then
          match JS.Set_first seen with
          | Some firstId =>
              if JS.truthy firstId then JS.Set_delete seen firstId else seen
          | None => seen
          end
        else seen
      else seen
  | None => seen
  end.

(** The state updater of the [by_content] revision: "check for
    duplicate (same user, same message, within 100ms)". *)
Definition update_by_content (now : Z) (newMsg : ChatMessage)
    (prev : list ChatMessage) : list ChatMessage :=
  match JS.at_last prev with
  | Some lastMsg =>
      if String.eqb (user lastMsg) (user newMsg)
         && String.eqb (message lastMsg) (message newMsg)
         && (now - timestamp lastMsg <? 100)
      then prev
      else append now newMsg prev
  | None => append now newMsg prev
  end.

(** The [chat-message] listener, run when [Date.now()] reads [now]. *)
Definition on_chat_message (rv : Revision) (now : Z) (newMsg : ChatMessage)
    (s : UseChat) : UseChat :=
  if negb (strict_eq (Some (channel newMsg)) (currentChannelRef s)) then s
  else
    match rv with
    | by_id =>
        if seen_before (seenIdsRef s) newMsg then s
        else
          let s := set_seenIds (remember (seenIdsRef s) newMsg) s in
          set_messages (append now newMsg (messages s)) s
    | by_content =>
        set_messages (update_by_content now newMsg (messages s)) s
    end.

(** The [chat-disconnected] listener up to its [await]: the listener in
    place is the one subscribed by the last render, so the [channel] it
    compares with is that render's argument. *)
Definition on_chat_disconnected (payload : string) (s : UseChat) : UseChat :=
  let channel := hook_channel s in
  if strict_eq (Some payload) channel then
    set_timers
      (timers s ++ [{| disconnectedChannel := payload;
                       closure_channel := channel; elapsed := false |}]) s
  else s.

(** The same listener after the two seconds: the second comparison reads
    the variables of the closure again. *)
Definition on_timer (i : nat) (s : UseChat) : UseChat :=
  match timers s !! i with
  | Some t =>
      if elapsed t then s
      else
        let s :=
          set_timers
            (alter (fun t => {| disconnectedChannel := disconnectedChannel t;
                                closure_channel := closure_channel t;
                                elapsed := true |}) i (timers s)) s in
        if strict_eq (Some (disconnectedChannel t)) (closure_channel t) then
          match closure_channel t with
          | Some channel => invoke_connect_to_chat channel s
          | None => s
          end
        else s
  | None => s
  end.

Inductive Event :=
| Render (c : option string)                 (* the user selects or clears a channel *)
| ChatMessageEvent (now : Z) (payload : ChatMessage)
| ChatDisconnected (payload : string)
| TimerElapsed (i : nat).

Definition step (rv : Revision) (s : UseChat) (e : Event) : UseChat :=
  match e with
  | Render c => render rv c s
  | ChatMessageEvent now m => on_chat_message rv now m s
  | ChatDisconnected c => on_chat_disconnected c s
  | TimerElapsed i => on_timer i s
  end.

Definition run (rv : Revision) (s : UseChat) (tr : list Event) : UseChat :=
  fold_left (step rv) tr s.

(** The id under which the [by_id] listener records [m], if it lets it
    through and records it. *)
Definition accepts (s : UseChat) (m : ChatMessage) : option string :=
  if strict_eq (Some (channel m)) (currentChannelRef s)
     && negb (seen_before (seenIdsRef s) m)
  then match id m with
       | Some i => if JS.truthy i then Some i else None
       | None => None
       end
  else None.

(** A run of the [by_id] revision that also keeps the ids recorded
    since the channel effect last ran, oldest first. *)
Definition track (st : UseChat * list string) (e : Event)
    : UseChat * list string :=
  (step by_id st.1 e,
   match e with
   | Render c => if strict_eq c (hook_channel st.1) then st.2 else []
   | ChatMessageEvent _ m =>
       match accepts st.1 m with
       | Some i => st.2 ++ [i]
       | None => st.2
       end
   | _ => st.2
   end).

Definition accepted_ids (c0 : option string) (tr : list Event) : list string :=
  (fold_left track tr (mount by_id c0, [])).2.

(** The seen set is the last 500 entries of [acc], without repetition
    and without an empty id. *)
Definition window (seen acc : list string) : Prop :=
  seen = drop (length acc - 500) acc /\
  NoDup seen /\
  Forall (fun i => JS.truthy i = true) seen.

(** Two events are structurally identical: same user, same text. *)
Definition same_content (a b : ChatMessage) : bool :=
  String.eqb (user a) (user b) && String.eqb (message a) (message b).

(** What every state of the hook satisfies. *)
Definition consistent (s : UseChat) : Prop :=
  Forall (fun m => Some (channel m) = currentChannelRef s) (messages s) /\
  currentChannelRef s =
    (if JS.truthy_opt (hook_channel s) then hook_channel s else None) /\
  (length (messages s) <= 200)%nat.

(** Sample messages, for the examples below. *)
Definition ann_says_hi (i : string) : ChatMessage :=
  {| id := Some i; user := "ann"; message := "hi"; color := None;
     badges := []; timestamp := 0; channel := "alpha" |}.

Definition bob_says_yo : ChatMessage :=
  {| id := Some "9"%string; user := "bob"; message := "yo"; color := None;
     badges := []; timestamp := 0; channel := "alpha" |}.

End Chat.

(** ** [useEmotes]: the emote and badge hook

  The hook keeps its tables as [Map] objects held in React state.  Maps
  are mutable objects, so the embedding has a heap of them and the state
  holds references: [emoteMap.set] writes the heap in place, [setX(ref)]
  publishes a reference. *)

Module Emotes.

Record Emote := { name : string; url : string }.

Record TwitchEmoteImages := { url_1x : string; url_2x : string; url_4x : string }.

(** [images] is read through [?.]: it may be missing. *)
Record TwitchEmote := {
  emote_id : string;
  emote_name : string;
  images : option TwitchEmoteImages;
}.

Record TwitchBadge := { setID : string; version : string; imageURL : string }.

(** The outcome of a bridge call. *)
Inductive Settled (A : Type) :=
| fulfilled (value : A)
| rejected (err : string).
Arguments fulfilled {A} value.
Arguments rejected {A} err.

(** [GetTwitchEmotesResponse]: the code tests [data?.data], so what
    matters of a response is whether it carries the list. *)
Abbreviation GetTwitchEmotesResponse := (option (list TwitchEmote)).

(** [GetChannelBadgesResponse]: the code reads
    [badges.user.broadcastBadges] without a test.  What matters of a
    response is the list it carries, or that it has no [user] to read the
    list from. *)
Abbreviation GetChannelBadgesResponse := (option (list TwitchBadge)).

Abbreviation Heap := (list JS.JSMap).

(** [new Map(entries)] *)
Definition new_Map (entries : list (string * string)) (h : Heap) : Heap * nat :=
  (h ++ [JS.Map_new entries], length h).

(** [ref.set(k, v)], in place. *)
Definition heap_set (ref : nat) (k v : string) (h : Heap) : Heap :=
  alter (fun m => JS.Map_set m k v) ref h.

(** [ref.get(k)] *)
Definition heap_get (h : Heap) (ref : nat) (k : string) : option string :=
  match h !! ref with
  | Some m => JS.Map_get m k
  | None => None
  end.

(** [src.forEach((v, k) => dst.set(k, v))] *)
Definition forEach_set (src dst : nat) (h : Heap) : Heap :=
  match h !! src with
  | Some m => fold_left (fun h kv => heap_set dst kv.1 kv.2 h) m h
  | None => h
  end.

Record UseEmotes := {
  heap : Heap;
  globalEmotes : nat;
  twitchGlobalEmotes : nat;
  globalBadges : list TwitchBadge;
  channelEmotes : nat;
  twitchChannelEmotes : nat;
  channelBadges : list TwitchBadge;
  memo_deps : nat * nat * nat * nat;   (* the dependencies [useMemo] last computed with *)
  allEmotes : nat;                     (* the value [useMemo] returned at the last render *)
}.

Definition set_heap h (s : UseEmotes) :=
  {| heap := h; globalEmotes := globalEmotes s;
     twitchGlobalEmotes := twitchGlobalEmotes s;
     globalBadges := globalBadges s; channelEmotes := channelEmotes s;
     twitchChannelEmotes := twitchChannelEmotes s;
     channelBadges := channelBadges s; memo_deps := memo_deps s;
     allEmotes := allEmotes s |}.
Definition setGlobalEmotes r (s : UseEmotes) :=
  {| heap := heap s; globalEmotes := r;
     twitchGlobalEmotes := twitchGlobalEmotes s;
     globalBadges := globalBadges s; channelEmotes := channelEmotes s;
     twitchChannelEmotes := twitchChannelEmotes s;
     channelBadges := channelBadges s; memo_deps := memo_deps s;
     allEmotes := allEmotes s |}.
Definition setTwitchGlobalEmotes r (s : UseEmotes) :=
  {| heap := heap s; globalEmotes := globalEmotes s;
     twitchGlobalEmotes := r;
     globalBadges := globalBadges s; channelEmotes := channelEmotes s;
     twitchChannelEmotes := twitchChannelEmotes s;
     channelBadges := channelBadges s; memo_deps := memo_deps s;
     allEmotes := allEmotes s |}.
Definition setGlobalBadges b (s : UseEmotes) :=
  {| heap := heap s; globalEmotes := globalEmotes s;
     twitchGlobalEmotes := twitchGlobalEmotes s;
     globalBadges := b; channelEmotes := channelEmotes s;
     twitchChannelEmotes := twitchChannelEmotes s;
     channelBadges := channelBadges s; memo_deps := memo_deps s;
     allEmotes := allEmotes s |}.
Definition setChannelEmotes r (s : UseEmotes) :=
  {| heap := heap s; globalEmotes := globalEmotes s;
     twitchGlobalEmotes := twitchGlobalEmotes s;
     globalBadges := globalBadges s; channelEmotes := r;
     twitchChannelEmotes := twitchChannelEmotes s;
     channelBadges := channelBadges s; memo_deps := memo_deps s;
     allEmotes := allEmotes s |}.
Definition setTwitchChannelEmotes r (s : UseEmotes) :=
  {| heap := heap s; globalEmotes := globalEmotes s;
     twitchGlobalEmotes := twitchGlobalEmotes s;
     globalBadges := globalBadges s; channelEmotes := channelEmotes s;
     twitchChannelEmotes := r;
     channelBadges := channelBadges s; memo_deps := memo_deps s;
     allEmotes := allEmotes s |}.
Definition setChannelBadges b (s : UseEmotes) :=
  {| heap := heap s; globalEmotes := globalEmotes s;
     twitchGlobalEmotes := twitchGlobalEmotes s;
     globalBadges := globalBadges s; channelEmotes := channelEmotes s;
     twitchChannelEmotes := twitchChannelEmotes s;
     channelBadges := b; memo_deps := memo_deps s;
     allEmotes := allEmotes s |}.
Definition set_memo deps r (s : UseEmotes) :=
  {| heap := heap s; globalEmotes := globalEmotes s;
     twitchGlobalEmotes := twitchGlobalEmotes s;
     globalBadges := globalBadges s; channelEmotes := channelEmotes s;
     twitchChannelEmotes := twitchChannelEmotes s;
     channelBadges := channelBadges s; memo_deps := deps;
     allEmotes := r |}.

(** [const emoteMap = new Map(); emoteList.forEach(e => emoteMap.set(e.name, e.url))] *)
Definition build_emoteMap (emoteList : list Emote) (h : Heap) : Heap * nat :=
  let '(h, emoteMap) := new_Map [] h in
  (fold_left (fun h e => heap_set emoteMap (name e) (url e) h) emoteList h,
   emoteMap).

(** [e.images?.url_2x || e.images?.url_1x] *)
Definition twitch_url (e : TwitchEmote) : option string :=
  match images e with
  | Some i => Some (if JS.truthy (url_2x i) then url_2x i else url_1x i)
  | None => None
  end.

(** The loop over a Twitch emote list: an emote without a name or
    without an image address is skipped. *)
Definition build_twitchEmoteMap (data : list TwitchEmote) (h : Heap)
    : Heap * nat :=
  let '(h, emoteMap) := new_Map [] h in
  (fold_left
     (fun h e =>
        match twitch_url e with
        | Some url =>
            if JS.truthy (emote_name e) && JS.truthy url
            then heap_set emoteMap (emote_name e) url h
            else h
        | None => h
        end) data h,
   emoteMap).

(** The body of the [useMemo]: "combine all emote sources". *)
Definition combine (s : UseEmotes) : Heap * nat :=
  let h := heap s in
  let '(h, combined) := new_Map (default [] (h !! twitchGlobalEmotes s)) h in
  let h := forEach_set (globalEmotes s) combined h in
  let h := forEach_set (twitchChannelEmotes s) combined h in
  let h := forEach_set (channelEmotes s) combined h in
  (h, combined).

Definition deps (s : UseEmotes) : nat * nat * nat * nat :=
  (twitchGlobalEmotes s, globalEmotes s, twitchChannelEmotes s, channelEmotes s).

(** A render: [useMemo] runs its body again when one of the dependencies
    is another object than at the last computation. *)
Definition render (s : UseEmotes) : UseEmotes :=
  if bool_decide (deps s = memo_deps s) then s
  else
    let '(h, combined) := combine s in
    set_memo (deps s) combined (set_heap h s).

(** The first render: the four [useState(new Map())] and the first run
    of the [useMemo]. *)
Definition mount : UseEmotes :=
  let s :=
    {| heap := [[]; []; []; []];
       globalEmotes := 0; twitchGlobalEmotes := 1; globalBadges := [];
       channelEmotes := 2; twitchChannelEmotes := 3; channelBadges := [];
       memo_deps := (0, 0, 0, 0)%nat; allEmotes := 0 |} in
  let '(h, combined) := combine s in
  set_memo (deps s) combined (set_heap h s).

(** [loadGlobalEmotes()] after its [await]. *)
Definition loadGlobalEmotes_settled (r : Settled (list Emote)) (s : UseEmotes)
    : UseEmotes :=
  match r with
  | fulfilled emoteList =>
      let '(h, emoteMap) := build_emoteMap emoteList (heap s) in
      setGlobalEmotes emoteMap (set_heap h s)
  | rejected _ => s
  end.

(** [loadTwitchGlobalEmotes()] after its [await]. *)
Definition loadTwitchGlobalEmotes_settled
    (r : Settled GetTwitchEmotesResponse) (s : UseEmotes) : UseEmotes :=
  match r with
  | fulfilled (Some data) =>
      let '(h, emoteMap) := build_twitchEmoteMap data (heap s) in
      setTwitchGlobalEmotes emoteMap (set_heap h s)
  | fulfilled None => s
  | rejected _ => s
  end.

(** [loadGlobalBadges()] after its [await]. *)
Definition loadGlobalBadges_settled (r : Settled (list TwitchBadge))
    (s : UseEmotes) : UseEmotes :=
  match r with
  | fulfilled badges => setGlobalBadges badges s
  | rejected _ => s
  end.

(** [loadChannelEmotes(channelId)] after its [await Promise.all([...])]:
    the three bridge calls are joined, and the [try] covers the join and
    what follows it.  [setChannelEmotes] has run when
    [badges.user.broadcastBadges] is read: a response without [user]
    makes that read throw, and the [catch] block only logs, so the emote
    table is published and the rest of the [try] is skipped. *)
Definition loadChannelEmotes_settled
    (get_channel_emotes : Settled (list Emote))
    (get_channel_badges : Settled GetChannelBadgesResponse)
    (get_twitch_channel_emotes : Settled GetTwitchEmotesResponse)
    (s : UseEmotes) : UseEmotes :=
  match get_channel_emotes, get_channel_badges, get_twitch_channel_emotes with
  | fulfilled emoteList, fulfilled badges, fulfilled twitchEmotes =>
      let '(h, emoteMap) := build_emoteMap emoteList (heap s) in
      let s := setChannelEmotes emoteMap (set_heap h s) in
      match badges with
      | Some broadcastBadges =>
          let s := setChannelBadges broadcastBadges s in
          match twitchEmotes with
          | Some data =>
              let '(h, twitchEmoteMap) :=
                build_twitchEmoteMap data (heap s) in
              setTwitchChannelEmotes twitchEmoteMap (set_heap h s)
          | None => s
          end
      | None => s
      end
  | _, _, _ => s
  end.

Inductive Event :=
| GlobalEmotesSettled (r : Settled (list Emote))
| TwitchGlobalEmotesSettled (r : Settled GetTwitchEmotesResponse)
| GlobalBadgesSettled (r : Settled (list TwitchBadge))
| ChannelEmotesSettled (get_channel_emotes : Settled (list Emote))
    (get_channel_badges : Settled GetChannelBadgesResponse)
    (get_twitch_channel_emotes : Settled GetTwitchEmotesResponse).

Definition handle (s : UseEmotes) (e : Event) : UseEmotes :=
  match e with
  | GlobalEmotesSettled r => loadGlobalEmotes_settled r s
  | TwitchGlobalEmotesSettled r => loadTwitchGlobalEmotes_settled r s
  | GlobalBadgesSettled r => loadGlobalBadges_settled r s
  | ChannelEmotesSettled r1 r2 r3 => loadChannelEmotes_settled r1 r2 r3 s
  end.

(** A continuation runs, then React renders the component again. *)
Definition step (s : UseEmotes) (e : Event) : UseEmotes :=
  render (handle s e).

Definition run (s : UseEmotes) (tr : list Event) : UseEmotes :=
  fold_left step tr s.

(** The value of the highest-precedence table that defines [k]. *)
Definition by_precedence (s : UseEmotes) (k : string) : option string :=
  match heap_get (heap s) (channelEmotes s) k with
  | Some v => Some v
  | None =>
      match heap_get (heap s) (twitchChannelEmotes s) k with
      | Some v => Some v
      | None =>
          match heap_get (heap s) (globalEmotes s) k with
          | Some v => Some v
          | None => heap_get (heap s) (twitchGlobalEmotes s) k
          end
      end
  end.

(** The entry the loop of [build_emoteMap] writes for [e]. *)
Definition emote_entry (e : Emote) : string * string := (name e, url e).

(** The entry the loop of [build_twitchEmoteMap] writes for [e], if
    any. *)
Definition twitch_entry (e : TwitchEmote) : option (string * string) :=
  match twitch_url e with
  | Some url =>
      if JS.truthy (emote_name e) && JS.truthy url
      then Some (emote_name e, url) else None
  | None => None
  end.

Definition is_rejected {A} (r : Settled A) : bool :=
  match r with rejected _ => true | fulfilled _ => false end.

Definition unique_keys (m : JS.JSMap) : Prop := NoDup m.*1.

(** Every reference of the hook points into the heap. *)
Definition refs_in_heap (s : UseEmotes) : Prop :=
  (globalEmotes s < length (heap s) /\
   twitchGlobalEmotes s < length (heap s) /\
   channelEmotes s < length (heap s) /\
   twitchChannelEmotes s < length (heap s) /\
   allEmotes s < length (heap s))%nat.

(** The part of [sound] that the continuations maintain by themselves. *)
Definition good (s : UseEmotes) : Prop :=
  Forall unique_keys (heap s) /\ refs_in_heap s.

(** What every state between two events satisfies. *)
Definition sound (s : UseEmotes) : Prop :=
  Forall unique_keys (heap s) /\
  refs_in_heap s /\
  memo_deps s = deps s /\
  forall k, heap_get (heap s) (allEmotes s) k = by_precedence s k.

(** Sample emotes, for the examples below. *)
Definition Kappa : Emote := {| name := "Kappa"; url := "7tv/kappa.webp" |}.

Definition twitch_Kappa : TwitchEmote :=
  {| emote_id := "25"; emote_name := "Kappa";
     images := Some {| url_1x := "twitch/kappa-1.png";
                       url_2x := "twitch/kappa-2.png";
                       url_4x := "twitch/kappa-4.png" |} |}.

End Emotes.
(** ** More of the loader: counting what a trace did *)

Module LoaderTrace.
Import Loader.

Definition is_load (e : Event) : bool :=
  match e with Load _ _ _ => true | _ => false end.

(** The number of [load()] calls of a trace. *)
Definition loads (tr : list Event) : nat := length (List.filter is_load tr).

(** The bridge calls whose continuation has run. *)
Definition settled_calls (l : TauriHlsLoader) : nat :=
  length (List.filter settled (bridge l)).

Definition is_thrown (e : Event) : bool :=
  match e with Thrown _ => true | _ => false end.

(** The number of exceptions of [onSuccess] in a trace. *)
Definition throws (tr : list Event) : nat :=
  length (List.filter is_thrown tr).

Definition is_success (c : CallbackCall) : bool :=
  match c with onSuccess _ _ _ _ => true | _ => false end.

(** The [onSuccess] calls made so far. *)
Definition successes (l : TauriHlsLoader) : list CallbackCall :=
  List.filter is_success (calls l).

(** The context and the clock reading of the last [load()] of a trace that
    started with context [c] and [loading.start] at [t]. *)
Fixpoint last_load (c : option LoaderContext) (t : Z) (tr : list Event)
    : option LoaderContext * Z :=
  match tr with
  | [] => (c, t)
  | Load now ctx _ :: tr' => last_load (Some ctx) now tr'
  | _ :: tr' => last_load c t tr'
  end.

(** A loader that issued a bridge call has a context and, unless
    destroyed, a callbacks object. *)
Definition equipped (l : TauriHlsLoader) : Prop :=
  bridge l ≠ [] ->
  context l ≠ None /\ (destroyed l = false -> callbacks l ≠ None).

(** After [destroy()] and before the next [load()]. *)
Definition released (l : TauriHlsLoader) : Prop :=
  callbacks l = None /\ destroyed l = true.

(** Every byte of an [ArrayBuffer] response is in range. *)
Definition is_byte (n : Z) : Prop := 0 <= n < 256.

End LoaderTrace.

(** ** More of the chat hook: what arrived, and how often it connects *)

Module ChatTrace.
Import Chat.

(** The payloads a trace delivered to the [chat-message] listener, each
    stamped with the reading of [Date.now()] at its arrival. *)
Fixpoint arrivals (tr : list Event) : list ChatMessage :=
  match tr with
  | [] => []
  | ChatMessageEvent now m :: tr' => stamped now m :: arrivals tr'
  | _ :: tr' => arrivals tr'
  end.

Definition is_render (e : Event) : bool :=
  match e with Render _ => true | _ => false end.

Definition is_disconnect (e : Event) : bool :=
  match e with ChatDisconnected _ => true | _ => false end.

(** The reconnect timers that have not elapsed yet. *)
Definition waiting (s : UseChat) : nat :=
  length (List.filter (fun t => negb (elapsed t)) (timers s)).

(** A sample message that carries no id, and [n] arrivals of it in the
    channel alpha, one second apart. *)
Definition anonymous : ChatMessage :=
  {| id := None; user := "ann"; message := "hi"; color := None;
     badges := []; timestamp := 0; channel := "alpha" |}.

Definition every_second (n : nat) : list Event :=
  (fun k => ChatMessageEvent (1000 * Z.of_nat k) anonymous) <$> seq 1 n.

End ChatTrace.

(** ** Sending a chat message

    [sendMessage] of [useChat] and the two handlers of the [Chat] component
    that call it. *)

Module ChatSend.

(** [WhiteSpace] and [LineTerminator] of the language, among the code units
    below 256 (strings are sequences of such code units here): TAB, LF, VT,
    FF, CR, SP and NBSP. *)
Definition is_white_space (c : Ascii.ascii) : bool :=
  let n := Ascii.nat_of_ascii c in
  (Nat.leb 9 n && Nat.leb n 13) || Nat.eqb n 32 || Nat.eqb n 160.

(** [s.trimStart()] *)
Fixpoint trimStart (s : string) : string :=
  match s with
  | EmptyString => EmptyString
  | String c s' => if is_white_space c then trimStart s' else s
  end.

(** [s.trimEnd()] *)
Fixpoint trimEnd (s : string) : string :=
  match s with
  | EmptyString => EmptyString
  | String c s' =>
      match trimEnd s' with
      | EmptyString => if is_white_space c then EmptyString
                       else String c EmptyString
      | rest => String c rest
      end
  end.

(** [s.trim()] *)
Definition trim (s : string) : string := trimEnd (trimStart s).

(** [sendMessage(message)] of [useChat], up to its [await]; [sent] is the
    list of [invoke("send_chat_message", { message })] so far.  A rejected
    call is logged and nothing else. *)
Definition sendMessage (isLoggedIn : bool) (message : string)
    (sent : list string) : list string :=
  if negb (JS.truthy (trim message)) || negb isLoggedIn then sent
  else sent ++ [trim message].

(** The input box of the [Chat] component and everything sent so far. *)
Record ChatBox := { chatInput : string; send_chat_message : list string }.

(** [handleSend()], with [onSendMessage] bound to [sendMessage] as [App]
    does. *)
Definition handleSend (isLoggedIn : bool) (b : ChatBox) : ChatBox :=
  if JS.truthy (trim (chatInput b)) then
    {| chatInput := "";
       send_chat_message :=
         sendMessage isLoggedIn (chatInput b) (send_chat_message b) |}
  else b.

(** [handleKeyDown(e)]: Enter without Shift sends. *)
Definition handleKeyDown (key : string) (shiftKey : bool) (isLoggedIn : bool)
    (b : ChatBox) : ChatBox :=
  if String.eqb key "Enter" && negb shiftKey then handleSend isLoggedIn b
  else b.

Definition first_char (s : string) : option Ascii.ascii :=
  match s with
  | EmptyString => None
  | String c _ => Some c
  end.

Fixpoint last_char (s : string) : option Ascii.ascii :=
  match s with
  | EmptyString => None
  | String c EmptyString => Some c
  | String _ s' => last_char s'
  end.

(** Nothing but white space. *)
Fixpoint blank (s : string) : bool :=
  match s with
  | EmptyString => true
  | String c s' => is_white_space c && blank s'
  end.

(** No white space at either end. *)
Definition trimmed (s : string) : Prop :=
  (forall c, first_char s = Some c -> is_white_space c = false) /\
  (forall c, last_char s = Some c -> is_white_space c = false).

End ChatSend.

(** ** More of the emote hook: what a published table holds *)

Module EmoteTables.
Import Emotes.

(** The value of the last entry for [k] in a list of entries. *)
Fixpoint lookup_last (entries : list (string * string)) (k : string)
    : option string :=
  match entries with
  | [] => None
  | (k', v) :: rest =>
      match lookup_last rest k with
      | Some v' => Some v'
      | None => if String.eqb k' k then Some v else None
      end
  end.

(** An event that publishes no emote table. *)
Definition publishes_nothing (e : Event) : bool :=
  match e with
  | GlobalEmotesSettled (rejected _) => true
  | TwitchGlobalEmotesSettled (rejected _) => true
  | TwitchGlobalEmotesSettled (fulfilled None) => true
  | GlobalBadgesSettled _ => true
  | ChannelEmotesSettled r1 r2 r3 =>
      is_rejected r1 || is_rejected r2 || is_rejected r3
  | _ => false
  end.

End EmoteTables.

(** ** [ChatMessageView]: how a message of the history is drawn

    The component reads the merged emote map and the two badge tables that
    [useEmotes] returns. *)

Module ChatView.
Import Emotes Chat.

(** [b => b.setID === name && b.version === version] *)
Definition is_badge (name version : string) (b : TwitchBadge) : bool :=
  String.eqb (setID b) name && String.eqb (Emotes.version b) version.

(** The callback of [msg.badges.map(...)]. *)
Definition badgeUrl (channelBadges globalBadges : list TwitchBadge)
    (badge : string * string) : option string :=
  match List.find (is_badge badge.1 badge.2) channelBadges with
  | Some channelBadge => Some (imageURL channelBadge)
  | None =>
      match List.find (is_badge badge.1 badge.2) globalBadges with
      | Some globalBadge => Some (imageURL globalBadge)
      | None => None
      end
  end.

(** [badgeUrls]: [msg.badges.map(...).filter(Boolean)] *)
Definition badgeUrls (msg : ChatMessage)
    (channelBadges globalBadges : list TwitchBadge) : list (option string) :=
  List.filter JS.truthy_opt
    (List.map (badgeUrl channelBadges globalBadges) (badges msg)).

(** [s.split(sep)] for a separator of one code unit: the pieces between
    the separators, the empty ones too. *)
Fixpoint split (s : string) (sep : Ascii.ascii) : list string :=
  match s with
  | EmptyString => [EmptyString]
  | String c s' =>
      if Ascii.eqb c sep then EmptyString :: split s' sep
      else
        match split s' sep with
        | w :: ws => String c w :: ws
        | [] => [String c EmptyString]
        end
  end.

(** What a word of the message becomes: an image, or a span holding the
    word and a space. *)
Inductive Part :=
| img (src alt : string)
| span (text : string).

(** [parts]: [msg.message.split(" ").map(...)] *)
Definition parts (msg : ChatMessage) (emotes : JS.JSMap) : list Part :=
  List.map
    (fun word =>
       match JS.Map_get emotes word with
       | Some emoteUrl =>
           if JS.truthy emoteUrl then img emoteUrl word
           else span (String.append word " ")
       | None => span (String.append word " ")
       end)
    (split (message msg) Ascii.Space).

(** The word a part stands for, and a space. *)
Definition spelled (p : Part) : string :=
  match p with
  | img _ alt => String.append alt " "
  | span text => text
  end.

Definition concat_strings (ss : list string) : string :=
  fold_right String.append EmptyString ss.

End ChatView.

(** ** [useSearch]: the debounced channel search *)

Module Search.

Record SearchResult := { result_id : string; login : string }.

Inductive TimerState := pending | cleared | fired.

(** A [setTimeout(() => { search(query) }, 300)]: the query is the one of
    the render that set the timer. *)
Record Timer := { timer_query : string; timer_state : TimerState }.

(** An [invoke("search_channels", { query })]. *)
Record Call := { call_query : string; call_settled : bool }.

Record UseSearch := {
  query : string;
  results : list SearchResult;
  showResults : bool;
  timeoutRef : option nat;          (* the id [setTimeout] returned, never 0 *)
  timers : list Timer;
  search_channels : list Call;
  onSelectChannel : list string;    (* the calls of the callback so far *)
}.

Definition with_query q (s : UseSearch) :=
  {| query := q; results := results s; showResults := showResults s;
     timeoutRef := timeoutRef s; timers := timers s;
     search_channels := search_channels s;
     onSelectChannel := onSelectChannel s |}.
Definition setResults r (s : UseSearch) :=
  {| query := query s; results := r; showResults := showResults s;
     timeoutRef := timeoutRef s; timers := timers s;
     search_channels := search_channels s;
     onSelectChannel := onSelectChannel s |}.
Definition setShowResults b (s : UseSearch) :=
  {| query := query s; results := results s; showResults := b;
     timeoutRef := timeoutRef s; timers := timers s;
     search_channels := search_channels s;
     onSelectChannel := onSelectChannel s |}.
Definition with_timeoutRef r (s : UseSearch) :=
  {| query := query s; results := results s; showResults := showResults s;
     timeoutRef := r; timers := timers s;
     search_channels := search_channels s;
     onSelectChannel := onSelectChannel s |}.
Definition with_timers ts (s : UseSearch) :=
  {| query := query s; results := results s; showResults := showResults s;
     timeoutRef := timeoutRef s; timers := ts;
     search_channels := search_channels s;
     onSelectChannel := onSelectChannel s |}.
Definition with_calls cs (s : UseSearch) :=
  {| query := query s; results := results s; showResults := showResults s;
     timeoutRef := timeoutRef s; timers := timers s;
     search_channels := cs;
     onSelectChannel := onSelectChannel s |}.
Definition call_onSelectChannel l (s : UseSearch) :=
  {| query := query s; results := results s; showResults := showResults s;
     timeoutRef := timeoutRef s; timers := timers s;
     search_channels := search_channels s;
     onSelectChannel := onSelectChannel s ++ [l] |}.

(** [clearTimeout(id)]: a timer that has fired or was cleared is left
    alone. *)
Definition clearTimeout (id : nat) (s : UseSearch) : UseSearch :=
  with_timers
    (alter (fun t => match timer_state t with
                     | pending => {| timer_query := timer_query t;
                                     timer_state := cleared |}
                     | _ => t
                     end) id (timers s)) s.

(** [if (timeoutRef.current) clearTimeout(timeoutRef.current)] *)
Definition clear_current (s : UseSearch) : UseSearch :=
  match timeoutRef s with
  | Some id => clearTimeout id s
  | None => s
  end.

(** The body of the "debounced search" effect. *)
Definition debounce_effect (s : UseSearch) : UseSearch :=
  let s := clear_current s in
  if JS.truthy (ChatSend.trim (query s)) then
    let id := length (timers s) in
    with_timeoutRef (Some id)
      (with_timers
         (timers s ++ [{| timer_query := query s; timer_state := pending |}])
         s)
  else setShowResults false (setResults [] s).

(** The first render: the query is empty. *)
Definition mount : UseSearch :=
  debounce_effect
    {| query := ""; results := []; showResults := false; timeoutRef := None;
       timers := []; search_channels := []; onSelectChannel := [] |}.

(** A render after [setQuery(q)]: with another query, the cleanup of the
    last effect runs and then the effect. *)
Definition rerender (q : string) (s : UseSearch) : UseSearch :=
  if String.eqb q (query s) then s
  else debounce_effect (with_query q (clear_current s)).

(** [search(searchQuery)] up to its [await]. *)
Definition search (searchQuery : string) (s : UseSearch) : UseSearch :=
  if negb (JS.truthy (ChatSend.trim searchQuery)) then
    setShowResults false (setResults [] s)
  else
    with_calls
      (search_channels s
       ++ [{| call_query := searchQuery; call_settled := false |}]) s.

(** The timer [id] elapses. *)
Definition on_timeout (id : nat) (s : UseSearch) : UseSearch :=
  match timers s !! id with
  | Some t =>
      match timer_state t with
      | pending =>
          search (timer_query t)
            (with_timers
               (alter (fun t => {| timer_query := timer_query t;
                                   timer_state := fired |}) id (timers s)) s)
      | _ => s
      end
  | None => s
  end.

(** [search] after its [await]: the response either carries the list of
    nodes ([data?.searchUsers?.edges] mapped to their nodes) or not. *)
Definition search_settled (id : nat)
    (r : Emotes.Settled (option (list SearchResult))) (s : UseSearch)
    : UseSearch :=
  match search_channels s !! id with
  | Some c =>
      if call_settled c then s
      else
        let s :=
          with_calls
            (alter (fun c => {| call_query := call_query c;
                                call_settled := true |}) id
               (search_channels s)) s in
        match r with
        | Emotes.fulfilled (Some searchResults) =>
            setShowResults true (setResults searchResults s)
        | Emotes.fulfilled None => setShowResults false (setResults [] s)
        | Emotes.rejected _ => setResults [] s
        end
  | None => s
  end.

(** [selectResult(result)] and the render that follows. *)
Definition selectResult (result : SearchResult) (s : UseSearch) : UseSearch :=
  let s := call_onSelectChannel (login result) s in
  let s := setShowResults false (setResults [] s) in
  rerender "" s.

(** [clearSearch()] and the render that follows. *)
Definition clearSearch (s : UseSearch) : UseSearch :=
  rerender "" (setShowResults false (setResults [] s)).

Inductive Event :=
| SetQuery (q : string)
| SetShowResults (show : bool)
| Timeout (id : nat)
| SearchSettled (id : nat) (r : Emotes.Settled (option (list SearchResult)))
| SelectResult (result : SearchResult)
| ClearSearch.

Definition step (s : UseSearch) (e : Event) : UseSearch :=
  match e with
  | SetQuery q => rerender q s
  | SetShowResults b => setShowResults b s
  | Timeout id => on_timeout id s
  | SearchSettled id r => search_settled id r s
  | SelectResult r => selectResult r s
  | ClearSearch => clearSearch s
  end.

Definition run (s : UseSearch) (tr : list Event) : UseSearch :=
  fold_left step tr s.

Definition is_pending (t : Timer) : bool :=
  match timer_state t with pending => true | _ => false end.

(** No timer is waiting. *)
Definition idle (s : UseSearch) : Prop :=
  forall id t, timers s !! id = Some t -> is_pending t = false.

(** The only timer that can be waiting is the one [timeoutRef] names, and
    it waits for the current query, which is not blank; no blank query was
    ever searched. *)
Definition debounced (s : UseSearch) : Prop :=
  (forall id t, timers s !! id = Some t -> is_pending t = true ->
     timeoutRef s = Some id /\ timer_query t = query s /\
     ChatSend.blank (query s) = false) /\
  Forall (fun c => ChatSend.blank (call_query c) = false) (search_channels s).

End Search.

(** ** [useTopStreams]: loading the browse page

    Two revisions: [guarded] keeps [isLoadingRef] ("guard against
    concurrent loading"), [unguarded] does not. *)

Module TopStreams.

Inductive Revision := guarded | unguarded.

Record TopStream := { stream_id : string; title : string }.

(** An [invoke("get_top_streams", { limit: 30 })] and the [isRefresh] of
    the [loadTopStreams] call that made it. *)
Record Call := { isRefresh : bool; settled : bool }.

Record UseTopStreams := {
  topStreams : list TopStream;
  isLoading : bool;
  isLoadingRef : bool;
  get_top_streams : list Call;
}.

(** [isRefresh] is an optional argument: [undefined] is falsy. *)
Definition loadTopStreams (rv : Revision) (refresh : bool)
    (s : UseTopStreams) : UseTopStreams :=
  match rv, isLoadingRef s with
  | guarded, true => s
  | _, _ =>
      {| topStreams := topStreams s;
         isLoading := if refresh then isLoading s else true;
         isLoadingRef := match rv with
                         | guarded => true
                         | unguarded => isLoadingRef s
                         end;
         get_top_streams :=
           get_top_streams s ++ [{| isRefresh := refresh; settled := false |}] |}
  end.

(** [loadTopStreams] after its [await], [finally] block included. *)
Definition settle (rv : Revision) (id : nat)
    (r : Emotes.Settled (option (list TopStream))) (s : UseTopStreams)
    : UseTopStreams :=
  match get_top_streams s !! id with
  | Some c =>
      if settled c then s
      else
        {| topStreams := match r with
                         | Emotes.fulfilled (Some streams) => streams
                         | _ => topStreams s
                         end;
           isLoading := if isRefresh c then isLoading s else false;
           isLoadingRef := match rv with
                           | guarded => false
                           | unguarded => isLoadingRef s
                           end;
           get_top_streams :=
             alter (fun c => {| isRefresh := isRefresh c; settled := true |})
               id (get_top_streams s) |}
  | None => s
  end.

Definition mount : UseTopStreams :=
  {| topStreams := []; isLoading := false; isLoadingRef := false;
     get_top_streams := [] |}.

Inductive Event :=
| LoadTopStreams (refresh : bool)
| Settled (id : nat) (r : Emotes.Settled (option (list TopStream))).

Definition step (rv : Revision) (s : UseTopStreams) (e : Event)
    : UseTopStreams :=
  match e with
  | LoadTopStreams refresh => loadTopStreams rv refresh s
  | Settled id r => settle rv id r s
  end.

Definition run (rv : Revision) (s : UseTopStreams) (tr : list Event)
    : UseTopStreams :=
  fold_left (step rv) tr s.

(** The calls in flight. *)
Definition in_flight (s : UseTopStreams) : list Call :=
  List.filter (fun c => negb (settled c)) (get_top_streams s).

(** The calls in flight that were not started as a refresh. *)
Definition loading_calls (s : UseTopStreams) : list Call :=
  List.filter (fun c => negb (settled c) && negb (isRefresh c))
    (get_top_streams s).

End TopStreams.

(** ** [lib/utils]: what is kept across restarts *)

Module Persist.

(** [sessionStorage] and [localStorage] of the window. *)
Record Storage := {
  sessionStorage : gmap string string;
  localStorage : gmap string string;
}.

(** [a || b] on [string | null]. *)
Definition or_else (a b : option string) : option string :=
  if JS.truthy_opt a then a else b.

(** [getInitialChannel()], in the window of the application. *)
Definition getInitialChannel (st : Storage) : option string :=
  or_else
    (or_else (sessionStorage st !! "currentChannel"%string)
       (localStorage st !! "lastChannel"%string))
    None.

(** [persistChannel(channel)] *)
Definition persistChannel (channel : option string) (st : Storage) : Storage :=
  match channel with
  | Some c =>
      if JS.truthy c then
        {| sessionStorage := <["currentChannel"%string := c]> (sessionStorage st);
           localStorage := <["lastChannel"%string := c]> (localStorage st) |}
      else
        {| sessionStorage := delete "currentChannel"%string (sessionStorage st);
           localStorage := localStorage st |}
  | None =>
      {| sessionStorage := delete "currentChannel"%string (sessionStorage st);
         localStorage := localStorage st |}
  end.

Inductive ActiveTab := following | browse.

Definition tab_name (tab : ActiveTab) : string :=
  match tab with following => "following" | browse => "browse" end.

(** [getInitialActiveTab()] *)
Definition getInitialActiveTab (st : Storage) : ActiveTab :=
  match localStorage st !! "activeTab"%string with
  | Some saved =>
      if String.eqb saved "following" then following
      else if String.eqb saved "browse" then browse
      else browse
  | None => browse
  end.

(** [persistActiveTab(tab)] *)
Definition persistActiveTab (tab : ActiveTab) (st : Storage) : Storage :=
  {| sessionStorage := sessionStorage st;
     localStorage := <["activeTab"%string := tab_name tab]> (localStorage st) |}.

End Persist.

(** ** [VideoPlayer]: the quality menu

    The component that hands [TauriHlsLoader] to hls.js.  Of the player
    object only [currentLevel] is of interest here. *)

Module VideoPlayer.

(** A level of [hls.levels]; [level_label] stands for the text
    [level.name || `${level.height}p...`], whose formatting of numbers is
    not modelled. *)
Record Level := { level_label : string; level_height : Z }.

Record QualityLevel := { id : Z; label : string; height : Z }.

(** [hls.levels.map((level, index) => ({ id: index, label, height }))] *)
Definition to_qualities (levels : list Level) : list QualityLevel :=
  imap (fun index level =>
          {| id := Z.of_nat index; label := level_label level;
             height := level_height level |}) levels.

(** [levels.sort((a, b) => b.height - a.height)]: the sort of the language
    is stable, so the result is the one list that is ordered by falling
    height, holds the same elements and keeps elements of equal height in
    their order.  It is computed here by insertion. *)
Fixpoint insert (x : QualityLevel) (sorted : list QualityLevel)
    : list QualityLevel :=
  match sorted with
  | [] => [x]
  | y :: rest =>
      if height y <? height x then x :: y :: rest else y :: insert x rest
  end.

Definition sort_by_height (levels : list QualityLevel) : list QualityLevel :=
  fold_left (fun sorted x => insert x sorted) levels [].

Record Player := {
  hlsRef : option Z;              (* [hlsRef.current?.currentLevel] *)
  qualities : list QualityLevel;
  currentQuality : Z;
  showQualityMenu : bool;
}.

(** The [MANIFEST_PARSED] handler, as far as the menu goes. *)
Definition manifest_parsed (levels : list Level) (p : Player) : Player :=
  {| hlsRef := hlsRef p;
     qualities := sort_by_height (to_qualities levels);
     currentQuality := -1;
     showQualityMenu := showQualityMenu p |}.

(** [changeQuality(levelId)] *)
Definition changeQuality (levelId : Z) (p : Player) : Player :=
  match hlsRef p with
  | None => p
  | Some currentLevel =>
      {| hlsRef :=
           Some (if levelId =? -1 then -1
                 else
                   match List.find (fun q => id q =? levelId) (qualities p) with
                   | Some _ => levelId
                   | None => currentLevel
                   end);
         qualities := qualities p;
         currentQuality := levelId;
         showQualityMenu := false |}
  end.

(** The order of the menu: the higher level first. *)
Definition by_falling_height (x y : QualityLevel) : Prop :=
  height y <= height x.

(** The level the player is set to is automatic or one of [n] levels. *)
Definition valid_level (n : nat) (p : Player) : Prop :=
  match hlsRef p with
  | Some currentLevel => currentLevel = -1 \/ 0 <= currentLevel < Z.of_nat n
  | None => True
  end.

End VideoPlayer.

(** * Properties

  ** Strings *)

Section StringFacts.
Import JS.

Lemma append_String a s t :
  String.append (String a s) t = String a (String.append s t).
Proof. reflexivity. Qed.

Lemma append_Empty t : String.append EmptyString t = t.
Proof. reflexivity. Qed.

Lemma startsWith_spec s needle :
  startsWith s needle = true <-> exists post, s = String.append needle post.
Proof.
  revert s. induction needle as [|a needle IH]; intros s; simpl.
  - split; [intros _; by exists s | done].
  - destruct s as [|b s]; simpl.
    + split; [done | intros [post H]; discriminate].
    + destruct (Ascii.eqb_spec a b) as [->|Hne].
      * rewrite IH. split; intros [post H]; exists post;
          rewrite ?append_String in *; congruence.
      * split; [done | intros [post H]; rewrite append_String in H; congruence].
Qed.

Lemma includes_spec s needle :
  includes s needle = true <->
  exists pre post, s = String.append pre (String.append needle post).
Proof.
  induction s as [|b s IH]; simpl.
  - rewrite orb_false_r, startsWith_spec. split.
    + intros [post H]. by exists EmptyString, post.
    + intros [[|c pre] [post H]]; [by exists post | discriminate].
  - rewrite orb_true_iff, startsWith_spec, IH. split.
    + intros [[post H] | (pre & post & H)].
      * by exists EmptyString, post.
      * exists (String b pre), post. rewrite append_String. by rewrite H.
    + intros [[|c pre] [post H]].
      * left. by exists post.
      * right. exists pre, post. rewrite append_String in H. congruence.
Qed.

Lemma endsWith_spec s needle :
  endsWith s needle = true <-> exists pre, s = String.append pre needle.
Proof.
  induction s as [|b s IH]; cbn [endsWith].
  - rewrite orb_false_r, String.eqb_eq. split.
    + intros <-. by exists EmptyString.
    + intros [[|c pre] H]; [done | discriminate].
  - rewrite orb_true_iff, String.eqb_eq, IH. split.
    + intros [<- | [pre H]]; [by exists EmptyString |].
      exists (String b pre). rewrite append_String. by rewrite H.
    + intros [[|c pre] H]; [by left |].
      right. exists pre. rewrite append_String in H. congruence.
Qed.
End StringFacts.

(** ** The loader: cancellation *)

Section LoaderFacts.
Import Loader.

Implicit Types (l : TauriHlsLoader) (e : Event) (tr : list Event).

Lemma run_app l tr1 tr2 : run l (tr1 ++ tr2) = run (run l tr1) tr2.
Proof. apply fold_left_app. Qed.

(** *** Cancellation is permanent *)

Lemma cancelled_abort l : cancelled (abort l) = true.
Proof.
  unfold cancelled, abort; simpl.
  destruct (callbacks l) as [cb|], (context l); simpl;
    try destruct (hasOnAbort cb); simpl; apply orb_true_r.
Qed.

Lemma cancelled_destroy l : cancelled (destroy l) = true.
Proof. reflexivity. Qed.

Lemma invoke_flags c l :
  destroyed (invoke c l) = destroyed l /\ stats (invoke c l) = stats l
  /\ calls (invoke c l) = calls l.
Proof. unfold invoke. by destruct (context l). Qed.

Lemma cancelled_load now ctx cbs l :
  cancelled l = true -> cancelled (load now ctx cbs l) = true.
Proof.
  unfold cancelled, load, loadPlaylist, loadSegment. intros H.
  destruct (isPlaylist ctx);
    match goal with |- context [invoke ?c ?x] =>
      destruct (invoke_flags c x) as (-> & -> & _) end; exact H.
Qed.

Lemma calls_load now ctx cbs l : calls (load now ctx cbs l) = calls l.
Proof.
  unfold load, loadPlaylist, loadSegment.
  destruct (isPlaylist ctx);
    match goal with |- context [invoke ?c ?x] =>
      destruct (invoke_flags c x) as (_ & _ & ->) end; reflexivity.
Qed.

(** A continuation that finds the loader cancelled only marks its
    promise as settled. *)
Lemma settle_cancelled now id r l :
  cancelled l = true ->
  cancelled (settle now id r l) = true /\
  calls (settle now id r l) = calls l.
Proof.
  intros H. unfold settle.
  destruct (bridge l !! id) as [c|]; [|done].
  destruct (settled c); [done|].
  set (l' := set_running false (mark_settled id l)).
  assert (Hm : cancelled l' = true) by exact H.
  unfold loadPlaylist_fulfilled, loadSegment_fulfilled, on_rejected.
  fold (cancelled l'). rewrite Hm.
  destruct (command c), r; done.
Qed.

(** So does the [catch] block entered by an exception of the callback. *)
Lemma thrown_cancelled err l :
  cancelled l = true ->
  cancelled (on_thrown err l) = true /\
  calls (on_thrown err l) = calls l.
Proof.
  intros H. unfold on_thrown. destruct (running l); [|done].
  unfold on_rejected.
  fold (cancelled (set_running false l)).
  change (cancelled (set_running false l)) with (cancelled l).
  by rewrite H.
Qed.

Lemma results_abort l : results (abort l) = results l.
Proof.
  unfold results, abort; simpl.
  destruct (callbacks l) as [cb|], (context l); simpl;
    try destruct (hasOnAbort cb); simpl; try done.
  rewrite List.filter_app. simpl. apply app_nil_r.
Qed.

Lemma step_cancelled l e :
  cancelled l = true ->
  cancelled (step l e) = true /\ results (step l e) = results l.
Proof.
  intros H. destruct e as [now ctx cbs| | |now id r|err]; simpl.
  - split; [by apply cancelled_load|]. unfold results. by rewrite calls_load.
  - split; [apply cancelled_abort | apply results_abort].
  - done.
  - destruct (settle_cancelled now id r l H) as [H1 H2].
    split; [done|]. unfold results. by rewrite H2.
  - destruct (thrown_cancelled err l H) as [H1 H2].
    split; [done|]. unfold results. by rewrite H2.
Qed.

Lemma run_cancelled tr l :
  cancelled l = true ->
  cancelled (run l tr) = true /\ results (run l tr) = results l.
Proof.
  revert l. induction tr as [|e tr IH]; intros l H; [done|].
  destruct (step_cancelled l e H) as [H1 H2].
  destruct (IH _ H1) as [H3 H4]. simpl. split; [done | congruence].
Qed.

Lemma aborted_step l e :
  aborted (stats l) = true -> aborted (stats (step l e)) = true.
Proof.
  intros H. destruct e as [now ctx cbs| | |now id r|err]; simpl.
  - unfold load, loadPlaylist, loadSegment.
    destruct (isPlaylist ctx);
      match goal with |- context [invoke ?c ?x] =>
        destruct (invoke_flags c x) as (_ & -> & _) end; exact H.
  - unfold abort; simpl.
    destruct (callbacks l) as [cb|], (context l); simpl;
      try destruct (hasOnAbort cb); done.
  - done.
  - unfold settle. destruct (bridge l !! id) as [c|]; [|done].
    destruct (settled c); [done|].
    unfold loadPlaylist_fulfilled, loadSegment_fulfilled, on_rejected.
    simpl. rewrite H, orb_true_r. destruct (command c), r; done.
  - unfold on_thrown, on_rejected. simpl. rewrite H, orb_true_r.
    by destruct (running l).
Qed.

Lemma destroyed_step l e :
  destroyed l = true -> destroyed (step l e) = true.
Proof.
  intros H. destruct e as [now ctx cbs| | |now id r|err]; simpl.
  - unfold load, loadPlaylist, loadSegment.
    destruct (isPlaylist ctx);
      match goal with |- context [invoke ?c ?x] =>
        destruct (invoke_flags c x) as (-> & _ & _) end; exact H.
  - unfold abort; simpl.
    destruct (callbacks l) as [cb|], (context l); simpl;
      try destruct (hasOnAbort cb); done.
  - done.
  - unfold settle. destruct (bridge l !! id) as [c|]; [|done].
    destruct (settled c); [done|].
    unfold loadPlaylist_fulfilled, loadSegment_fulfilled, on_rejected.
    simpl. rewrite H. destruct (command c), r; done.
  - unfold on_thrown, on_rejected. simpl. rewrite H.
    by destruct (running l).
Qed.

Lemma aborted_run tr l :
  aborted (stats l) = true -> aborted (stats (run l tr)) = true.
Proof.
  revert l. induction tr as [|e tr IH]; intros l H; [done|].
  simpl. by apply IH, aborted_step.
Qed.

Lemma destroyed_run tr l :
  destroyed l = true -> destroyed (run l tr) = true.
Proof.
  revert l. induction tr as [|e tr IH]; intros l H; [done|].
  simpl. by apply IH, destroyed_step.
Qed.

Lemma aborted_abort l : aborted (stats (abort l)) = true.
Proof.
  unfold abort; simpl.
  destruct (callbacks l) as [cb|], (context l); simpl;
    try destruct (hasOnAbort cb); done.
Qed.

End LoaderFacts.

(** ** The loader: what a running loader satisfies *)

Section LoaderStats.
Import Loader.

Implicit Types (l : TauriHlsLoader) (e : Event) (tr : list Event).

Lemma seasoned_constructor : seasoned 0 constructor.
Proof. split; [simpl; lia | done]. Qed.

Lemma seasoned_later t t' l : t <= t' -> seasoned t l -> seasoned t' l.
Proof. intros ? [? ?]. split; [lia | done]. Qed.

Lemma seasoned_load t now ctx cbs l :
  t <= now -> seasoned t l -> seasoned now (load now ctx cbs l).
Proof.
  intros _ _. unfold load, loadPlaylist, loadSegment, invoke.
  destruct (isPlaylist ctx); simpl; (split; [simpl; lia | done]).
Qed.

Lemma abort_fields l :
  context (abort l) = context l /\ callbacks (abort l) = callbacks l /\
  destroyed (abort l) = destroyed l /\ bridge (abort l) = bridge l /\
  loading (stats (abort l)) = loading (stats l).
Proof.
  unfold abort; simpl.
  destruct (callbacks l) as [cb|] eqn:E1, (context l) eqn:E2; simpl;
    try destruct (hasOnAbort cb); simpl; by rewrite ?E1, ?E2.
Qed.

Lemma seasoned_abort t l : seasoned t l -> seasoned t (abort l).
Proof.
  destruct (abort_fields l) as (E1 & E2 & E3 & E4 & E5).
  unfold seasoned. by rewrite E1, E2, E3, E4, E5.
Qed.

Lemma seasoned_destroy t l : seasoned t l -> seasoned t (destroy l).
Proof.
  intros [H1 H2]. split; [done|]. simpl. intros Hb.
  split; [by apply H2 | done].
Qed.

Lemma alter_nil_inv {A} (f : A -> A) i (xs : list A) :
  alter f i xs ≠ [] -> xs ≠ [].
Proof. by destruct xs. Qed.

Ltac frame_cases :=
  repeat match goal with
    | |- context [if ?b then _ else _] => destruct b eqn:?
    | |- context [match ?o with Some _ => _ | None => _ end] =>
        destruct o eqn:?
    end;
  repeat split; simpl; congruence.

Lemma frame_playlist now d l : same_frame l (loadPlaylist_fulfilled now d l).
Proof. unfold same_frame, loadPlaylist_fulfilled, succeed. frame_cases. Qed.

Lemma frame_segment now d l : same_frame l (loadSegment_fulfilled now d l).
Proof. unfold same_frame, loadSegment_fulfilled, succeed. frame_cases. Qed.

Lemma frame_rejected (err : string) l : same_frame l (on_rejected err l).
Proof. unfold same_frame, on_rejected. frame_cases. Qed.

Lemma seasoned_frame t l l' : same_frame l l' -> seasoned t l -> seasoned t l'.
Proof.
  intros (E1 & E2 & E3 & E4 & E5). unfold seasoned.
  by rewrite E1, E2, E3, E4, E5.
Qed.

Lemma seasoned_settle t now id r l :
  t <= now -> seasoned t l -> seasoned now (settle now id r l).
Proof.
  intros Ht H. unfold settle.
  pose proof (seasoned_later t now l Ht H) as Hl.
  destruct (bridge l !! id) as [c|]; [|done].
  destruct (settled c); [done|].
  assert (Hm : seasoned now (set_running false (mark_settled id l))).
  { destruct Hl as [H1 H2]. split; [done|]. simpl.
    intros Hb. apply H2. by apply alter_nil_inv in Hb. }
  destruct (command c), r; try exact Hl;
    eauto using seasoned_frame, frame_playlist, frame_segment,
      frame_rejected.
Qed.

Lemma seasoned_thrown t (err : string) l :
  seasoned t l -> seasoned t (on_thrown err l).
Proof.
  intros H. unfold on_thrown. destruct (running l); [|done].
  by apply (seasoned_frame t (set_running false l)), H; apply frame_rejected.
Qed.

Lemma seasoned_run tr t l :
  seasoned t l -> chronological t tr -> seasoned (clock t tr) (run l tr).
Proof.
  revert t l. induction tr as [|e tr IH]; intros t l H Hc; [done|].
  destruct e as [now ctx cbs| | |now id r|err]; simpl in *.
  - destruct Hc as [Hle Hc]. by apply IH; [apply (seasoned_load t)|].
  - by apply IH; [apply seasoned_abort|].
  - by apply IH; [apply seasoned_destroy|].
  - destruct Hc as [Hle Hc]. by apply IH; [apply (seasoned_settle t)|].
  - by apply IH; [apply seasoned_thrown|].
Qed.

Lemma playlist_fulfilled_calls t now id u data l :
  seasoned t l -> t <= now ->
  bridge l !! id = Some {| command := fetch_m3u8; arg_url := u; settled := false |} ->
  cancelled l = false ->
  exists cb ctx,
    callbacks l = Some cb /\ context l = Some ctx /\
    settle now id (text data) l =
      set_running true
        (call (onSuccess cb {| response_url := url ctx; data := Text data |}
                 (stamp now (String.length data) (stats l)) ctx)
           (set_stats (stamp now (String.length data) (stats l))
              (set_running false (mark_settled id l)))).
Proof.
  intros [H1 H2] Ht Hb Hc.
  assert (Hne : bridge l ≠ []) by (intros E; by rewrite E in Hb).
  destruct (H2 Hne) as [Hctx Hcb].
  apply orb_false_elim in Hc as [Hd Ha].
  specialize (Hcb Hd).
  destruct (callbacks l) as [cb|] eqn:Ecb; [|done].
  destruct (context l) as [ctx|] eqn:Ectx; [|done].
  exists cb, ctx. split; [done|]. split; [done|].
  unfold settle. rewrite Hb. simpl.
  unfold loadPlaylist_fulfilled. simpl. rewrite Hd, Ha. simpl.
  unfold succeed. simpl. by rewrite Ectx, Ecb.
Qed.

End LoaderStats.

(** ** The loader: the stated properties *)

Section LoaderClaims.
Import Loader.

Implicit Types (l : TauriHlsLoader) (e : Event) (tr : list Event).

Lemma load_bridge now ctx cbs l :
  bridge (load now ctx cbs l) =
    bridge l ++ [{| command := if JS.includes (url ctx) ".m3u8"
                               then fetch_m3u8 else fetch_bytes;
                    arg_url := url ctx; settled := false |}].
Proof.
  unfold load, isPlaylist, loadPlaylist, loadSegment, invoke.
  by destruct (JS.includes (url ctx) ".m3u8").
Qed.

(** C1.  A load is issued, anything happens, then [abort()] or [destroy()]
    is called while the bridge call of that load is still in flight, then
    anything happens again.  From the cancellation on no [onSuccess] and no
    [onError] is made, and whenever the bridge call of that load settles,
    with whatever result, its continuation calls nothing. *)
Theorem cancelled_load_never_calls_back
    l now ctx cbs mid e post now' r :
  e = Abort \/ e = Destroy ->
  let id := length (bridge l) in
  let before := run (load now ctx cbs l) mid in
  in_flight id before = true ->
  let after := run (step before e) post in
  results after = results before /\
  calls (settle now' id r after) = calls after.
Proof.
  intros He id before _ after.
  assert (Hc : cancelled (step before e) = true).
  { destruct He as [-> | ->]; [apply cancelled_abort | done]. }
  destruct (run_cancelled post _ Hc) as [Hc' Hr].
  split.
  - subst after. rewrite Hr.
    destruct He as [-> | ->]; [apply results_abort | done].
  - by apply settle_cancelled.
Qed.

(** The theorem above at a playlist load that is aborted, followed by a
    second load, and settled when the clock reads 3. *)
Lemma cancelled_load_never_calls_back_witness :
  let cb := {| handle := 0; hasOnAbort := true |} in
  let ctx := {| url := "https://cdn/live.m3u8" |} in
  let before := run (load 1 ctx cb constructor) [] in
  let after := run (step before Abort) [Load 2 ctx cb] in
  results after = results before /\
  calls (settle 3 0 (text "#EXTM3U") after) = calls after.
Proof.
  intros cb ctx.
  apply (cancelled_load_never_calls_back constructor 1 ctx cb [] Abort
           [Load 2 ctx cb] 3 (text "#EXTM3U")).
  - by left.
  - reflexivity.
Defined.

(** C10.  [load()] leaves [stats.aborted] and [destroyed] as they are (the
    stats object is the one the constructor made).  Once [abort()] or
    [destroy()] has run, the flag stays set and the list of [onSuccess] and
    [onError] calls never grows again, whatever loads and bridge results
    follow on that instance. *)
Theorem cancellation_is_permanent l tr :
  (forall now ctx cbs,
     aborted (stats (load now ctx cbs l)) = aborted (stats l) /\
     destroyed (load now ctx cbs l) = destroyed l) /\
  (aborted (stats (run (abort l) tr)) = true /\
   results (run (abort l) tr) = results l) /\
  (destroyed (run (destroy l) tr) = true /\
   results (run (destroy l) tr) = results l).
Proof.
  split; [|split].
  - intros now ctx cbs. unfold load, loadPlaylist, loadSegment.
    destruct (isPlaylist ctx);
      match goal with |- context [invoke ?c ?x] =>
        destruct (invoke_flags c x) as (-> & -> & _) end; done.
  - split; [apply aborted_run, aborted_abort|].
    destruct (run_cancelled tr (abort l) (cancelled_abort l)) as [_ ->].
    apply results_abort.
  - split; [by apply destroyed_run|].
    by destruct (run_cancelled tr (destroy l) (cancelled_destroy l)) as [_ ->].
Qed.

(** C5 as stated fails: a playlist address with a query string does not
    end with [.m3u8], and the loader still sends it to [fetch_m3u8]. *)
Lemma suffix_test_refuted :
  let ctx := {| url := "https://cdn/live.m3u8?sig=1" |} in
  let cb := {| handle := 0; hasOnAbort := false |} in
  JS.endsWith (url ctx) ".m3u8" = false /\
  bridge (load 0 ctx cb constructor) =
    [{| command := fetch_m3u8; arg_url := url ctx; settled := false |}].
Proof. split; reflexivity. Qed.

(** C5, amended.  In every state of the loader, [load] issues exactly one
    bridge call, for the address of the request: [fetch_m3u8] when the
    address contains [.m3u8] somewhere, [fetch_bytes] otherwise.  The choice
    depends on the address alone. *)
Theorem load_routes_by_substring l now ctx cbs :
  bridge (load now ctx cbs l) =
    bridge l ++ [{| command := if JS.includes (url ctx) ".m3u8"
                               then fetch_m3u8 else fetch_bytes;
                    arg_url := url ctx; settled := false |}] /\
  (JS.includes (url ctx) ".m3u8" = true <->
   exists pre post,
     url ctx = String.append pre (String.append ".m3u8" post)).
Proof. split; [apply load_bridge | apply includes_spec]. Qed.

(** C9.  On a loader that was neither aborted nor destroyed, when a
    pending [fetch_m3u8] call returns [data] at a clock reading not before
    the earlier ones, the [try] block makes exactly one call: [onSuccess]
    with the response [{url, data}] of the current context and with the
    stats as stamped, where [loading.end] is the reading and is not before
    [loading.start], [loaded] and [total] are the length of [data], and
    [loading.first] is the reading if it was 0 before and is kept
    otherwise. *)
Theorem playlist_success_stats tr now id u data :
  let l := run constructor tr in
  chronological 0 tr ->
  clock 0 tr <= now ->
  bridge l !! id =
    Some {| command := fetch_m3u8; arg_url := u; settled := false |} ->
  cancelled l = false ->
  exists cb ctx,
    callbacks l = Some cb /\ context l = Some ctx /\
    let l' := settle now id (text data) l in
    let st := stats l' in
    calls l' =
      calls l ++ [onSuccess cb {| response_url := url ctx;
                                  data := Text data |} st ctx] /\
    start (loading st) <= end_ (loading st) /\
    loaded st = String.length data /\
    total st = String.length data /\
    first (loading st) =
      (if first (loading (stats l)) =? 0 then now
       else first (loading (stats l))) /\
    end_ (loading st) = now.
Proof.
  intros l Hchr Hnow Hb Hc.
  pose proof (seasoned_run tr 0 constructor seasoned_constructor Hchr) as Hs.
  fold l in Hs.
  destruct (playlist_fulfilled_calls _ now id u data l Hs Hnow Hb Hc)
    as (cb & ctx & Hcb & Hctx & ->).
  exists cb, ctx. split; [done|]. split; [done|].
  destruct Hs as [Hstart _]. simpl. repeat split; lia.
Qed.

(** The theorem above at a playlist load issued at 5 and answered at 8. *)
Lemma playlist_success_stats_witness :
  let cb := {| handle := 7; hasOnAbort := false |} in
  let ctx := {| url := "https://cdn/live.m3u8" |} in
  let l := run constructor [Load 5 ctx cb] in
  exists cb' ctx',
    callbacks l = Some cb' /\ context l = Some ctx' /\
    let l' := settle 8 0 (text "#EXTM3U") l in
    let st := stats l' in
    calls l' =
      calls l ++ [onSuccess cb' {| response_url := url ctx';
                                   data := Text "#EXTM3U" |} st ctx'] /\
    start (loading st) <= end_ (loading st) /\
    loaded st = String.length "#EXTM3U" /\
    total st = String.length "#EXTM3U" /\
    first (loading st) =
      (if first (loading (stats l)) =? 0 then 8
       else first (loading (stats l))) /\
    end_ (loading st) = 8.
Proof.
  intros cb ctx.
  apply (playlist_success_stats [Load 5 ctx cb] 8 0 (url ctx) "#EXTM3U").
  - simpl. lia.
  - simpl. lia.
  - reflexivity.
  - reflexivity.
Defined.

End LoaderClaims.

(** ** The chat hook: arrays and the history *)

Section ArrayFacts.
Context {A : Type}.
Implicit Types (arr : list A).

Lemma slice_last (n : nat) arr :
  (0 < n)%nat -> JS.slice arr (- Z.of_nat n) = drop (length arr - n) arr.
Proof.
  intros Hn. unfold JS.slice.
  destruct (Z.ltb_spec (- Z.of_nat n) 0) as [_|]; [|lia].
  f_equal. lia.
Qed.

Lemma slice_last_length (n : nat) arr :
  (0 < n)%nat -> (length (JS.slice arr (- Z.of_nat n)) <= n)%nat.
Proof. intros Hn. rewrite slice_last, length_drop by done. lia. Qed.

Lemma at_last_snoc arr x : JS.at_last (arr ++ [x]) = Some x.
Proof.
  unfold JS.at_last. rewrite length_app. simpl.
  replace (length arr + 1)%nat with (S (length arr)) by lia.
  by rewrite lookup_app_r, Nat.sub_diag.
Qed.
End ArrayFacts.

Section ChatFacts.
Import Chat.

Implicit Types (s : UseChat) (e : Event) (tr : list Event) (rv : Revision).

Lemma strict_eq_true a b : strict_eq a b = true <-> a = b.
Proof.
  destruct a as [x|], b as [y|]; simpl; try (split; congruence).
  rewrite String.eqb_eq. split; congruence.
Qed.

Lemma strict_eq_false a b : strict_eq a b = false <-> a ≠ b.
Proof.
  rewrite <- strict_eq_true. destruct (strict_eq a b); split; congruence.
Qed.

Lemma append_spec now m prev :
  append now m prev =
    drop (length prev + 1 - 200) (prev ++ [stamped now m]).
Proof.
  unfold append. change (-200) with (- Z.of_nat 200).
  rewrite slice_last by lia. by rewrite length_app.
Qed.

Lemma append_length now m prev : (length (append now m prev) <= 200)%nat.
Proof.
  unfold append. change (-200) with (- Z.of_nat 200).
  apply slice_last_length. lia.
Qed.

Lemma append_Forall (P : ChatMessage -> Prop) now m prev :
  Forall P prev -> P (stamped now m) -> Forall P (append now m prev).
Proof.
  intros H1 H2. rewrite append_spec. apply Forall_drop.
  apply Forall_app. split; [done | by constructor].
Qed.

Lemma clear_seenIds_fields rv s :
  messages (clear_seenIds rv s) = messages s /\
  currentChannelRef (clear_seenIds rv s) = currentChannelRef s /\
  hook_channel (clear_seenIds rv s) = hook_channel s /\
  connect_to_chat (clear_seenIds rv s) = connect_to_chat s /\
  timers (clear_seenIds rv s) = timers s.
Proof. by destruct rv. Qed.

Lemma consistent_channel_effect rv s : consistent (channel_effect rv s).
Proof.
  unfold consistent, channel_effect.
  destruct (hook_channel s) as [c|] eqn:Hc; [destruct (JS.truthy c) eqn:Ht|];
    simpl;
    try (destruct (clear_seenIds_fields rv
           (set_messages [] (set_currentChannel None s)))
           as (-> & -> & -> & _));
    try (destruct (clear_seenIds_fields rv
           (set_messages [] (set_currentChannel (Some c) s)))
           as (-> & -> & -> & _));
    simpl; rewrite ?Hc; simpl; rewrite ?Ht;
    (split; [constructor | split; [done | lia]]).
Qed.

Lemma consistent_mount rv c : consistent (mount rv c).
Proof. apply consistent_channel_effect. Qed.

Lemma consistent_on_chat_message rv now m s :
  consistent s -> consistent (on_chat_message rv now m s).
Proof.
  intros (H1 & H2 & H3). unfold on_chat_message.
  destruct (strict_eq (Some (channel m)) (currentChannelRef s)) eqn:Hch;
    [|done].
  apply strict_eq_true in Hch. simpl.
  destruct rv.
  - destruct (seen_before (seenIdsRef s) m); [done|].
    split; [|split; [done|]]; simpl.
    + by apply append_Forall.
    + apply append_length.
  - unfold update_by_content.
    destruct (JS.at_last (messages s)) as [lastMsg|];
      [destruct (_ && _)|]; try done;
      (split; [|split; [done|]]; simpl;
       [by apply append_Forall | apply append_length]).
Qed.

Lemma consistent_step rv s e : consistent s -> consistent (step rv s e).
Proof.
  intros H. destruct e as [c|now m|c|i]; simpl.
  - unfold render. destruct (strict_eq c (hook_channel s)); [done|].
    apply consistent_channel_effect.
  - by apply consistent_on_chat_message.
  - unfold on_chat_disconnected. by destruct (strict_eq _ _).
  - unfold on_timer. destruct (timers s !! i) as [t|]; [|done].
    destruct (elapsed t); [done|].
    destruct (strict_eq _ _); [|done].
    by destruct (closure_channel t).
Qed.

Lemma consistent_run rv tr s : consistent s -> consistent (run rv s tr).
Proof.
  revert s. induction tr as [|e tr IH]; intros s H; [done|].
  simpl. by apply IH, consistent_step.
Qed.

(** The history holds only messages of the selected channel. *)
Lemma consistent_selected s :
  consistent s ->
  Forall (fun m => Some (channel m) = hook_channel s) (messages s).
Proof.
  intros (H1 & H2 & _). eapply List.Forall_impl; [|exact H1].
  intros m Hm. simpl in Hm. rewrite H2 in Hm.
  by destruct (JS.truthy_opt (hook_channel s)).
Qed.

Lemma stale_message_dropped rv now m s :
  Some (channel m) ≠ currentChannelRef s -> on_chat_message rv now m s = s.
Proof.
  intros H. apply strict_eq_false in H. unfold on_chat_message.
  by rewrite H.
Qed.

End ChatFacts.

(** ** The chat hook: channel switches, the bound, reconnection *)

Section ChatClaims.
Import Chat.

Implicit Types (s : UseChat) (e : Event) (tr : list Event) (rv : Revision).

(** C2.  In both revisions: after the hook is rendered with channel [B]
    where it had channel [A], and for as long as [B] stays the argument,
    the history holds no message tagged [A], a message tagged [A] that
    arrives leaves the state as it is, and a message changes the history
    only if its channel is the current one when it arrives. *)
Theorem no_message_of_previous_channel rv c0 tr A B post :
  let s := run rv (mount rv c0) tr in
  hook_channel s = Some A ->
  A ≠ B ->
  let s' := run rv (render rv (Some B) s) post in
  hook_channel s' = Some B ->
  Forall (fun m => channel m ≠ A) (messages s') /\
  (forall now m, channel m = A -> on_chat_message rv now m s' = s') /\
  (forall now m, messages (on_chat_message rv now m s') ≠ messages s' ->
                 Some (channel m) = currentChannelRef s').
Proof.
  intros s _ HAB s' HB.
  assert (Hs' : consistent s').
  { apply consistent_run, (consistent_step rv s (Render (Some B))),
      consistent_run, consistent_mount. }
  split; [|split].
  - eapply List.Forall_impl; [|exact (consistent_selected s' Hs')].
    intros m Hm E. simpl in Hm. rewrite HB, E in Hm. congruence.
  - intros now m <-. apply stale_message_dropped.
    destruct Hs' as (_ & -> & _). rewrite HB.
    destruct (JS.truthy_opt (Some B)); congruence.
  - intros now m Hd.
    destruct (decide (Some (channel m) = currentChannelRef s')) as [|Hne];
      [done|].
    by rewrite stale_message_dropped in Hd.
Qed.

(** The theorem above at a switch from "alpha" to "beta", with a message
    of "alpha" arriving before and after the switch. *)
Lemma no_message_of_previous_channel_witness :
  let s := run by_id (mount by_id (Some "alpha"%string))
             [ChatMessageEvent 1 (ann_says_hi "1")] in
  let s' := run by_id (render by_id (Some "beta"%string) s)
              [ChatMessageEvent 2 (ann_says_hi "1")] in
  Forall (fun m => channel m ≠ "alpha"%string) (messages s') /\
  (forall now m, channel m = "alpha"%string ->
                 on_chat_message by_id now m s' = s') /\
  (forall now m, messages (on_chat_message by_id now m s') ≠ messages s' ->
                 Some (channel m) = currentChannelRef s').
Proof.
  intros s s'.
  apply (no_message_of_previous_channel by_id (Some "alpha"%string)
           [ChatMessageEvent 1 (ann_says_hi "1")] "alpha"%string "beta"%string
           [ChatMessageEvent 2 (ann_says_hi "1")]).
  - reflexivity.
  - discriminate.
  - reflexivity.
Defined.

(** C8.  In both revisions, after any sequence of renders, messages,
    disconnections and timers, the history holds at most 200 messages.
    The [chat-message] listener leaves the history as it is or makes it
    the last 200 of the history with the new message, stamped, at its end;
    it does the latter for every message of the current channel that its
    revision does not take for a repetition.  So a delivery to a history of
    fewer than 200 messages appends, and a delivery to a full history
    drops the oldest message, keeps the others in their order and
    appends. *)
Theorem history_is_bounded rv c0 tr :
  let s := run rv (mount rv c0) tr in
  (length (messages s) <= 200)%nat /\
  forall now m,
    let s' := on_chat_message rv now m s in
    let kept :=
      drop (length (messages s) + 1 - 200) (messages s ++ [stamped now m]) in
    (messages s' = messages s \/ messages s' = kept) /\
    (strict_eq (Some (channel m)) (currentChannelRef s) = true ->
     match rv with
     | by_id => seen_before (seenIdsRef s) m = false
     | by_content =>
         forall lastMsg,
           JS.at_last (messages s) = Some lastMsg ->
           same_content lastMsg m && (now - timestamp lastMsg <? 100) = false
     end ->
     messages s' = kept) /\
    ((length (messages s) < 200)%nat ->
     kept = messages s ++ [stamped now m]) /\
    (length (messages s) = 200%nat ->
     kept = drop 1 (messages s) ++ [stamped now m]).
Proof.
  intros s. split.
  { assert (Hs : consistent s) by apply consistent_run, consistent_mount.
    by destruct Hs as (_ & _ & ?). }
  intros now m s' kept.
  assert (Hkept : append now m (messages s) = kept) by apply append_spec.
  split; [|split; [|split]].
  - subst s'. unfold on_chat_message.
    destruct (negb _); [by left|]. destruct rv.
    + destruct (seen_before _ _); [by left | by right].
    + simpl. unfold update_by_content.
      destruct (JS.at_last (messages s)) as [lastMsg|]; [|by right].
      destruct (_ && _); [by left | by right].
  - intros Hc Hnew. subst s'. unfold on_chat_message. rewrite Hc. simpl.
    destruct rv.
    + by rewrite Hnew.
    + simpl. unfold update_by_content.
      destruct (JS.at_last (messages s)) as [lastMsg|] eqn:Hl; [|done].
      specialize (Hnew lastMsg eq_refl). unfold same_content in Hnew.
      by rewrite Hnew.
  - intros Hlt. subst kept.
    replace (length (messages s) + 1 - 200)%nat with 0%nat by lia. done.
  - intros Hfull. subst kept. rewrite Hfull. simpl.
    rewrite drop_app_le by lia. done.
Qed.

(** The theorem above at a full history: the 201st message of a channel
    takes the place of the first. *)
Lemma history_is_bounded_witness :
  let tr := ChatTrace.every_second 200 in
  let m := ChatTrace.anonymous in
  let s := run by_id (mount by_id (Some "alpha"%string)) tr in
  let s' := on_chat_message by_id 201000 m s in
  length (messages s) = 200%nat /\
  messages s' = drop 1 (messages s) ++ [stamped 201000 m].
Proof.
  intros tr m s s'.
  assert (Hfull : length (messages s) = 200%nat) by (vm_compute; reflexivity).
  split; [exact Hfull|].
  destruct (history_is_bounded by_id (Some "alpha"%string) tr) as [_ H].
  destruct (H 201000 m) as (_ & Hnew & _ & Hdrop).
  etrans; [apply Hnew | exact (Hdrop Hfull)].
  - vm_compute. reflexivity.
  - vm_compute. reflexivity.
Defined.

(** C4 fails on the code.  "alpha" is selected and its chat disconnects;
    during the two seconds the user selects "beta".  When the timer
    elapses the listener compares the disconnected channel with the
    [channel] of its own closure, which is still "alpha", and connects to
    "alpha" although "beta" is selected. *)
Theorem reconnect_after_switch rv :
  let s := run rv (mount rv (Some "alpha"%string))
             [ChatDisconnected "alpha"; Render (Some "beta"%string)] in
  hook_channel s = Some "beta"%string /\
  currentChannelRef s = Some "beta"%string /\
  connect_to_chat s = ["alpha"; "beta"]%string /\
  connect_to_chat (step rv s (TimerElapsed 0)) =
    ["alpha"; "beta"; "alpha"]%string.
Proof. by destruct rv. Qed.

(** The same when the user clears the selection during the delay. *)
Lemma reconnect_after_clear rv :
  let s := run rv (mount rv (Some "alpha"%string))
             [ChatDisconnected "alpha"; Render None] in
  hook_channel s = None /\
  connect_to_chat (step rv s (TimerElapsed 0)) = ["alpha"; "alpha"]%string.
Proof. by destruct rv. Qed.

End ChatClaims.

(** ** The chat hook: the set of seen ids *)

Section SetFacts.
Import JS.

Lemma Set_has_true (s : JSSet) x : Set_has s x = true <-> In x s.
Proof.
  unfold Set_has. rewrite existsb_exists. split.
  - intros (y & Hy & E). apply String.eqb_eq in E. by subst.
  - intros H. exists x. split; [done | apply String.eqb_refl].
Qed.

Lemma Set_has_false (s : JSSet) x : Set_has s x = false <-> ~ In x s.
Proof.
  rewrite <- Set_has_true. destruct (Set_has s x); split; congruence.
Qed.

Lemma Set_delete_absent (s : JSSet) x : ~ In x s -> Set_delete s x = s.
Proof.
  unfold Set_delete. induction s as [|y s IH]; intros H; [done|].
  rewrite filter_cons_True by (intros ->; apply H; by left).
  f_equal. apply IH. intros ?. apply H. by right.
Qed.

Lemma Set_delete_first (s : JSSet) x :
  ~ In x s -> Set_delete (x :: s) x = s.
Proof.
  intros H. unfold Set_delete. rewrite filter_cons_False by (by intros ?).
  by apply Set_delete_absent.
Qed.
End SetFacts.

Section SeenIds.
Import Chat.

Implicit Types (s : UseChat) (e : Event) (tr : list Event).

Lemma window_nil : window [] [].
Proof. repeat split; constructor. Qed.

Lemma remember_window seen acc m i :
  window seen acc ->
  id m = Some i -> JS.truthy i = true -> JS.Set_has seen i = false ->
  window (remember seen m) (acc ++ [i]).
Proof.
  intros (Hw & Hnd & Htr) Hid Hti Hh. apply Set_has_false in Hh.
  unfold remember. rewrite Hid, Hti.
  unfold JS.Set_add. rewrite (proj2 (Set_has_false seen i) Hh).
  assert (Hnd' : NoDup (seen ++ [i])).
  { apply NoDup_app. split; [done|]. split; [|apply NoDup_singleton].
    intros x Hx Hi. apply list_elem_of_In in Hx.
    apply list_elem_of_singleton in Hi as ->. done. }
  assert (Htr' : Forall (fun j => JS.truthy j = true) (seen ++ [i])).
  { apply Forall_app. split; [done | by constructor]. }
  assert (Hlen : length seen = Nat.min (length acc) 500).
  { rewrite Hw at 1. rewrite length_drop. lia. }
  unfold JS.Set_size. rewrite length_app. simpl.
  destruct (Z.ltb_spec 500 (Z.of_nat (length seen + 1))) as [Hbig|Hsmall].
  - (* the set is full: the oldest id leaves *)
    assert (Hacc : (500 <= length acc)%nat) by lia.
    destruct seen as [|x seen']; [simpl in *; lia|].
    simpl. inversion Htr as [|? ? Hx _]; subst. rewrite Hx.
    inversion Hnd' as [|? ? Hnotin Hnd'']; subst.
    rewrite list_elem_of_In in Hnotin.
    rewrite Set_delete_first by done.
    split; [|split].
    + rewrite length_app. simpl.
      replace (length acc + 1 - 500)%nat with (S (length acc - 500)) by lia.
      rewrite drop_app_le by lia.
      f_equal.
      replace (S (length acc - 500)) with (length acc - 500 + 1)%nat by lia.
      by rewrite <- drop_drop, <- Hw.
    + done.
    + by inversion Htr'.
  - (* room left *)
    split; [|done].
    assert (Hacc : (length acc < 500)%nat) by lia.
    rewrite length_app. simpl.
    replace (length acc + 1 - 500)%nat with 0%nat by lia.
    rewrite Hw. replace (length acc - 500)%nat with 0%nat by lia. done.
Qed.

Lemma accepts_Some s m i :
  accepts s m = Some i ->
  strict_eq (Some (channel m)) (currentChannelRef s) = true /\
  seen_before (seenIdsRef s) m = false /\
  id m = Some i /\ JS.truthy i = true /\
  JS.Set_has (seenIdsRef s) i = false.
Proof.
  unfold accepts, seen_before.
  destruct (strict_eq _ _); simpl; [|done].
  destruct (id m) as [j|]; simpl; [|done].
  destruct (JS.truthy j) eqn:Hj; simpl.
  - destruct (JS.Set_has (seenIdsRef s) j) eqn:Hh; simpl; [done|].
    intros [= <-]. done.
  - done.
Qed.

Lemma accepts_None s now m :
  accepts s m = None ->
  seenIdsRef (on_chat_message by_id now m s) = seenIdsRef s.
Proof.
  unfold accepts, on_chat_message, seen_before, remember.
  destruct (strict_eq _ _); simpl; [|done].
  destruct (id m) as [j|]; simpl; [|done].
  destruct (JS.truthy j) eqn:Hj; simpl; [|done].
  by destruct (JS.Set_has (seenIdsRef s) j) eqn:Hh.
Qed.

Lemma window_track st e :
  window (seenIdsRef st.1) st.2 ->
  window (seenIdsRef (track st e).1) (track st e).2.
Proof.
  destruct st as [s acc]. intros Hw. simpl in Hw.
  destruct e as [c|now m|c|i]; simpl.
  - unfold render. destruct (strict_eq c (hook_channel s)); [done|].
    unfold channel_effect; simpl.
    destruct c as [c|]; [destruct (JS.truthy c)|]; apply window_nil.
  - destruct (accepts s m) as [i|] eqn:Ha.
    + destruct (accepts_Some s m i Ha) as (Hch & Hsb & Hid & Hti & Hh).
      unfold on_chat_message. rewrite Hch, Hsb. simpl.
      by apply remember_window.
    + by rewrite accepts_None.
  - unfold on_chat_disconnected. by destruct (strict_eq _ _).
  - unfold on_timer. destruct (timers s !! i) as [t|]; [|done].
    destruct (elapsed t); [done|].
    destruct (strict_eq _ _); [|done].
    by destruct (closure_channel t).
Qed.

Lemma window_tracked tr st :
  window (seenIdsRef st.1) st.2 ->
  let st' := fold_left track tr st in
  st'.1 = run by_id st.1 tr /\ window (seenIdsRef st'.1) st'.2.
Proof.
  revert st. induction tr as [|e tr IH]; intros st Hw; [done|].
  simpl. destruct (IH (track st e) (window_track st e Hw)) as [H1 H2].
  split; [exact H1 | exact H2].
Qed.

Lemma seenIds_mount c0 : seenIdsRef (mount by_id c0) = [].
Proof.
  unfold mount, channel_effect; simpl.
  destruct c0 as [c|]; [destruct (JS.truthy c)|]; done.
Qed.

Lemma seenIds_window c0 tr :
  seenIdsRef (run by_id (mount by_id c0) tr) =
    JS.slice (accepted_ids c0 tr) (-500).
Proof.
  unfold accepted_ids.
  destruct (window_tracked tr (mount by_id c0, [])) as [H1 (H2 & _ & _)].
  { simpl. rewrite seenIds_mount. apply window_nil. }
  simpl in H1. rewrite <- H1, H2.
  change (-500) with (- Z.of_nat 500). by rewrite slice_last by lia.
Qed.

End SeenIds.

(** ** The chat hook: repeated messages *)

Section DedupClaims.
Import Chat.

Implicit Types (s : UseChat) (e : Event) (tr : list Event).

Lemma seen_id_suppressed s now m i :
  id m = Some i -> JS.truthy i = true -> In i (seenIdsRef s) ->
  on_chat_message by_id now m s = s.
Proof.
  intros Hid Hti Hin. unfold on_chat_message, seen_before.
  destruct (negb _); [done|].
  by rewrite Hid, Hti, (proj2 (Set_has_true _ _) Hin).
Qed.

Lemma unseen_id_retained s now m :
  Some (channel m) = currentChannelRef s ->
  seen_before (seenIdsRef s) m = false ->
  messages (on_chat_message by_id now m s) = append now m (messages s).
Proof.
  intros Hch Hsb. apply strict_eq_true in Hch.
  unfold on_chat_message. by rewrite Hch, Hsb.
Qed.

Lemma recent_repeat_suppressed s now m lastMsg :
  JS.at_last (messages s) = Some lastMsg ->
  same_content lastMsg m = true ->
  now - timestamp lastMsg < 100 ->
  on_chat_message by_content now m s = s.
Proof.
  intros Hl Hsame Ht. unfold on_chat_message, update_by_content.
  destruct (negb _); [done|].
  unfold same_content in Hsame. rewrite Hl, Hsame.
  destruct (Z.ltb_spec (now - timestamp lastMsg) 100); [|lia].
  by destruct s.
Qed.

Lemma other_content_retained s now m :
  Some (channel m) = currentChannelRef s ->
  (forall lastMsg, JS.at_last (messages s) = Some lastMsg ->
     same_content lastMsg m = false \/ 100 <= now - timestamp lastMsg) ->
  messages (on_chat_message by_content now m s) = append now m (messages s).
Proof.
  intros Hch Hlast. apply strict_eq_true in Hch.
  unfold on_chat_message, update_by_content. rewrite Hch. simpl.
  destruct (JS.at_last (messages s)) as [lastMsg|]; [|done].
  fold (same_content lastMsg m).
  destruct (Hlast lastMsg eq_refl) as [-> | Ht]; [done|].
  destruct (Z.ltb_spec (now - timestamp lastMsg) 100); [lia|].
  by rewrite andb_false_r.
Qed.

(** C7 as stated fails.  With ids: two events of the same user and text
    carrying different ids are both retained.  With content and time: two
    events of the same user and text, 2 ms apart, are both retained when
    another message came between them. *)
Lemma identical_events_both_retained :
  same_content (ann_says_hi "1") (ann_says_hi "2") = true /\
  (let s := run by_id (mount by_id (Some "alpha"%string))
              [ChatMessageEvent 1000 (ann_says_hi "1");
               ChatMessageEvent 1001 (ann_says_hi "2")] in
   messages s = [stamped 1000 (ann_says_hi "1");
                 stamped 1001 (ann_says_hi "2")]) /\
  (let s := run by_content (mount by_content (Some "alpha"%string))
              [ChatMessageEvent 1000 (ann_says_hi "1");
               ChatMessageEvent 1001 bob_says_yo;
               ChatMessageEvent 1002 (ann_says_hi "1")] in
   messages s = [stamped 1000 (ann_says_hi "1");
                 stamped 1001 bob_says_yo;
                 stamped 1002 (ann_says_hi "1")]).
Proof. repeat split. Qed.

(** C7, amended.  With ids ([src/hooks/useChat.ts]): an event whose
    non-empty id is in the seen set is suppressed; an event of the current
    channel that is not recognised this way is appended, whatever its user
    and text; the seen set is the last 500 ids recorded since the channel
    was last selected.  With content and time: an event with the user and
    text of the last message of the history, arriving less than 100 ms
    after that message was stamped, is suppressed; an event of the current
    channel for which this test fails is appended. *)
Theorem duplicate_suppression :
  (forall s now m i,
     id m = Some i -> JS.truthy i = true -> In i (seenIdsRef s) ->
     on_chat_message by_id now m s = s) /\
  (forall s now m,
     Some (channel m) = currentChannelRef s ->
     seen_before (seenIdsRef s) m = false ->
     messages (on_chat_message by_id now m s) = append now m (messages s)) /\
  (forall c0 tr,
     seenIdsRef (run by_id (mount by_id c0) tr) =
       JS.slice (accepted_ids c0 tr) (-500)) /\
  (forall s now m lastMsg,
     JS.at_last (messages s) = Some lastMsg ->
     same_content lastMsg m = true ->
     now - timestamp lastMsg < 100 ->
     on_chat_message by_content now m s = s) /\
  (forall s now m,
     Some (channel m) = currentChannelRef s ->
     (forall lastMsg, JS.at_last (messages s) = Some lastMsg ->
        same_content lastMsg m = false \/ 100 <= now - timestamp lastMsg) ->
     messages (on_chat_message by_content now m s) =
       append now m (messages s)).
Proof.
  split; [exact seen_id_suppressed|].
  split; [exact unseen_id_retained|].
  split; [exact seenIds_window|].
  split; [exact recent_repeat_suppressed | exact other_content_retained].
Qed.

(** The theorem above at a message repeated with its id, and at a message
    repeated 99 ms later. *)
Lemma duplicate_suppression_witness :
  (let s := run by_id (mount by_id (Some "alpha"%string))
              [ChatMessageEvent 1000 (ann_says_hi "1")] in
   on_chat_message by_id 1001 (ann_says_hi "1") s = s) /\
  (let s := run by_content (mount by_content (Some "alpha"%string))
              [ChatMessageEvent 1000 (ann_says_hi "1")] in
   on_chat_message by_content 1099 (ann_says_hi "2") s = s).
Proof.
  destruct duplicate_suppression as (Hid & _ & _ & Hct & _).
  split.
  - apply (Hid _ 1001 (ann_says_hi "1") "1"%string);
      [reflexivity | reflexivity | simpl; by left].
  - apply (Hct _ 1099 (ann_says_hi "2") (stamped 1000 (ann_says_hi "1")));
      [reflexivity | reflexivity | simpl; lia].
Defined.

End DedupClaims.

(** ** The emote hook: maps and the heap *)

Section MapFacts.
Import JS.

Implicit Types (m acc : list (string * string)) (k v : string).

Lemma Map_get_set m k v k' :
  Map_get (Map_set m k v) k' =
    if String.eqb k k' then Some v else Map_get m k'.
Proof.
  induction m as [|[k0 v0] m IH]; simpl.
  - by destruct (String.eqb_spec k k').
  - destruct (String.eqb_spec k0 k) as [->|Hne]; simpl.
    + by destruct (String.eqb_spec k k').
    + rewrite IH. destruct (String.eqb_spec k0 k') as [->|]; [|done].
      by destruct (String.eqb_spec k k').
Qed.

Lemma Map_get_absent m k : k ∉ m.*1 -> Map_get m k = None.
Proof.
  induction m as [|[k0 v0] m IH]; csimpl; [done|].
  rewrite not_elem_of_cons. intros [Hne Hnotin].
  destruct (String.eqb_spec k0 k); [congruence | by apply IH].
Qed.

Lemma Map_set_keys m k v :
  (Map_set m k v).*1 = if bool_decide (k ∈ m.*1) then m.*1 else m.*1 ++ [k].
Proof.
  induction m as [|[k0 v0] m IH]; csimpl; [done|].
  destruct (String.eqb_spec k0 k) as [->|Hne]; csimpl.
  - rewrite bool_decide_eq_true_2 by left. done.
  - rewrite IH. destruct (decide (k ∈ m.*1)) as [Hin|Hnotin].
    + rewrite !bool_decide_eq_true_2; [done | by right | done].
    + rewrite !bool_decide_eq_false_2; [done | | done].
      rewrite not_elem_of_cons. split; congruence.
Qed.

Lemma Map_set_unique m k v : NoDup m.*1 -> NoDup (Map_set m k v).*1.
Proof.
  intros H. rewrite Map_set_keys. case_bool_decide; [done|].
  apply NoDup_app. split; [done|]. split; [|apply NoDup_singleton].
  intros x Hx Hk. apply list_elem_of_singleton in Hk. congruence.
Qed.

Lemma set_all_unique entries acc :
  NoDup acc.*1 -> NoDup (set_all entries acc).*1.
Proof.
  revert acc. induction entries as [|[k v] es IH]; intros acc H; [done|].
  csimpl. by apply IH, Map_set_unique.
Qed.

Lemma Map_new_unique entries : NoDup (Map_new entries).*1.
Proof. apply set_all_unique. constructor. Qed.

(** Copying a map entry by entry into another one: the copied entries
    win. *)
Lemma Map_get_set_all m acc k :
  NoDup m.*1 ->
  Map_get (set_all m acc) k =
    match Map_get m k with Some v => Some v | None => Map_get acc k end.
Proof.
  revert acc. induction m as [|[k0 v0] m IH]; intros acc Hnd; [done|].
  csimpl in Hnd. apply NoDup_cons in Hnd as [Hnotin Hnd].
  csimpl. rewrite IH by done. rewrite Map_get_set.
  destruct (String.eqb_spec k0 k) as [->|Hne]; [|done].
  by rewrite Map_get_absent.
Qed.

Lemma Map_get_new m k : NoDup m.*1 -> Map_get (Map_new m) k = Map_get m k.
Proof.
  intros H. unfold Map_new.
  rewrite Map_get_set_all by done. by destruct (Map_get m k).
Qed.
End MapFacts.

Section HeapFacts.
Import Emotes.

Implicit Types (h : list (list (string * string))) (s : UseEmotes).

Lemma emote_loop emoteList dst h :
  fold_left (fun h e => heap_set dst (name e) (url e) h) emoteList h =
    alter (JS.set_all (emote_entry <$> emoteList)) dst h.
Proof.
  revert h. induction emoteList as [|e es IH]; intros h; csimpl.
  - symmetry. by apply list_alter_id.
  - rewrite IH. unfold heap_set. by rewrite list_alter_alter_eq.
Qed.

Lemma twitch_loop data dst h :
  fold_left
    (fun h e =>
       match twitch_url e with
       | Some url =>
           if JS.truthy (emote_name e) && JS.truthy url
           then heap_set dst (emote_name e) url h
           else h
       | None => h
       end) data h =
    alter (JS.set_all (omap twitch_entry data)) dst h.
Proof.
  revert h. induction data as [|e es IH]; intros h; csimpl.
  - symmetry. by apply list_alter_id.
  - rewrite IH. unfold twitch_entry.
    destruct (twitch_url e) as [u|]; [|done].
    destruct (JS.truthy (emote_name e) && JS.truthy u); [|done].
    unfold heap_set. by rewrite list_alter_alter_eq.
Qed.

Lemma copy_loop (m : list (string * string)) dst h :
  fold_left (fun h kv => heap_set dst kv.1 kv.2 h) m h =
    alter (JS.set_all m) dst h.
Proof.
  revert h. induction m as [|kv m IH]; intros h; csimpl.
  - symmetry. by apply list_alter_id.
  - rewrite IH. unfold heap_set. by rewrite list_alter_alter_eq.
Qed.

Lemma alter_last {A} (f : A -> A) (xs : list A) x :
  alter f (length xs) (xs ++ [x]) = xs ++ [f x].
Proof.
  rewrite <- (Nat.add_0_r (length xs)) at 1. by rewrite alter_app_r.
Qed.

Lemma build_emoteMap_spec emoteList h :
  build_emoteMap emoteList h =
    (h ++ [JS.Map_new (emote_entry <$> emoteList)], length h).
Proof.
  unfold build_emoteMap, new_Map. by rewrite emote_loop, alter_last.
Qed.

Lemma build_twitchEmoteMap_spec data h :
  build_twitchEmoteMap data h =
    (h ++ [JS.Map_new (omap twitch_entry data)], length h).
Proof.
  unfold build_twitchEmoteMap, new_Map. by rewrite twitch_loop, alter_last.
Qed.

Lemma forEach_set_fresh src (m acc : list (string * string)) h :
  h !! src = Some m ->
  forEach_set src (length h) (h ++ [acc]) = h ++ [JS.set_all m acc].
Proof.
  intros Hsrc. unfold forEach_set.
  rewrite lookup_app_l by (by eapply lookup_lt_Some).
  by rewrite Hsrc, copy_loop, alter_last.
Qed.

Lemma combine_spec s tg g tc c :
  heap s !! twitchGlobalEmotes s = Some tg ->
  heap s !! globalEmotes s = Some g ->
  heap s !! twitchChannelEmotes s = Some tc ->
  heap s !! channelEmotes s = Some c ->
  combine s =
    (heap s ++ [JS.set_all c (JS.set_all tc (JS.set_all g (JS.Map_new tg)))],
     length (heap s)).
Proof.
  intros Htg Hg Htc Hc. unfold combine, new_Map. rewrite Htg. simpl.
  by rewrite (forEach_set_fresh _ g), (forEach_set_fresh _ tc),
    (forEach_set_fresh _ c).
Qed.

End HeapFacts.

(** ** The emote hook: what every state satisfies *)

Section EmoteFacts.
Import Emotes.

Implicit Types (h : list (list (string * string))) (s : UseEmotes)
  (e : Event) (tr : list Event).

Lemma heap_get_app h ext ref k :
  (ref < length h)%nat -> heap_get (h ++ ext) ref k = heap_get h ref k.
Proof. intros H. unfold heap_get. by rewrite lookup_app_l. Qed.

Lemma by_precedence_ext s s' ext k :
  heap s' = heap s ++ ext -> deps s' = deps s -> refs_in_heap s ->
  by_precedence s' k = by_precedence s k.
Proof.
  intros Hh Hd (H1 & H2 & H3 & H4 & _). unfold deps in Hd.
  injection Hd as E1 E2 E3 E4. unfold by_precedence.
  rewrite Hh, E1, E2, E3, E4. by rewrite !heap_get_app.
Qed.

Lemma unique_keys_lookup h ref (m : list (string * string)) :
  Forall unique_keys h -> h !! ref = Some m -> NoDup m.*1.
Proof. intros H Hm. by apply (Forall_lookup_1 _ _ _ _ H Hm). Qed.

Ltac extend_heap :=
  repeat split; simpl;
  rewrite ?length_app; simpl;
  try match goal with
    | |- Forall _ (_ ++ _) =>
        repeat (apply Forall_app; split); try done;
        repeat constructor; apply Map_new_unique
    | |- exists ext, ?h ++ ?a = ?h ++ ext => by exists a
    | |- exists ext, (?h ++ ?a) ++ ?b = ?h ++ ext =>
        exists (a ++ b); by rewrite <- app_assoc
    | |- exists ext, ?h = ?h ++ ext => exists []; by rewrite app_nil_r
    end;
  try lia; try assumption.

Lemma handle_good s e :
  good s ->
  good (handle s e) /\
  (exists ext, heap (handle s e) = heap s ++ ext) /\
  memo_deps (handle s e) = memo_deps s /\
  allEmotes (handle s e) = allEmotes s.
Proof.
  intros [Hu (H1 & H2 & H3 & H4 & H5)]. unfold good, refs_in_heap.
  destruct e as [[emoteList|]|[[data|]|]|[badges|]
                |[emoteList|] [[badges|]|] [[data|]|]];
    unfold handle, loadGlobalEmotes_settled, loadTwitchGlobalEmotes_settled,
      loadGlobalBadges_settled, loadChannelEmotes_settled; cbv zeta;
    rewrite ?build_emoteMap_spec, ?build_twitchEmoteMap_spec;
    extend_heap.
Qed.

Lemma render_sound s :
  good s ->
  (deps s = memo_deps s ->
   forall k, heap_get (heap s) (allEmotes s) k = by_precedence s k) ->
  sound (render s) /\
  (exists ext, heap (render s) = heap s ++ ext) /\
  deps (render s) = deps s /\
  (deps s ≠ memo_deps s -> allEmotes (render s) = length (heap s)).
Proof.
  intros [Hu Hr] Hmemo. pose proof Hr as (H1 & H2 & H3 & H4 & H5).
  unfold render. case_bool_decide as Hd.
  - split; [|split; [|split]]; [| |done|done].
    + split; [done|]. split; [done|]. split; [done | by apply Hmemo].
    + exists []. by rewrite app_nil_r.
  - destruct (lookup_lt_is_Some_2 _ _ H1) as [g Hg].
    destruct (lookup_lt_is_Some_2 _ _ H2) as [tg Htg].
    destruct (lookup_lt_is_Some_2 _ _ H3) as [c Hc].
    destruct (lookup_lt_is_Some_2 _ _ H4) as [tc Htc].
    rewrite (combine_spec s tg g tc c) by done.
    pose proof (unique_keys_lookup _ _ _ Hu Hg) as Ug.
    pose proof (unique_keys_lookup _ _ _ Hu Htg) as Utg.
    pose proof (unique_keys_lookup _ _ _ Hu Hc) as Uc.
    pose proof (unique_keys_lookup _ _ _ Hu Htc) as Utc.
    split; [|split; [|split]]; [| by eexists | done | done].
    split; [|split; [|split]]; simpl.
    + apply Forall_app. split; [done|]. repeat constructor.
      unfold unique_keys. do 3 apply set_all_unique. apply Map_new_unique.
    + unfold refs_in_heap. simpl. rewrite length_app. simpl. lia.
    + done.
    + intros k. unfold by_precedence, heap_get. simpl.
      rewrite (lookup_app_l _ _ (channelEmotes s)),
        (lookup_app_l _ _ (twitchChannelEmotes s)),
        (lookup_app_l _ _ (globalEmotes s)),
        (lookup_app_l _ _ (twitchGlobalEmotes s)) by done.
      rewrite list_lookup_middle by done.
      rewrite Hc, Htc, Hg, Htg.
      rewrite !Map_get_set_all, Map_get_new by done. done.
Qed.

(** A render touches nothing but the memo cell and the heap, which it
    only extends. *)
Lemma render_frame s :
  good s ->
  exists ext,
    heap (render s) = heap s ++ ext /\
    channelEmotes (render s) = channelEmotes s /\
    twitchChannelEmotes (render s) = twitchChannelEmotes s /\
    channelBadges (render s) = channelBadges s.
Proof.
  intros [Hu (H1 & H2 & H3 & H4 & H5)].
  unfold render. case_bool_decide as Hd.
  - exists []. by rewrite app_nil_r.
  - destruct (lookup_lt_is_Some_2 _ _ H1) as [g Hg].
    destruct (lookup_lt_is_Some_2 _ _ H2) as [tg Htg].
    destruct (lookup_lt_is_Some_2 _ _ H3) as [c Hc].
    destruct (lookup_lt_is_Some_2 _ _ H4) as [tc Htc].
    rewrite (combine_spec s tg g tc c) by done. by eexists.
Qed.

Lemma step_sound s e :
  sound s ->
  sound (step s e) /\
  (exists ext, heap (step s e) = heap s ++ ext) /\
  (deps (step s e) ≠ deps s ->
   (length (heap s) <= allEmotes (step s e))%nat /\
   (twitchGlobalEmotes (step s e) < allEmotes (step s e))%nat /\
   (globalEmotes (step s e) < allEmotes (step s e))%nat /\
   (twitchChannelEmotes (step s e) < allEmotes (step s e))%nat /\
   (channelEmotes (step s e) < allEmotes (step s e))%nat).
Proof.
  intros (Hu & Hr & Hm & Hk).
  destruct (handle_good s e (conj Hu Hr)) as (Hg & [ext Hext] & Hm' & Ha').
  unfold step.
  destruct (render_sound (handle s e) Hg) as (Hs & [ext' Hext'] & Hd & Hf).
  { intros Hd k. rewrite Hm', Hm in Hd.
    rewrite (by_precedence_ext s _ ext) by done.
    rewrite Ha', Hext, heap_get_app; [done|].
    by destruct Hr as (_ & _ & _ & _ & ?). }
  split; [done|]. split.
  - exists (ext ++ ext'). by rewrite Hext', Hext, <- app_assoc.
  - rewrite Hd. intros Hne. rewrite Hf by congruence.
    destruct Hg as (_ & H1 & H2 & H3 & H4 & _).
    unfold deps in Hd. injection Hd as -> -> -> ->.
    rewrite Hext, length_app in *. lia.
Qed.

Lemma sound_mount : sound mount.
Proof.
  split; [|split; [|split]].
  - repeat constructor.
  - unfold refs_in_heap. simpl. lia.
  - done.
  - intros k. reflexivity.
Qed.

Lemma sound_run tr s : sound s -> sound (run s tr).
Proof.
  revert s. induction tr as [|e tr IH]; intros s H; [done|].
  simpl. apply IH. by apply step_sound.
Qed.

End EmoteFacts.

(** ** The emote hook: the stated properties *)

Section EmoteClaims.
Import Emotes.

Implicit Types (s : UseEmotes) (e : Event) (tr : list Event).

(** C3.  After any sequence of settled loads, looking a token up in the
    merged map gives the value of the highest-precedence table defining
    it: third-party channel, then Twitch channel, then third-party global,
    then Twitch global.  No step writes to a map already on the heap: the
    maps that were there are there unchanged, at their places.  And when a
    step replaces one of the four tables, the merged map after it is a map
    of the heap that the step allocated: it was not on the heap before, so
    it is neither the merged map of before nor any table of before, and it
    is none of the four tables of now. *)
Theorem merged_lookup_by_precedence tr :
  let s := run mount tr in
  (forall k, heap_get (heap s) (allEmotes s) k = by_precedence s k) /\
  (forall e, exists ext, heap (step s e) = heap s ++ ext) /\
  (forall e,
     let s' := step s e in
     deps s' ≠ deps s ->
     (length (heap s) <= allEmotes s' < length (heap s'))%nat /\
     allEmotes s' ≠ allEmotes s /\
     (allEmotes s' ∉ [twitchGlobalEmotes s; globalEmotes s;
                      twitchChannelEmotes s; channelEmotes s]) /\
     (allEmotes s' ∉ [twitchGlobalEmotes s'; globalEmotes s';
                      twitchChannelEmotes s'; channelEmotes s']) /\
     forall k, heap_get (heap s') (allEmotes s') k = by_precedence s' k).
Proof.
  intros s.
  assert (Hs : sound s) by apply sound_run, sound_mount.
  split; [by destruct Hs as (_ & _ & _ & ?)|].
  split; intros e; destruct (step_sound s e Hs) as (Hs' & Hext & Hfresh);
    [done|].
  intros s' Hd. specialize (Hfresh Hd). fold s' in Hs', Hfresh.
  destruct Hs as (_ & (H1 & H2 & H3 & H4 & H5) & _).
  destruct Hs' as (_ & (_ & _ & _ & _ & H5') & _ & Hk').
  rewrite !not_elem_of_cons.
  repeat split; try lia; try done; apply not_elem_of_nil.
Qed.

(** The theorem above after the Twitch global emotes arrived, at the step
    where the third-party global emotes arrive. *)
Lemma merged_lookup_by_precedence_witness :
  let s := run mount [TwitchGlobalEmotesSettled (fulfilled (Some [twitch_Kappa]))] in
  let s' := step s (GlobalEmotesSettled (fulfilled [Kappa])) in
  heap_get (heap s) (allEmotes s) "Kappa" = by_precedence s "Kappa" /\
  (length (heap s) <= allEmotes s' < length (heap s'))%nat /\
  allEmotes s' ≠ allEmotes s /\
  (allEmotes s' ∉ [twitchGlobalEmotes s; globalEmotes s;
                   twitchChannelEmotes s; channelEmotes s]) /\
  (allEmotes s' ∉ [twitchGlobalEmotes s'; globalEmotes s';
                   twitchChannelEmotes s'; channelEmotes s']) /\
  forall k, heap_get (heap s') (allEmotes s') k = by_precedence s' k.
Proof.
  intros s s'.
  destruct (merged_lookup_by_precedence
              [TwitchGlobalEmotesSettled (fulfilled (Some [twitch_Kappa]))])
    as (Hk & _ & Hfresh).
  split; [apply Hk|].
  apply (Hfresh (GlobalEmotesSettled (fulfilled [Kappa]))).
  vm_compute. discriminate.
Defined.

Example merged_lookup_overrides :
  let s := run mount [TwitchGlobalEmotesSettled (fulfilled (Some [twitch_Kappa]))] in
  let s' := step s (GlobalEmotesSettled (fulfilled [Kappa])) in
  heap_get (heap s) (allEmotes s) "Kappa" = Some "twitch/kappa-2.png"%string /\
  heap_get (heap s') (allEmotes s') "Kappa" = Some "7tv/kappa.webp"%string /\
  allEmotes s ≠ allEmotes s'.
Proof. repeat split. discriminate. Qed.

(** C6.  The three channel loads are not independent in the code.  When
    only the badge call is rejected, the emotes that the other two calls
    returned are not published: the hook is as if nothing had been loaded,
    where the same two results with a badge list are published.  The
    three global loads do keep a failure to itself: the same emotes
    arrive in the global tables whether the global badge call fails or
    not. *)
Lemma one_failure_discards_all :
  let failed :=
    step mount (ChannelEmotesSettled (fulfilled [Kappa]) (rejected "timeout")
                  (fulfilled (Some [twitch_Kappa]))) in
  let loaded :=
    step mount (ChannelEmotesSettled (fulfilled [Kappa]) (fulfilled (Some []))
                  (fulfilled (Some [twitch_Kappa]))) in
  let global :=
    run mount [GlobalEmotesSettled (fulfilled [Kappa]);
               GlobalBadgesSettled (rejected "timeout");
               TwitchGlobalEmotesSettled (fulfilled (Some [twitch_Kappa]))] in
  failed = mount /\
  heap_get (heap failed) (channelEmotes failed) "Kappa" = None /\
  heap_get (heap failed) (twitchChannelEmotes failed) "Kappa" = None /\
  heap_get (heap loaded) (channelEmotes loaded) "Kappa" =
    Some "7tv/kappa.webp"%string /\
  heap_get (heap loaded) (twitchChannelEmotes loaded) "Kappa" =
    Some "twitch/kappa-2.png"%string /\
  heap_get (heap global) (globalEmotes global) "Kappa" =
    Some "7tv/kappa.webp"%string /\
  heap_get (heap global) (twitchGlobalEmotes global) "Kappa" =
    Some "twitch/kappa-2.png"%string.
Proof. repeat split. Qed.

(** A badge response without [user], the other two calls fulfilled: the
    third-party channel emotes are published, the badges and the Twitch
    channel emotes are not. *)
Example missing_user_publishes_emotes_only :
  let s' :=
    step mount (ChannelEmotesSettled (fulfilled [Kappa]) (fulfilled None)
                  (fulfilled (Some [twitch_Kappa]))) in
  heap_get (heap s') (channelEmotes s') "Kappa" =
    Some "7tv/kappa.webp"%string /\
  channelBadges s' = [] /\
  heap_get (heap s') (twitchChannelEmotes s') "Kappa" = None.
Proof. repeat split. Qed.

Lemma render_idle s : memo_deps s = deps s -> render s = s.
Proof. intros H. unfold render. by rewrite bool_decide_eq_true_2. Qed.

(** What [loadChannelEmotes] publishes, in every state of the hook.  If
    any of the three calls is rejected, nothing is published and the state
    is unchanged.  If all three are fulfilled, the third-party channel
    emotes are published; the channel badges are published when the badge
    response has a [user], and only then are the Twitch channel emotes
    looked at, which are published when their response carries a list. *)
Lemma channel_load_outcomes tr :
  let s := run mount tr in
  (forall err r1 r2 r3,
     step s (ChannelEmotesSettled (rejected err) r2 r3) = s /\
     step s (ChannelEmotesSettled r1 (rejected err) r3) = s /\
     step s (ChannelEmotesSettled r1 r2 (rejected err)) = s) /\
  (forall emoteList badges twitchEmotes,
     let s' := step s (ChannelEmotesSettled (fulfilled emoteList)
                         (fulfilled badges) (fulfilled twitchEmotes)) in
     heap s' !! channelEmotes s' =
       Some (JS.Map_new (emote_entry <$> emoteList)) /\
     match badges, twitchEmotes with
     | Some broadcastBadges, Some data =>
         channelBadges s' = broadcastBadges /\
         heap s' !! twitchChannelEmotes s' =
           Some (JS.Map_new (omap twitch_entry data))
     | Some broadcastBadges, None =>
         channelBadges s' = broadcastBadges /\
         twitchChannelEmotes s' = twitchChannelEmotes s
     | None, _ =>
         channelBadges s' = channelBadges s /\
         twitchChannelEmotes s' = twitchChannelEmotes s
     end).
Proof.
  intros s.
  assert (Hs : sound s) by apply sound_run, sound_mount.
  split.
  - intros err r1 r2 r3. unfold step.
    assert (Hidle : render s = s) by (apply render_idle; apply Hs).
    repeat split; simpl;
      [|destruct r1|destruct r1; [destruct r2|]]; exact Hidle.
  - intros emoteList badges twitchEmotes s'.
    set (e := ChannelEmotesSettled (fulfilled emoteList) (fulfilled badges)
                (fulfilled twitchEmotes)) in s'.
    assert (Hg : good (handle s e)) by (apply handle_good; split; apply Hs).
    destruct (render_frame (handle s e) Hg) as (ext & Hh & Hc & Htc & Hb).
    subst s'. unfold step. rewrite Hh, Hc, Htc, Hb. clear.
    subst e. unfold handle, loadChannelEmotes_settled. cbv zeta.
    rewrite build_emoteMap_spec.
    destruct badges as [broadcastBadges|], twitchEmotes as [data|];
      cbn [heap set_heap setChannelEmotes setChannelBadges];
      rewrite ?build_twitchEmoteMap_spec; simpl.
    + split; [|split; [done|]].
      * rewrite <- !app_assoc. simpl. by rewrite list_lookup_middle.
      * rewrite <- (app_assoc _ _ ext). simpl.
        by rewrite list_lookup_middle.
    + split; [|done].
      rewrite <- !app_assoc. simpl. by rewrite list_lookup_middle.
    + split; [|done].
      rewrite <- !app_assoc. simpl. by rewrite list_lookup_middle.
    + split; [|done].
      rewrite <- !app_assoc. simpl. by rewrite list_lookup_middle.
Qed.

End EmoteClaims.

(** ** The loader: one callback per bridge call, no retry *)

Section LoaderCounting.
Import Loader LoaderTrace.

Implicit Types (l : TauriHlsLoader) (e : Event) (tr : list Event).

Lemma settled_calls_mark id l c :
  bridge l !! id = Some c -> settled c = false ->
  settled_calls (mark_settled id l) = S (settled_calls l).
Proof.
  unfold settled_calls, mark_settled. simpl.
  generalize (bridge l). intros b. revert id.
  induction b as [|x b IH]; intros [|id] Hl Hs; simplify_eq/=.
  - by rewrite Hs.
  - destruct (settled x); simpl; by rewrite (IH id).
Qed.

Lemma settled_calls_le l : (settled_calls l <= length (bridge l))%nat.
Proof. apply List.filter_length_le. Qed.

(** What a continuation adds to the calls: nothing or one call. *)
Lemma continuation_calls now id r l c :
  bridge l !! id = Some c -> settled c = false ->
  (exists cs, calls (settle now id r l) = calls l ++ cs /\
              (length cs <= 1)%nat) /\
  (settle now id r l = l \/
   bridge (settle now id r l) = bridge (mark_settled id l)).
Proof.
  intros Hb Hs. unfold settle. rewrite Hb, Hs.
  assert (Hnil : exists cs, calls l = calls l ++ cs /\ (length cs <= 1)%nat)
    by (exists []; rewrite app_nil_r; split; [done | simpl; lia]).
  destruct (command c), r; try (split; [exact Hnil | by left]);
    unfold loadPlaylist_fulfilled, loadSegment_fulfilled, on_rejected, succeed;
    repeat match goal with
      | |- context [if ?b then _ else _] => destruct b
      | |- context [match ?o with Some _ => _ | None => _ end] => destruct o
      end;
    (split; [|by right]); simpl; try exact Hnil; by eexists [_].
Qed.

(** What an exception of [onSuccess] adds: nothing or one [onError]. *)
Lemma thrown_calls err l :
  (exists cs, calls (on_thrown err l) = calls l ++ cs /\
              (length cs <= 1)%nat /\ List.filter is_success cs = []) /\
  bridge (on_thrown err l) = bridge l.
Proof.
  assert (Hnil : exists cs, calls l = calls l ++ cs /\ (length cs <= 1)%nat /\
                            List.filter is_success cs = [])
    by (exists []; rewrite app_nil_r; split; [|split]; [done | simpl; lia | done]).

  unfold on_thrown, on_rejected.
  repeat match goal with
    | |- context [if ?b then _ else _] => destruct b
    | |- context [match ?o with Some _ => _ | None => _ end] => destruct o
    end;
  (split; [|done]); simpl; try exact Hnil; by eexists [_].
Qed.

Lemma filter_length_snoc {A} (f : A -> bool) (xs cs : list A) :
  (length cs <= 1)%nat ->
  (length (List.filter f (xs ++ cs)) <= S (length (List.filter f xs)))%nat.
Proof.
  intros H. rewrite List.filter_app, length_app.
  pose proof (List.filter_length_le f cs). lia.
Qed.

Lemma step_counts l e n :
  (length (successes l) <= settled_calls l)%nat ->
  (length (results l) <= settled_calls l + n)%nat ->
  (length (successes (step l e)) <= settled_calls (step l e))%nat /\
  (length (results (step l e)) <=
     settled_calls (step l e) + (n + if is_thrown e then 1 else 0))%nat /\
  length (bridge (step l e)) =
    (length (bridge l) + if is_load e then 1 else 0)%nat.
Proof.
  intros Hsucc Hres. unfold successes, results, settled_calls in *.
  destruct e as [now ctx cbs| | |now id r|err]; simpl.
  - rewrite calls_load, load_bridge, List.filter_app, !length_app. simpl.
    repeat split; lia.
  - destruct (abort_fields l) as (_ & _ & _ & Hb & _). rewrite Hb.
    fold (results (abort l)). rewrite results_abort. unfold results.
    assert (Hs : List.filter is_success (calls (abort l)) =
                 List.filter is_success (calls l)).
    { unfold abort; simpl.
      destruct (callbacks l) as [cb|], (context l); simpl;
        try destruct (hasOnAbort cb); simpl; try done.
      rewrite List.filter_app. simpl. apply app_nil_r. }
    rewrite Hs. repeat split; lia.
  - repeat split; lia.
  - destruct (bridge l !! id) as [c|] eqn:Hb;
      [|unfold settle; rewrite Hb; repeat split; lia].
    destruct (settled c) eqn:Hs;
      [unfold settle; rewrite Hb, Hs; repeat split; lia|].
    destruct (continuation_calls now id r l c Hb Hs)
      as [(cs & Hcalls & Hlen) [-> | Hbr]]; [repeat split; lia|].
    pose proof (settled_calls_mark id l c Hb Hs) as Hm.
    unfold settled_calls in Hm. rewrite Hcalls, Hbr.
    pose proof (filter_length_snoc is_success (calls l) cs Hlen).
    pose proof (filter_length_snoc is_result (calls l) cs Hlen).
    repeat split; try lia. simpl. rewrite length_alter. lia.
  - destruct (thrown_calls err l) as [(cs & Hcalls & Hlen & Hnone) Hbr].
    rewrite Hcalls, Hbr.
    pose proof (filter_length_snoc is_result (calls l) cs Hlen).
    rewrite (List.filter_app is_success), Hnone, app_nil_r.
    repeat split; lia.
Qed.

Lemma run_counts tr l n :
  (length (successes l) <= settled_calls l)%nat ->
  (length (results l) <= settled_calls l + n)%nat ->
  (length (successes (run l tr)) <= settled_calls (run l tr))%nat /\
  (length (results (run l tr)) <=
     settled_calls (run l tr) + (n + throws tr))%nat /\
  length (bridge (run l tr)) = (length (bridge l) + loads tr)%nat.
Proof.
  revert l n. induction tr as [|e tr IH]; intros l n H1 H2; simpl.
  - unfold throws, loads. simpl. repeat split; lia.
  - destruct (step_counts l e n H1 H2) as (H3 & H4 & H5).
    destruct (IH _ _ H3 H4) as (H6 & H7 & H8).
    unfold throws, loads in *. simpl.
    destruct (is_thrown e), (is_load e); simpl in *; repeat split; lia.
Qed.

(** The loader issues one bridge call per [load()] and none of its own
    (it never retries).  [onSuccess] is called at most once per bridge call
    that has settled; every other result call is an [onError], and the
    result calls are at most as many as the settled bridge calls and the
    exceptions of [onSuccess] taken together: a bridge call gets a second
    result call only when its [onSuccess] throws. *)
Theorem result_calls_are_bounded tr :
  let l := run constructor tr in
  length (bridge l) = loads tr /\
  (settled_calls l <= loads tr)%nat /\
  (length (successes l) <= settled_calls l)%nat /\
  (length (results l) <= settled_calls l + throws tr)%nat.
Proof.
  intros l.
  destruct (run_counts tr constructor 0) as (H1 & H2 & H3);
    [simpl; lia | simpl; lia |].
  simpl in H3. fold l in H1, H2, H3. split; [done|]. split; [|done].
  rewrite <- H3. apply settled_calls_le.
Qed.

(** The bound is met: a playlist call whose [onSuccess] throws gets two
    result calls, [onSuccess] and then [onError] with the exception as
    text and the stats as stamped. *)
Example throwing_callback_gets_both :
  let cb := {| handle := 1; hasOnAbort := false |} in
  let ctx := {| url := "https://cdn/live.m3u8" |} in
  let l := run constructor [Load 5 ctx cb; Settle 8 0 (text "#EXTM3U")] in
  calls (run constructor
           [Load 5 ctx cb; Settle 8 0 (text "#EXTM3U"); Thrown "TypeError"]) =
    [onSuccess cb {| response_url := url ctx; data := Text "#EXTM3U" |}
       (stats l) ctx;
     onError cb 0 "TypeError" ctx (stats l)].
Proof. reflexivity. Qed.

(** An [onSuccess] that destroys the loader before it throws gets no
    [onError]: the [catch] block reads the flags as they are then. *)
Example throwing_after_destroy_is_silent :
  let cb := {| handle := 1; hasOnAbort := false |} in
  let ctx := {| url := "https://cdn/live.m3u8" |} in
  calls (run constructor
           [Load 5 ctx cb; Settle 8 0 (text "#EXTM3U"); Destroy;
            Thrown "TypeError"]) =
    calls (run constructor [Load 5 ctx cb; Settle 8 0 (text "#EXTM3U")]).
Proof. reflexivity. Qed.

End LoaderCounting.

(** ** The loader: the other outcomes of a bridge call *)

Section LoaderOutcomes.
Import Loader LoaderTrace.

Implicit Types (l : TauriHlsLoader) (e : Event) (tr : list Event).

Lemma equipped_frame l l' : same_frame l l' -> equipped l -> equipped l'.
Proof.
  intros (E1 & E2 & E3 & E4 & _). unfold equipped. by rewrite E1, E2, E3, E4.
Qed.

Lemma equipped_step l e : equipped l -> equipped (step l e).
Proof.
  intros H. destruct e as [now ctx cbs| | |now id r|err]; simpl.
  - unfold load, loadPlaylist, loadSegment, invoke.
    destruct (isPlaylist ctx); simpl; by intros _.
  - destruct (abort_fields l) as (E1 & E2 & E3 & E4 & _).
    unfold equipped. by rewrite E1, E2, E3, E4.
  - intros Hb. split; [by apply H | done].
  - unfold settle. destruct (bridge l !! id) as [c|]; [|done].
    destruct (settled c); [done|].
    assert (Hm : equipped (set_running false (mark_settled id l))).
    { intros Hb. apply H. simpl in Hb. by apply alter_nil_inv in Hb. }
    destruct (command c), r; try done;
      eauto using equipped_frame, frame_playlist, frame_segment,
        frame_rejected.
  - unfold on_thrown. destruct (running l); [|done].
    by apply (equipped_frame (set_running false l)), H; apply frame_rejected.
Qed.

Lemma equipped_run tr l : equipped l -> equipped (run l tr).
Proof.
  revert l. induction tr as [|e tr IH]; intros l H; [done|].
  simpl. by apply IH, equipped_step.
Qed.

Lemma equipped_constructor : equipped constructor.
Proof. by intros ?. Qed.

(** What the continuation of a pending bridge call does on a loader that
    was not cancelled. *)
Lemma settle_shape l id c :
  equipped l -> bridge l !! id = Some c -> settled c = false ->
  cancelled l = false ->
  exists cb ctx,
    callbacks l = Some cb /\ context l = Some ctx /\
    (forall now d, command c = fetch_m3u8 ->
       settle now id (text d) l =
         set_running true
           (call (onSuccess cb {| response_url := url ctx; data := Text d |}
                    (stamp now (String.length d) (stats l)) ctx)
              (set_stats (stamp now (String.length d) (stats l))
                 (set_running false (mark_settled id l))))) /\
    (forall now d, command c = fetch_bytes ->
       settle now id (numbers d) l =
         set_running true
           (call (onSuccess cb {| response_url := url ctx;
                                  data := ArrayBuffer (Uint8Array d) |}
                    (stamp now (length (Uint8Array d)) (stats l)) ctx)
              (set_stats (stamp now (length (Uint8Array d)) (stats l))
                 (set_running false (mark_settled id l))))) /\
    (forall now err,
       settle now id (failure err) l =
         call (onError cb 0 err ctx (stats l))
           (set_running false (mark_settled id l))).
Proof.
  intros He Hb Hs Hc.
  assert (Hne : bridge l ≠ []) by (intros E; by rewrite E in Hb).
  destruct (He Hne) as [Hctx Hcb].
  apply orb_false_elim in Hc as [Hd Ha]. specialize (Hcb Hd).
  destruct (callbacks l) as [cb|] eqn:Ecb; [|done].
  destruct (context l) as [ctx|] eqn:Ectx; [|done].
  exists cb, ctx. split; [done|]. split; [done|].
  split; [|split].
  - intros now d Hcmd. unfold settle. rewrite Hb, Hs, Hcmd.
    unfold loadPlaylist_fulfilled, succeed. simpl.
    by rewrite Hd, Ha, Ectx, Ecb.
  - intros now d Hcmd. unfold settle. rewrite Hb, Hs, Hcmd.
    unfold loadSegment_fulfilled, succeed. simpl.
    by rewrite Hd, Ha, Ectx, Ecb.
  - intros now err. unfold settle. rewrite Hb, Hs.
    unfold on_rejected. simpl. rewrite Hd, Ha, Ectx, Ecb. simpl.
    by destruct (command c).
Qed.

Lemma Uint8Array_bytes d :
  length (Uint8Array d) = length d /\
  Forall is_byte (Uint8Array d) /\
  (forall i n, d !! i = Some n -> 0 <= n < 256 -> Uint8Array d !! i = Some n).
Proof.
  unfold Uint8Array. split; [apply length_fmap|]. split.
  - apply Forall_fmap, Forall_true. intros n. unfold is_byte. simpl.
    apply Z.mod_pos_bound. lia.
  - intros i n Hi Hn. rewrite list_lookup_fmap, Hi. simpl.
    by rewrite Z.mod_small.
Qed.

(** A media segment, on a loader that was neither aborted nor destroyed:
    when a pending [fetch_bytes] call returns the numbers [d], the
    continuation calls [onSuccess] with an [ArrayBuffer] of as many bytes
    as [d] has numbers, each in 0..255 and equal to the number it comes
    from when that was in range; [loaded] and [total] are that byte length
    and [loading.end] is not before [loading.start].  The continuation
    makes no other call when [onSuccess] returns; when [onSuccess] throws,
    the [catch] block calls [onError] as well, with code 0, the exception
    as text and the stats as stamped. *)
Theorem segment_success_stats tr now id u d :
  let l := run constructor tr in
  chronological 0 tr ->
  clock 0 tr <= now ->
  bridge l !! id =
    Some {| command := fetch_bytes; arg_url := u; settled := false |} ->
  cancelled l = false ->
  exists cb ctx bytes,
    let l' := settle now id (numbers d) l in
    calls l' =
      calls l ++ [onSuccess cb {| response_url := url ctx;
                                  data := ArrayBuffer bytes |}
                    (stats l') ctx] /\
    (forall err,
       calls (step l' (Thrown err)) =
         calls l' ++ [onError cb 0 err ctx (stats l')] /\
       stats (step l' (Thrown err)) = stats l') /\
    length bytes = length d /\
    Forall is_byte bytes /\
    (forall i n, d !! i = Some n -> 0 <= n < 256 -> bytes !! i = Some n) /\
    loaded (stats l') = length d /\
    total (stats l') = length d /\
    start (loading (stats l')) <= end_ (loading (stats l')).
Proof.
  intros l Hchr Hnow Hb Hc.
  pose proof (seasoned_run tr 0 constructor seasoned_constructor Hchr)
    as [Hstart _]. fold l in Hstart.
  destruct (settle_shape l id _ (equipped_run tr _ equipped_constructor)
              Hb eq_refl Hc) as (cb & ctx & Hcb & Hctx & _ & Hseg & _).
  destruct (Uint8Array_bytes d) as (Hlen & Hrange & Hsame).
  apply orb_false_elim in Hc as [Hd Ha].
  exists cb, ctx, (Uint8Array d). simpl. rewrite (Hseg now d eq_refl). simpl.
  unfold on_thrown, on_rejected. simpl. rewrite Hd, Ha, Hcb, Hctx. simpl.
  rewrite Hlen. repeat split; try done. lia.
Qed.

Lemma segment_success_stats_witness :
  let cb := {| handle := 1; hasOnAbort := false |} in
  let ctx := {| url := "https://cdn/seg-17.ts" |} in
  let l := run constructor [Load 5 ctx cb] in
  exists cb' ctx' bytes,
    let l' := settle 9 0 (numbers [71; 64; 300; -1]) l in
    calls l' =
      calls l ++ [onSuccess cb' {| response_url := url ctx';
                                   data := ArrayBuffer bytes |}
                    (stats l') ctx'] /\
    (forall err,
       calls (step l' (Thrown err)) =
         calls l' ++ [onError cb' 0 err ctx' (stats l')] /\
       stats (step l' (Thrown err)) = stats l') /\
    length bytes = length [71; 64; 300; -1] /\
    Forall is_byte bytes /\
    (forall i n, [71; 64; 300; -1] !! i = Some n -> 0 <= n < 256 ->
                 bytes !! i = Some n) /\
    loaded (stats l') = length [71; 64; 300; -1] /\
    total (stats l') = length [71; 64; 300; -1] /\
    start (loading (stats l')) <= end_ (loading (stats l')).
Proof.
  intros cb ctx.
  apply (segment_success_stats [Load 5 ctx cb] 9 0 (url ctx)
           [71; 64; 300; -1]).
  - simpl. lia.
  - simpl. lia.
  - reflexivity.
  - reflexivity.
Defined.

(** A bridge call that fails, on a loader that was neither aborted nor
    destroyed: exactly one call is made, [onError] with code 0 and the
    cause as text; the stats are left as they were and no bridge call is
    issued again. *)
Theorem bridge_failure_reported tr now id c err :
  let l := run constructor tr in
  bridge l !! id = Some c ->
  settled c = false ->
  cancelled l = false ->
  exists cb ctx,
    callbacks l = Some cb /\ context l = Some ctx /\
    let l' := settle now id (failure err) l in
    calls l' = calls l ++ [onError cb 0 err ctx (stats l)] /\
    stats l' = stats l /\
    length (bridge l') = length (bridge l).
Proof.
  intros l Hb Hs Hc.
  destruct (settle_shape l id c (equipped_run tr _ equipped_constructor)
              Hb Hs Hc) as (cb & ctx & Hcb & Hctx & _ & _ & Herr).
  exists cb, ctx. split; [done|]. split; [done|]. simpl.
  rewrite (Herr now err). simpl. by rewrite length_alter.
Qed.

Lemma bridge_failure_reported_witness :
  let cb := {| handle := 1; hasOnAbort := false |} in
  let ctx := {| url := "https://cdn/live.m3u8" |} in
  let l := run constructor [Load 5 ctx cb] in
  exists cb' ctx',
    callbacks l = Some cb' /\ context l = Some ctx' /\
    let l' := settle 6 0 (failure "HTTP 403") l in
    calls l' = calls l ++ [onError cb' 0 "HTTP 403" ctx' (stats l)] /\
    stats l' = stats l /\
    length (bridge l') = length (bridge l).
Proof.
  intros cb ctx.
  apply (bridge_failure_reported [Load 5 ctx cb] 6 0
           {| command := fetch_m3u8; arg_url := url ctx; settled := false |}
           "HTTP 403"); reflexivity.
Defined.

(** *** After [destroy()] *)

Lemma released_step l e :
  is_load e = false -> released l ->
  released (step l e) /\ calls (step l e) = calls l.
Proof.
  intros He [Hcb Hd].
  destruct e as [now ctx cbs| | |now id r|err]; [done|..].
  - simpl. unfold abort. simpl. rewrite Hcb. by split.
  - by split.
  - simpl. assert (Hc : cancelled l = true) by (unfold cancelled; by rewrite Hd).
    destruct (settle_cancelled now id r l Hc) as [_ Hcalls].
    split; [|done]. unfold settle.
    destruct (bridge l !! id) as [c|]; [|done].
    destruct (settled c); [done|].
    unfold loadPlaylist_fulfilled, loadSegment_fulfilled, on_rejected.
    simpl. rewrite Hd. simpl. by destruct (command c), r.
  - simpl. unfold on_thrown, on_rejected. simpl. rewrite Hd. simpl.
    by destruct (running l).
Qed.

(** Once [destroy()] has run, and until [load()] is called again, the
    loader calls nothing at all: [abort()] finds no callbacks object and
    every continuation returns at once. *)
Theorem destroyed_loader_is_silent l tr :
  loads tr = 0%nat ->
  calls (run (destroy l) tr) = calls l.
Proof.
  intros Hn.
  assert (H : forall l', released l' -> calls (run l' tr) = calls l').
  { revert Hn. induction tr as [|e tr IH]; intros Hn l' Hr; [done|].
    unfold loads in Hn. simpl in Hn.
    destruct (is_load e) eqn:He; [done|].
    destruct (released_step l' e He Hr) as [Hr' Hc'].
    simpl. rewrite (IH Hn _ Hr'). done. }
  by rewrite H.
Qed.

Lemma destroyed_loader_is_silent_witness :
  let cb := {| handle := 1; hasOnAbort := true |} in
  let l := load 5 {| url := "https://cdn/live.m3u8" |} cb constructor in
  calls (run (destroy l) [Abort; Settle 7 0 (text "#EXTM3U"); Abort]) =
    calls l.
Proof.
  intros cb l.
  apply (destroyed_loader_is_silent l
           [Abort; Settle 7 0 (text "#EXTM3U"); Abort]).
  reflexivity.
Defined.

(** *** The context slot *)

Lemma settle_slot now id r l :
  context (settle now id r l) = context l /\
  start (loading (stats (settle now id r l))) = start (loading (stats l)).
Proof.
  unfold settle. destruct (bridge l !! id) as [c|]; [|done].
  destruct (settled c); [done|].
  destruct (command c), r as [d|d|err]; try done.
  - by destruct (frame_playlist now d (set_running false (mark_settled id l)))
      as (-> & _ & _ & _ & ->).
  - by destruct (frame_rejected err (set_running false (mark_settled id l)))
      as (-> & _ & _ & _ & ->).
  - by destruct (frame_segment now d (set_running false (mark_settled id l)))
      as (-> & _ & _ & _ & ->).
  - by destruct (frame_rejected err (set_running false (mark_settled id l)))
      as (-> & _ & _ & _ & ->).
Qed.

Lemma last_load_run tr l :
  (context (run l tr), start (loading (stats (run l tr)))) =
    last_load (context l) (start (loading (stats l))) tr.
Proof.
  revert l. induction tr as [|e tr IH]; intros l; [done|].
  simpl. rewrite IH. destruct e as [now ctx cbs| | |now id r|err]; simpl.
  - f_equal; unfold load, loadPlaylist, loadSegment, invoke;
      by destruct (isPlaylist ctx).
  - by destruct (abort_fields l) as (-> & _ & _ & _ & ->).
  - done.
  - by destruct (settle_slot now id r l) as [-> ->].
  - unfold on_thrown. destruct (running l); [|done].
    by destruct (frame_rejected err (set_running false l))
      as (-> & _ & _ & _ & ->).
Qed.

(** The instance has one context slot: the response handed to [onSuccess]
    carries the address of the most recent [load()] of the instance, and
    [loading.start] is the clock reading of that [load()], whatever address
    the bridge call that settles was issued for. *)
Theorem response_names_last_load tr now id u d :
  let l := run constructor tr in
  bridge l !! id =
    Some {| command := fetch_m3u8; arg_url := u; settled := false |} ->
  cancelled l = false ->
  exists cb ctx,
    last_load None 0 tr = (Some ctx, start (loading (stats l))) /\
    let l' := settle now id (text d) l in
    calls l' =
      calls l ++ [onSuccess cb {| response_url := url ctx; data := Text d |}
                    (stats l') ctx].
Proof.
  intros l Hb Hc.
  destruct (settle_shape l id _ (equipped_run tr _ equipped_constructor)
              Hb eq_refl Hc) as (cb & ctx & _ & Hctx & Hpl & _).
  exists cb, ctx. split.
  - rewrite <- Hctx. symmetry. apply (last_load_run tr constructor).
  - simpl. by rewrite (Hpl now d eq_refl).
Qed.

Lemma response_names_last_load_witness :
  let cb := {| handle := 1; hasOnAbort := false |} in
  let tr := [Load 5 {| url := "https://cdn/a.m3u8" |} cb;
             Load 6 {| url := "https://cdn/b.m3u8" |} cb] in
  let l := run constructor tr in
  exists cb' ctx,
    last_load None 0 tr = (Some ctx, start (loading (stats l))) /\
    let l' := settle 7 0 (text "#EXTM3U") l in
    calls l' =
      calls l ++ [onSuccess cb' {| response_url := url ctx;
                                   data := Text "#EXTM3U" |}
                    (stats l') ctx].
Proof.
  intros cb tr.
  apply (response_names_last_load tr 7 0 "https://cdn/a.m3u8" "#EXTM3U");
    reflexivity.
Defined.

End LoaderOutcomes.

(** ** The chat hook: the seen set, the history, reconnection *)

Section ChatMore.
Import Chat ChatTrace.

Implicit Types (s : UseChat) (e : Event) (tr : list Event) (rv : Revision).

Lemma seenIds_by_content_step s e :
  seenIdsRef (step by_content s e) = seenIdsRef s.
Proof.
  destruct e as [c|now m|c|i]; simpl.
  - unfold render. destruct (strict_eq c (hook_channel s)); [done|].
    unfold channel_effect. simpl.
    destruct c as [c|]; [destruct (JS.truthy c)|]; done.
  - unfold on_chat_message. by destruct (negb _).
  - unfold on_chat_disconnected. by destruct (strict_eq _ _).
  - unfold on_timer. destruct (timers s !! i) as [t|]; [|done].
    destruct (elapsed t); [done|].
    destruct (strict_eq _ _); [|done]. by destruct (closure_channel t).
Qed.

Lemma seenIds_by_content tr s :
  seenIdsRef (run by_content s tr) = seenIdsRef s.
Proof.
  revert s. induction tr as [|e tr IH]; intros s; [done|].
  simpl. by rewrite IH, seenIds_by_content_step.
Qed.

(** The set of seen ids never holds more than 500 ids, holds none twice
    and never holds the empty id; the revision that compares contents
    keeps it empty. *)
Theorem seen_ids_are_bounded rv c0 tr :
  let s := run rv (mount rv c0) tr in
  (length (seenIdsRef s) <= 500)%nat /\
  NoDup (seenIdsRef s) /\
  Forall (fun i => i ≠ ""%string) (seenIdsRef s) /\
  match rv with
  | by_id => True
  | by_content => seenIdsRef s = []
  end.
Proof.
  intros s. destruct rv.
  - destruct (window_tracked tr (mount by_id c0, [])) as [H1 (H2 & H3 & H4)].
    { simpl. rewrite seenIds_mount. apply window_nil. }
    simpl in H1. subst s. rewrite <- H1.
    split; [rewrite H2, length_drop; lia|]. split; [done|].
    split; [|done]. eapply Forall_impl; [exact H4|].
    by intros [|? ?].
  - assert (E : seenIdsRef s = []).
    { subst s. rewrite seenIds_by_content. unfold mount, channel_effect.
      simpl. destruct c0 as [c|]; [destruct (JS.truthy c)|]; done. }
    rewrite E. split; [simpl; lia|]. split; [constructor|].
    split; [constructor | done].
Qed.

(** While no channel is selected ([null] or the empty string) the history
    is empty and every chat event that arrives is dropped. *)
Theorem nothing_delivered_without_channel rv c0 tr :
  let s := run rv (mount rv c0) tr in
  JS.truthy_opt (hook_channel s) = false ->
  currentChannelRef s = None /\
  messages s = [] /\
  forall now m, on_chat_message rv now m s = s.
Proof.
  intros s Hf.
  assert (Hs : consistent s) by apply consistent_run, consistent_mount.
  destruct Hs as (H1 & H2 & _). rewrite Hf in H2.
  split; [done|]. split.
  - destruct (messages s) as [|m ms]; [done|].
    apply Forall_cons in H1 as [Hm _]. congruence.
  - intros now m. apply stale_message_dropped. by rewrite H2.
Qed.

Lemma nothing_delivered_without_channel_witness :
  let s := run by_id (mount by_id (Some "alpha"%string))
             [ChatMessageEvent 1 (ann_says_hi "1"); Render None] in
  currentChannelRef s = None /\
  messages s = [] /\
  forall now m, on_chat_message by_id now m s = s.
Proof.
  intros s.
  apply (nothing_delivered_without_channel by_id (Some "alpha"%string)
           [ChatMessageEvent 1 (ann_says_hi "1"); Render None]).
  reflexivity.
Defined.

Lemma messages_step rv s e :
  messages (step rv s e) `sublist_of` messages s ++ arrivals [e].
Proof.
  destruct e as [c|now m|c|i]; simpl; rewrite ?app_nil_r.
  - unfold render. destruct (strict_eq c (hook_channel s)); [done|].
    unfold channel_effect. simpl.
    destruct c as [c|]; [destruct (JS.truthy c)|]; simpl;
      destruct rv; simpl; apply sublist_nil_l.
  - unfold on_chat_message.
    destruct (negb _); [by apply sublist_inserts_r|].
    destruct rv.
    + destruct (seen_before _ _); [by apply sublist_inserts_r|].
      simpl. rewrite append_spec. apply sublist_drop.
    + simpl. unfold update_by_content.
      destruct (JS.at_last (messages s)) as [lastMsg|];
        [destruct (_ && _)|]; try (by apply sublist_inserts_r);
        rewrite append_spec; apply sublist_drop.
  - unfold on_chat_disconnected. by destruct (strict_eq _ _).
  - unfold on_timer. destruct (timers s !! i) as [t|]; [|done].
    destruct (elapsed t); [done|].
    destruct (strict_eq _ _); [|done]. by destruct (closure_channel t).
Qed.

Lemma arrivals_cons e tr : arrivals (e :: tr) = arrivals [e] ++ arrivals tr.
Proof. by destruct e. Qed.

Lemma messages_run rv tr s :
  messages (run rv s tr) `sublist_of` messages s ++ arrivals tr.
Proof.
  revert s. induction tr as [|e tr IH]; intros s.
  - simpl. by rewrite app_nil_r.
  - change (run rv s (e :: tr)) with (run rv (step rv s e) tr).
    etrans; [apply IH|].
    rewrite (arrivals_cons e tr), app_assoc.
    apply sublist_app; [apply messages_step | done].
Qed.

(** The history is made of the payloads that arrived and of nothing else,
    each at most once per arrival and in the order of arrival, and each
    carries the reading of [Date.now()] at its arrival as its timestamp in
    place of the one it came with. *)
Theorem history_follows_arrivals rv c0 tr :
  messages (run rv (mount rv c0) tr) `sublist_of` arrivals tr.
Proof.
  assert (E : messages (mount rv c0) = []).
  { unfold mount, channel_effect. simpl.
    destruct c0 as [c|]; [destruct (JS.truthy c)|]; by destruct rv. }
  pose proof (messages_run rv tr (mount rv c0)) as H. by rewrite E in H.
Qed.

(** *** How often the hook connects *)

Lemma waiting_elapse (ts : list Reconnect) i t :
  ts !! i = Some t -> elapsed t = false ->
  length (List.filter (fun t => negb (elapsed t)) ts) =
    S (length (List.filter (fun t => negb (elapsed t))
         (alter (fun t => {| disconnectedChannel := disconnectedChannel t;
                             closure_channel := closure_channel t;
                             elapsed := true |}) i ts))).
Proof.
  revert i. induction ts as [|x ts IH]; intros [|i] Hl He; simplify_eq/=.
  - by rewrite He.
  - destruct (elapsed x); simpl; by rewrite (IH i).
Qed.

Lemma connects_step rv s e :
  (length (connect_to_chat (step rv s e)) + waiting (step rv s e) <=
   length (connect_to_chat s) + waiting s
   + (if is_render e then 1 else 0) + (if is_disconnect e then 1 else 0))%nat.
Proof.
  destruct e as [c|now m|c|i]; simpl.
  - unfold render. destruct (strict_eq c (hook_channel s)); [lia|].
    unfold channel_effect, waiting. simpl.
    destruct c as [c|]; [destruct (JS.truthy c)|]; simpl;
      destruct rv; simpl; rewrite ?length_app; simpl; lia.
  - unfold on_chat_message, waiting.
    destruct (negb _); [lia|].
    destruct rv; [destruct (seen_before _ _)|]; simpl; lia.
  - unfold on_chat_disconnected, waiting.
    destruct (strict_eq _ _); simpl; [|lia].
    rewrite List.filter_app, length_app. simpl. lia.
  - unfold on_timer. destruct (timers s !! i) as [t|] eqn:Ht; [|lia].
    destruct (elapsed t) eqn:He; [lia|].
    pose proof (waiting_elapse _ i t Ht He) as Hw.
    unfold waiting.
    destruct (strict_eq _ _); [destruct (closure_channel t)|]; simpl;
      rewrite ?length_app; simpl; lia.
Qed.

Lemma connects_run rv tr s :
  (length (connect_to_chat (run rv s tr)) + waiting (run rv s tr) <=
   length (connect_to_chat s) + waiting s
   + length (List.filter is_render tr)
   + length (List.filter is_disconnect tr))%nat.
Proof.
  revert s. induction tr as [|e tr IH]; intros s; simpl; [lia|].
  etrans; [apply IH|]. pose proof (connects_step rv s e).
  destruct (is_render e), (is_disconnect e); simpl; lia.
Qed.

(** The hook calls [connect_to_chat] at most once for the first render,
    once per later render and once per [chat-disconnected] notification: a
    reconnect that fails is not tried again by the hook itself. *)
Theorem connects_are_bounded rv c0 tr :
  (length (connect_to_chat (run rv (mount rv c0) tr)) <=
   1 + length (List.filter is_render tr)
   + length (List.filter is_disconnect tr))%nat.
Proof.
  pose proof (connects_run rv tr (mount rv c0)) as H.
  assert (H0 : (length (connect_to_chat (mount rv c0))
                + waiting (mount rv c0) <= 1)%nat).
  { unfold mount, channel_effect, waiting. simpl.
    destruct c0 as [c|]; [destruct (JS.truthy c)|]; destruct rv; simpl; lia. }
  lia.
Qed.

End ChatMore.

(** ** Sending a chat message *)

Section ChatSendFacts.
Import ChatSend.

Lemma trimStart_first s c :
  first_char (trimStart s) = Some c -> is_white_space c = false.
Proof.
  induction s as [|a s IH]; simpl; [done|].
  destruct (is_white_space a) eqn:Ha; [done|].
  simpl. by intros [= <-].
Qed.

Lemma trimEnd_first s c :
  first_char (trimEnd s) = Some c -> first_char s = Some c.
Proof.
  destruct s as [|a s]; simpl; [done|].
  destruct (trimEnd s); [destruct (is_white_space a)|]; simpl; done.
Qed.

Lemma trimEnd_last s c :
  last_char (trimEnd s) = Some c -> is_white_space c = false.
Proof.
  induction s as [|a s IH]; simpl; [done|].
  destruct (trimEnd s) as [|b rest] eqn:E.
  - destruct (is_white_space a) eqn:Ha; simpl; [done|]. by intros [= <-].
  - simpl. exact IH.
Qed.

Lemma trim_trimmed s : trimmed (trim s).
Proof.
  unfold trim. split; intros c H.
  - by apply (trimStart_first s), trimEnd_first.
  - by apply (trimEnd_last (trimStart s)).
Qed.

Lemma truthy_nonempty s : JS.truthy s = true <-> s ≠ ""%string.
Proof. by destruct s. Qed.

Lemma trimEnd_empty s : trimEnd s = ""%string <-> blank s = true.
Proof.
  induction s as [|a s IH]; simpl; [done|].
  rewrite andb_true_iff, <- IH.
  destruct (trimEnd s); [destruct (is_white_space a)|]; split;
    try done; intros []; done.
Qed.

Lemma blank_trimStart s : blank (trimStart s) = blank s.
Proof.
  induction s as [|a s IH]; simpl; [done|].
  destruct (is_white_space a) eqn:Ha; simpl; [done | by rewrite Ha].
Qed.

Lemma trim_empty s : trim s = ""%string <-> blank s = true.
Proof. unfold trim. by rewrite trimEnd_empty, blank_trimStart. Qed.

(** [sendMessage] sends nothing while logged out, and nothing when the
    text holds white space only; otherwise it sends the text without the
    white space at its two ends, which is never empty.  [handleSend]
    empties the input box whenever the text is not blank, also when
    nothing could be sent. *)
Theorem sent_message_is_trimmed isLoggedIn message sent :
  (isLoggedIn = false -> sendMessage isLoggedIn message sent = sent) /\
  (blank message = true -> sendMessage isLoggedIn message sent = sent) /\
  (isLoggedIn = true -> blank message = false ->
   sendMessage isLoggedIn message sent = sent ++ [trim message] /\
   trim message ≠ ""%string /\
   trimmed (trim message)) /\
  (blank message = false ->
   handleSend isLoggedIn
     {| chatInput := message; send_chat_message := sent |} =
     {| chatInput := "";
        send_chat_message := sendMessage isLoggedIn message sent |}).
Proof.
  assert (Hnb : blank message = false -> JS.truthy (trim message) = true).
  { intros Hb. apply truthy_nonempty. rewrite trim_empty. congruence. }
  split; [|split; [|split]].
  - intros ->. unfold sendMessage. by rewrite orb_true_r.
  - intros E. apply trim_empty in E. unfold sendMessage. by rewrite E.
  - intros -> Hb. unfold sendMessage. rewrite (Hnb Hb). simpl.
    split; [done|]. split; [by apply truthy_nonempty, Hnb | apply trim_trimmed].
  - intros Hb. unfold handleSend. simpl. by rewrite (Hnb Hb).
Qed.

Lemma sent_message_is_trimmed_witness :
  sendMessage true "  hello chat  " [] = ["hello chat"%string] /\
  "hello chat"%string ≠ ""%string /\
  trimmed "hello chat".
Proof.
  destruct (sent_message_is_trimmed true "  hello chat  " [])
    as (_ & _ & H & _).
  apply H; reflexivity.
Defined.

End ChatSendFacts.

(** ** The emote hook: what a published table holds *)

Section EmoteTableFacts.
Import Emotes EmoteTables.

Implicit Types (s : UseEmotes) (e : Event) (tr : list Event).

Lemma Map_get_set_all_last entries acc k :
  JS.Map_get (JS.set_all entries acc) k =
    match lookup_last entries k with
    | Some v => Some v
    | None => JS.Map_get acc k
    end.
Proof.
  revert acc. induction entries as [|[k0 v0] es IH]; intros acc; [done|].
  simpl. rewrite IH, Map_get_set.
  destruct (lookup_last es k); [done|].
  by destruct (String.eqb k0 k).
Qed.

Lemma Map_get_new_last entries k :
  JS.Map_get (JS.Map_new entries) k = lookup_last entries k.
Proof.
  unfold JS.Map_new. rewrite Map_get_set_all_last.
  by destruct (lookup_last entries k).
Qed.

Lemma lookup_last_omap {A} (f : A -> option (string * string)) xs k v :
  lookup_last (omap f xs) k = Some v ->
  exists x, x ∈ xs /\ f x = Some (k, v).
Proof.
  induction xs as [|x xs IH]; csimpl; [done|].
  destruct (f x) as [[k0 v0]|] eqn:Hf; simpl.
  - destruct (lookup_last (omap f xs) k) as [v'|] eqn:Hl.
    + intros [= <-]. destruct (IH eq_refl) as (y & Hy & Hfy).
      exists y. split; [by right | done].
    + destruct (String.eqb_spec k0 k) as [->|]; [|done].
      intros [= <-]. exists x. split; [by left | done].
  - intros H. destruct (IH H) as (y & Hy & Hfy).
    exists y. split; [by right | done].
Qed.

(** A render keeps the tables and the badges, and only extends the heap. *)
Lemma render_tables s :
  good s ->
  exists ext,
    heap (render s) = heap s ++ ext /\
    twitchGlobalEmotes (render s) = twitchGlobalEmotes s /\
    globalEmotes (render s) = globalEmotes s /\
    twitchChannelEmotes (render s) = twitchChannelEmotes s /\
    channelEmotes (render s) = channelEmotes s.
Proof.
  intros [Hu (H1 & H2 & H3 & H4 & H5)].
  unfold render. case_bool_decide as Hd.
  - exists []. by rewrite app_nil_r.
  - destruct (lookup_lt_is_Some_2 _ _ H1) as [g Hg].
    destruct (lookup_lt_is_Some_2 _ _ H2) as [tg Htg].
    destruct (lookup_lt_is_Some_2 _ _ H3) as [c Hc].
    destruct (lookup_lt_is_Some_2 _ _ H4) as [tc Htc].
    rewrite (combine_spec s tg g tc c) by done. by eexists.
Qed.

Lemma handle_global_emotes s emoteList :
  handle s (GlobalEmotesSettled (fulfilled emoteList)) =
    setGlobalEmotes (length (heap s))
      (set_heap (heap s ++ [JS.Map_new (emote_entry <$> emoteList)]) s).
Proof.
  unfold handle, loadGlobalEmotes_settled. by rewrite build_emoteMap_spec.
Qed.

Lemma handle_twitch_global_emotes s data :
  handle s (TwitchGlobalEmotesSettled (fulfilled (Some data))) =
    setTwitchGlobalEmotes (length (heap s))
      (set_heap (heap s ++ [JS.Map_new (omap twitch_entry data)]) s).
Proof.
  unfold handle, loadTwitchGlobalEmotes_settled.
  by rewrite build_twitchEmoteMap_spec.
Qed.

(** When the third-party global emotes arrive, the published table maps
    each name to the address of the last emote of that name in the list
    (and to nothing when the list has none), and the merged map follows;
    the other tables are the objects they were. *)
Theorem global_emotes_published tr emoteList :
  let s := run mount tr in
  let s' := step s (GlobalEmotesSettled (fulfilled emoteList)) in
  (forall k, heap_get (heap s') (globalEmotes s') k =
             lookup_last (emote_entry <$> emoteList) k) /\
  twitchGlobalEmotes s' = twitchGlobalEmotes s /\
  channelEmotes s' = channelEmotes s /\
  twitchChannelEmotes s' = twitchChannelEmotes s /\
  (forall k, heap_get (heap s') (allEmotes s') k = by_precedence s' k).
Proof.
  intros s s'.
  assert (Hs : sound s) by apply sound_run, sound_mount.
  set (e := GlobalEmotesSettled (fulfilled emoteList)) in s'.
  assert (Hg : good (handle s e)) by (apply handle_good; split; apply Hs).
  destruct (render_tables (handle s e) Hg) as (ext & Hh & Htg & Hge & Htc & Hc).
  assert (Hs' : sound s') by (by apply step_sound).
  split; [|split; [|split; [|split]]].
  - intros k. subst s'. unfold step, heap_get. rewrite Hh, Hge.
    subst e. rewrite handle_global_emotes. simpl.
    rewrite <- app_assoc. simpl. rewrite list_lookup_middle by done.
    apply Map_get_new_last.
  - subst s'. unfold step. rewrite Htg. subst e.
    by rewrite handle_global_emotes.
  - subst s'. unfold step. rewrite Hc. subst e.
    by rewrite handle_global_emotes.
  - subst s'. unfold step. rewrite Htc. subst e.
    by rewrite handle_global_emotes.
  - by destruct Hs' as (_ & _ & _ & ?).
Qed.

(** When the Twitch global emotes arrive, every entry of the published
    table has a name and an address that are not empty, and comes from an
    emote of the list that has images: the address is its 2x image, or its
    1x image when it has no 2x image. *)
Theorem twitch_emotes_published tr data k u :
  let s := run mount tr in
  let s' := step s (TwitchGlobalEmotesSettled (fulfilled (Some data))) in
  heap_get (heap s') (twitchGlobalEmotes s') k = Some u ->
  k ≠ ""%string /\ u ≠ ""%string /\
  exists (emote : TwitchEmote) i,
    emote ∈ data /\ emote_name emote = k /\ images emote = Some i /\
    u = (if JS.truthy (url_2x i) then url_2x i else url_1x i).
Proof.
  intros s s'.
  assert (Hs : sound s) by apply sound_run, sound_mount.
  set (ev := TwitchGlobalEmotesSettled (fulfilled (Some data))) in s'.
  assert (Hg : good (handle s ev)) by (apply handle_good; split; apply Hs).
  destruct (render_tables (handle s ev) Hg) as (ext & Hh & Htg & _).
  subst s'. unfold step, heap_get. rewrite Hh, Htg.
  subst ev. rewrite handle_twitch_global_emotes. simpl.
  rewrite <- app_assoc. simpl. rewrite list_lookup_middle by done.
  rewrite Map_get_new_last. intros Hl.
  destruct (lookup_last_omap _ _ _ _ Hl) as (em & He & Hf).
  unfold twitch_entry, twitch_url in Hf.
  destruct (images em) as [i|] eqn:Hi; [|done].
  destruct (JS.truthy (emote_name em)) eqn:Hn; [|done].
  destruct (JS.truthy (if JS.truthy (url_2x i) then url_2x i else url_1x i))
    eqn:Hu; [|done].
  simpl in Hf. injection Hf as <- <-.
  split; [by destruct (emote_name em)|].
  split; [by destruct (if JS.truthy (url_2x i) then url_2x i else url_1x i)|].
  by exists em, i.
Qed.

Lemma twitch_emotes_published_witness :
  let s := run mount [] in
  let s' := step s (TwitchGlobalEmotesSettled
                      (fulfilled (Some [twitch_Kappa]))) in
  "Kappa"%string ≠ ""%string /\ "twitch/kappa-2.png"%string ≠ ""%string /\
  exists (emote : TwitchEmote) i,
    emote ∈ [twitch_Kappa] /\ emote_name emote = "Kappa"%string /\
    images emote = Some i /\
    "twitch/kappa-2.png"%string =
      (if JS.truthy (url_2x i) then url_2x i else url_1x i).
Proof.
  intros s s'.
  apply (twitch_emotes_published [] [twitch_Kappa] "Kappa"
           "twitch/kappa-2.png").
  reflexivity.
Defined.

Lemma publishes_nothing_handle s e :
  publishes_nothing e = true ->
  heap (handle s e) = heap s /\ deps (handle s e) = deps s /\
  memo_deps (handle s e) = memo_deps s /\
  allEmotes (handle s e) = allEmotes s /\
  channelBadges (handle s e) = channelBadges s.
Proof.
  destruct e as [[?|?]|[[?|]|?]|[?|?]|[?|?] [?|?] [?|?]]; simpl; done.
Qed.

(** An event that publishes no emote table (a rejected load, a response
    without a list, the global badges) leaves the heap as it is and the
    merged map the same object: nothing is allocated and the memo is
    kept. *)
Theorem merged_map_is_memoised tr e :
  let s := run mount tr in
  publishes_nothing e = true ->
  heap (step s e) = heap s /\
  allEmotes (step s e) = allEmotes s /\
  deps (step s e) = deps s.
Proof.
  intros s He.
  assert (Hs : sound s) by apply sound_run, sound_mount.
  destruct Hs as (_ & _ & Hm & _).
  destruct (publishes_nothing_handle s e He) as (Hh & Hd & Hm' & Ha & _).
  unfold step. rewrite render_idle by congruence. done.
Qed.

Lemma merged_map_is_memoised_witness :
  let s := run mount [GlobalEmotesSettled (fulfilled [Kappa])] in
  let e := GlobalBadgesSettled
             (fulfilled [{| setID := "subscriber"; version := "1";
                            imageURL := "badges/sub-1.png" |}]) in
  heap (step s e) = heap s /\
  allEmotes (step s e) = allEmotes s /\
  deps (step s e) = deps s.
Proof.
  intros s e.
  apply (merged_map_is_memoised [GlobalEmotesSettled (fulfilled [Kappa])] e).
  reflexivity.
Defined.

End EmoteTableFacts.

(** ** [ChatMessageView] *)

Section ChatViewFacts.
Import Emotes Chat ChatView.

Lemma badgeUrl_source cb gb badge u :
  badgeUrl cb gb badge = Some u ->
  exists b, b ∈ cb ++ gb /\ setID b = badge.1 /\ version b = badge.2 /\
            imageURL b = u.
Proof.
  unfold badgeUrl.
  destruct (List.find _ cb) as [b|] eqn:Hc.
  - intros [= <-]. apply List.find_some in Hc as [Hin Hm].
    apply andb_true_iff in Hm as [H1 H2].
    apply String.eqb_eq in H1, H2. exists b.
    split; [apply elem_of_app; left; by apply list_elem_of_In | done].
  - destruct (List.find _ gb) as [b|] eqn:Hg; [|done].
    intros [= <-]. apply List.find_some in Hg as [Hin Hm].
    apply andb_true_iff in Hm as [H1 H2].
    apply String.eqb_eq in H1, H2. exists b.
    split; [apply elem_of_app; right; by apply list_elem_of_In | done].
Qed.

Lemma badgeUrl_channel_first cb gb gb' badge b :
  List.find (is_badge badge.1 badge.2) cb = Some b ->
  badgeUrl cb gb badge = badgeUrl cb gb' badge.
Proof. intros H. unfold badgeUrl. by rewrite H. Qed.

Lemma badgeUrl_unresolved cb gb badge :
  (forall b, b ∈ cb ++ gb -> is_badge badge.1 badge.2 b = false) ->
  badgeUrl cb gb badge = None.
Proof.
  intros H. unfold badgeUrl.
  destruct (List.find _ cb) as [b|] eqn:Hc.
  { apply List.find_some in Hc as [Hin Hm].
    rewrite H in Hm; [done|]. apply elem_of_app. left.
    by apply list_elem_of_In. }
  destruct (List.find _ gb) as [b|] eqn:Hg; [|done].
  apply List.find_some in Hg as [Hin Hm].
  rewrite H in Hm; [done|]. apply elem_of_app. right.
  by apply list_elem_of_In.
Qed.

Lemma find_app {A} (f : A -> bool) (xs ys : list A) :
  List.find f (xs ++ ys) =
    match List.find f xs with
    | Some x => Some x
    | None => List.find f ys
    end.
Proof.
  induction xs as [|x xs IH]; [done|]. simpl. by destruct (f x).
Qed.

(** The callback resolves a pair to the first badge matching it in the
    channel table followed by the global table. *)
Lemma badgeUrl_first_match cb gb badge :
  badgeUrl cb gb badge =
    imageURL <$> List.find (is_badge badge.1 badge.2) (cb ++ gb).
Proof.
  unfold badgeUrl. rewrite find_app.
  destruct (List.find _ cb); [done|]. by destruct (List.find _ gb).
Qed.

(** The badges drawn for a message are, in the order of the pairs of the
    message, the image addresses of the first badge matching each pair in
    the channel table followed by the global table, the pairs without a
    match and the empty addresses left out.  So a pair that a channel
    badge matches is drawn with the address of the first such channel
    badge, whatever the global table holds, and a pair without a channel
    match with the address of the first global badge that matches it.
    There are never more badges than pairs; each is the image address, not
    empty, of a badge of one of the tables whose set and version are a pair
    of the message; and a message none of whose pairs is matched in either
    table gets no badge. *)
Theorem badges_resolve_channel_first msg cb gb :
  badgeUrls msg cb gb =
    List.filter JS.truthy_opt
      (List.map
         (fun badge =>
            imageURL <$> List.find (is_badge badge.1 badge.2) (cb ++ gb))
         (badges msg)) /\
  (forall badge b,
     List.find (is_badge badge.1 badge.2) cb = Some b ->
     badgeUrl cb gb badge = Some (imageURL b)) /\
  (forall badge b,
     List.find (is_badge badge.1 badge.2) cb = None ->
     List.find (is_badge badge.1 badge.2) gb = Some b ->
     badgeUrl cb gb badge = Some (imageURL b)) /\
  (length (badgeUrls msg cb gb) <= length (badges msg))%nat /\
  (forall o, o ∈ badgeUrls msg cb gb ->
     exists u badge b,
       o = Some u /\ u ≠ ""%string /\ badge ∈ badges msg /\
       b ∈ cb ++ gb /\ setID b = badge.1 /\ version b = badge.2 /\
       imageURL b = u) /\
  (forall gb',
     Forall (fun badge =>
               is_Some (List.find (is_badge badge.1 badge.2) cb))
       (badges msg) ->
     badgeUrls msg cb gb = badgeUrls msg cb gb') /\
  (Forall (fun badge =>
             forall b, b ∈ cb ++ gb -> is_badge badge.1 badge.2 b = false)
     (badges msg) ->
   badgeUrls msg cb gb = []).
Proof.
  unfold badgeUrls. split; [|split; [|split; [|split; [|split; [|split]]]]].
  - f_equal. apply List.map_ext. intros badge. apply badgeUrl_first_match.
  - intros badge b Hc. unfold badgeUrl. by rewrite Hc.
  - intros badge b Hc Hg. unfold badgeUrl. by rewrite Hc, Hg.
  - etrans; [apply List.filter_length_le|]. by rewrite length_map.
  - intros o Ho. apply list_elem_of_In, List.filter_In in Ho as [Hin Ht].
    apply List.in_map_iff in Hin as (badge & Hb & Hin).
    destruct o as [u|]; [|done]. simpl in Ht.
    destruct (badgeUrl_source _ _ _ _ Hb) as (b & ? & ? & ? & ?).
    exists u, badge, b. repeat split; try done.
    + by destruct u.
    + by apply list_elem_of_In.
  - intros gb' H. f_equal. induction H as [|badge bs [b Hb] _ IH]; [done|].
    simpl. by rewrite IH, (badgeUrl_channel_first cb gb gb' badge b Hb).
  - intros H. induction H as [|badge bs Hb _ IH]; [done|].
    simpl. by rewrite (badgeUrl_unresolved cb gb badge Hb).
Qed.

Lemma badges_resolve_channel_first_witness :
  let sub := {| setID := "subscriber"; version := "3";
                imageURL := "channel/sub-3.png" |} in
  let msg := {| id := None; user := "ann"; message := "hi"; color := None;
                badges := [("subscriber", "3")]%string; timestamp := 0;
                channel := "alpha" |} in
  let global := {| setID := "subscriber"; version := "3";
                   imageURL := "global/sub-3.png" |} in
  badgeUrl [sub] [global] ("subscriber", "3")%string =
    Some "channel/sub-3.png"%string /\
  badgeUrls msg [sub] [] = badgeUrls msg [sub] [global].
Proof.
  intros sub msg global.
  destruct (badges_resolve_channel_first msg [sub] [])
    as (_ & _ & _ & _ & _ & H & _).
  destruct (badges_resolve_channel_first msg [sub] [global])
    as (_ & Hchannel & _).
  split.
  - by apply (Hchannel ("subscriber", "3")%string sub).
  - apply H. repeat constructor. by eexists.
Defined.

Lemma split_nonempty s sep : split s sep ≠ [].
Proof.
  destruct s as [|c s]; simpl; [done|].
  destruct (Ascii.eqb c sep); [done|]. by destruct (split s sep).
Qed.

Lemma split_spells s :
  concat_strings
    (List.map (fun w => String.append w " ") (split s Ascii.Space)) =
  String.append s " ".
Proof.
  induction s as [|c s IH]; [done|].
  cbn [split]. destruct (Ascii.eqb_spec c Ascii.Space) as [->|Hne].
  - transitivity (String Ascii.Space (String.append s " ")); [|done].
    by rewrite <- IH.
  - destruct (split s Ascii.Space) as [|w ws] eqn:E;
      [by apply split_nonempty in E|].
    transitivity (String c (String.append s " ")); [|done].
    by rewrite <- IH.
Qed.

(** Drawing a message loses no text: the parts, read in order, with an
    image read as its word and a space, spell the message and a space; and
    there is one part per piece between spaces. *)
Theorem parts_spell_message msg emotes :
  concat_strings (List.map spelled (parts msg emotes)) =
    String.append (message msg) " " /\
  length (parts msg emotes) = length (split (message msg) Ascii.Space).
Proof.
  unfold parts. split; [|by rewrite length_map].
  rewrite List.map_map. rewrite <- split_spells. f_equal.
  apply List.map_ext. intros w.
  destruct (JS.Map_get emotes w) as [u|]; [destruct (JS.truthy u)|]; done.
Qed.

End ChatViewFacts.

(** ** [useSearch] *)

Section SearchFacts.
Import Search.

Implicit Types (s : UseSearch) (e : Event) (tr : list Event).

Lemma truthy_trim_blank q :
  JS.truthy (ChatSend.trim q) = negb (ChatSend.blank q).
Proof.
  destruct (ChatSend.blank q) eqn:Hb.
  - apply trim_empty in Hb. by rewrite Hb.
  - destruct (ChatSend.trim q) eqn:Ht; [|done].
    apply trim_empty in Ht. congruence.
Qed.

Lemma clear_current_idle s :
  debounced s ->
  idle (clear_current s) /\
  query (clear_current s) = query s /\
  search_channels (clear_current s) = search_channels s /\
  results (clear_current s) = results s /\
  showResults (clear_current s) = showResults s /\
  onSelectChannel (clear_current s) = onSelectChannel s.
Proof.
  intros [Hp _]. unfold clear_current.
  destruct (timeoutRef s) as [i|] eqn:Hr.
  - split; [|done]. intros id t. unfold clearTimeout. simpl.
    destruct (decide (i = id)) as [->|Hne].
    + rewrite list_lookup_alter_eq.
      destruct (timers s !! id) as [t0|]; [|done]. simpl. intros [= <-].
      unfold is_pending. destruct (timer_state t0) eqn:E; simpl;
        by rewrite ?E.
    + rewrite list_lookup_alter_ne by done. intros Ht.
      destruct (is_pending t) eqn:Hpt; [|done].
      destruct (Hp id t Ht Hpt) as [? _]. congruence.
  - split; [|done]. intros id t Ht.
    destruct (is_pending t) eqn:Hpt; [|done].
    destruct (Hp id t Ht Hpt) as [? _]. congruence.
Qed.

Lemma clear_current_of_idle s : idle s -> idle (clear_current s).
Proof.
  intros Hi. unfold clear_current.
  destruct (timeoutRef s) as [i|]; [|done].
  intros id t. unfold clearTimeout. simpl.
  destruct (decide (i = id)) as [->|Hne].
  - rewrite list_lookup_alter_eq.
    destruct (timers s !! id) as [t0|]; [|done]. simpl. intros [= <-].
    unfold is_pending. destruct (timer_state t0) eqn:E; simpl;
      by rewrite ?E.
  - rewrite list_lookup_alter_ne by done. apply Hi.
Qed.

Lemma clear_current_fields s :
  query (clear_current s) = query s /\
  search_channels (clear_current s) = search_channels s /\
  results (clear_current s) = results s /\
  showResults (clear_current s) = showResults s /\
  onSelectChannel (clear_current s) = onSelectChannel s.
Proof. unfold clear_current. by destruct (timeoutRef s). Qed.

Lemma debounce_effect_debounced s :
  idle s ->
  Forall (fun c => ChatSend.blank (call_query c) = false) (search_channels s) ->
  debounced (debounce_effect s) /\
  query (debounce_effect s) = query s /\
  search_channels (debounce_effect s) = search_channels s /\
  onSelectChannel (debounce_effect s) = onSelectChannel s /\
  (ChatSend.blank (query s) = true ->
   results (debounce_effect s) = [] /\ showResults (debounce_effect s) = false).
Proof.
  intros Hi Hc. unfold debounce_effect.
  pose proof (clear_current_of_idle s Hi) as Hi'.
  destruct (clear_current_fields s) as (Hq & Hcs & Hr & Hsh & Ho).
  rewrite truthy_trim_blank, Hq.
  destruct (ChatSend.blank (query s)) eqn:Hb; simpl.
  - rewrite Hq, Hcs, Ho. split; [split|]; simpl.
    + intros id t Ht Hp. by rewrite (Hi' id t Ht) in Hp.
    + by rewrite Hcs.
    + done.
  - rewrite Hq, Hcs, Ho. split; [split|]; simpl.
    + intros id t Ht Hp.
      destruct (decide (id = length (timers (clear_current s)))) as [->|Hne].
      * rewrite list_lookup_middle in Ht by done. injection Ht as <-.
        simpl. by rewrite Hq.
      * assert (Ht' : timers (clear_current s) !! id = Some t).
        { apply lookup_app_Some in Ht as [Ht | [Hge Ht]]; [done|].
          destruct (id - length (timers (clear_current s)))%nat eqn:E;
            [lia | done]. }
        by rewrite (Hi' id t Ht') in Hp.
    + by rewrite Hcs.
    + done.
Qed.

Lemma rerender_debounced q s :
  debounced s ->
  debounced (rerender q s) /\
  query (rerender q s) = q /\
  search_channels (rerender q s) = search_channels s /\
  onSelectChannel (rerender q s) = onSelectChannel s.
Proof.
  intros Hd. unfold rerender.
  destruct (String.eqb_spec q (query s)) as [->|Hne]; [done|].
  destruct (clear_current_idle s Hd) as (Hi & _ & Hcs & _ & _ & Ho).
  destruct (debounce_effect_debounced (with_query q (clear_current s)))
    as (H1 & H2 & H3 & H4 & _).
  - exact Hi.
  - simpl. rewrite Hcs. apply Hd.
  - split; [done|]. split; [done|]. simpl in H3, H4.
    by rewrite H3, H4, Hcs, Ho.
Qed.

Lemma debounced_results r s : debounced s -> debounced (setResults r s).
Proof. done. Qed.

Lemma debounced_show b s : debounced s -> debounced (setShowResults b s).
Proof. done. Qed.

Lemma on_timeout_spec id s :
  debounced s ->
  debounced (on_timeout id s) /\
  (search_channels (on_timeout id s) = search_channels s \/
   (search_channels (on_timeout id s) =
      search_channels s ++ [{| call_query := query s; call_settled := false |}]
    /\ ChatSend.blank (query s) = false /\ idle (on_timeout id s))).
Proof.
  intros Hd. pose proof Hd as [Hp Hc]. unfold on_timeout.
  destruct (timers s !! id) as [t|] eqn:Ht; [|split; [done | by left]].
  destruct (timer_state t) eqn:Hst; try (split; [done | by left]).
  assert (Hpt : is_pending t = true) by (unfold is_pending; by rewrite Hst).
  destruct (Hp id t Ht Hpt) as (Hr & Hq & Hb).
  unfold search. rewrite Hq, truthy_trim_blank, Hb. simpl.
  assert (Hidle : forall id' t',
            alter (fun t => {| timer_query := timer_query t;
                               timer_state := fired |}) id (timers s) !! id'
              = Some t' -> is_pending t' = false).
  { intros id' t'. destruct (decide (id = id')) as [<-|Hne].
    - rewrite list_lookup_alter_eq, Ht. simpl. by intros [= <-].
    - rewrite list_lookup_alter_ne by done. intros Ht'.
      destruct (is_pending t') eqn:Hpt'; [|done].
      destruct (Hp id' t' Ht' Hpt') as [? _]. congruence. }
  split.
  - split; simpl.
    + intros id' t' Ht' Hp'. by rewrite (Hidle id' t' Ht') in Hp'.
    + apply Forall_app. split; [done|]. by constructor.
  - right. done.
Qed.

Lemma search_settled_debounced id r s :
  debounced s -> debounced (search_settled id r s).
Proof.
  intros [Hp Hc]. unfold search_settled.
  destruct (search_channels s !! id) as [c|] eqn:Hl; [|done].
  destruct (call_settled c); [done|].
  assert (Hc' : Forall (fun c => ChatSend.blank (call_query c) = false)
                  (alter (fun c => {| call_query := call_query c;
                                      call_settled := true |}) id
                     (search_channels s))).
  { apply Forall_alter; [done|]. by intros c0 _ Hc0. }
  destruct r as [[rs|]|err]; split; simpl; done.
Qed.

Lemma step_debounced s e : debounced s -> debounced (step s e).
Proof.
  intros Hd. destruct e as [q|b|id|id r|r|]; simpl.
  - by apply rerender_debounced.
  - done.
  - by apply on_timeout_spec.
  - by apply search_settled_debounced.
  - unfold selectResult. by apply rerender_debounced.
  - unfold clearSearch. by apply rerender_debounced.
Qed.

Lemma debounced_mount : debounced mount.
Proof. split; [intros [|id] t; done | constructor]. Qed.

Lemma debounced_run tr s : debounced s -> debounced (run s tr).
Proof.
  revert s. induction tr as [|e tr IH]; intros s H; [done|].
  simpl. by apply IH, step_debounced.
Qed.

(** The search is debounced: at any time at most one timer is waiting, and
    it waits for the query that is current; so when a timer elapses the
    hook either searches nothing or searches the current query, which is
    not blank; no blank query is ever sent. *)
Theorem search_is_debounced tr :
  let s := run mount tr in
  (forall id id' t t',
     timers s !! id = Some t -> is_pending t = true ->
     timers s !! id' = Some t' -> is_pending t' = true ->
     id = id' /\ timer_query t = query s) /\
  (forall id,
     search_channels (on_timeout id s) = search_channels s \/
     (search_channels (on_timeout id s) =
        search_channels s
        ++ [{| call_query := query s; call_settled := false |}]
      /\ ChatSend.blank (query s) = false)) /\
  Forall (fun c => ChatSend.blank (call_query c) = false) (search_channels s).
Proof.
  intros s.
  assert (Hd : debounced s) by apply debounced_run, debounced_mount.
  split; [|split].
  - intros id id' t t' Ht Hp Ht' Hp'. destruct Hd as [Hpend _].
    destruct (Hpend id t Ht Hp) as (H1 & H2 & _).
    destruct (Hpend id' t' Ht' Hp') as (H1' & _). split; [congruence | done].
  - intros id. destruct (on_timeout_spec id s Hd) as [_ [H | (H & Hb & _)]];
      [by left | by right].
  - apply Hd.
Qed.

Lemma search_is_debounced_witness :
  let s := run mount [SetQuery "so"; SetQuery "sod"; SetQuery "sodapoppin"] in
  let t := {| timer_query := "sodapoppin"; timer_state := pending |} in
  timers s !! 2%nat = Some t /\ timer_query t = query s.
Proof.
  intros s t.
  destruct (search_is_debounced
              [SetQuery "so"; SetQuery "sod"; SetQuery "sodapoppin"])
    as (Hone & _ & _).
  assert (Ht : timers s !! 2%nat = Some t) by (vm_compute; reflexivity).
  split; [exact Ht|].
  apply (Hone 2%nat 2%nat t t Ht eq_refl Ht eq_refl).
Defined.

(** Selecting a result hands its login to the callback once and resets
    the search: the query is empty, the results are gone and hidden, and
    no timer is left waiting.  [clearSearch] does the same without the
    callback. *)
Theorem selecting_resets_search tr result :
  let s := run mount tr in
  let s' := step s (SelectResult result) in
  let s'' := step s ClearSearch in
  (onSelectChannel s' = onSelectChannel s ++ [login result] /\
   query s' = ""%string /\ results s' = [] /\ showResults s' = false /\
   search_channels s' = search_channels s /\ idle s') /\
  (onSelectChannel s'' = onSelectChannel s /\
   query s'' = ""%string /\ results s'' = [] /\ showResults s'' = false /\
   search_channels s'' = search_channels s /\ idle s'').
Proof.
  intros s s' s''.
  assert (Hd : debounced s) by apply debounced_run, debounced_mount.
  assert (Hidle : forall x, debounced x -> query x = ""%string -> idle x).
  { intros x [Hp _] Hq id t Ht. destruct (is_pending t) eqn:Hpt; [|done].
    destruct (Hp id t Ht Hpt) as (_ & _ & Hb). by rewrite Hq in Hb. }
  assert (Hres : forall x, results x = [] -> showResults x = false ->
            results (rerender "" x) = [] /\ showResults (rerender "" x) = false).
  { intros x Hr Hsh. unfold rerender.
    destruct (String.eqb "" (query x)); [done|].
    unfold debounce_effect. rewrite truthy_trim_blank.
    destruct (clear_current_fields (with_query "" (clear_current x)))
      as (-> & _). simpl. done. }
  split.
  - subst s'. simpl. unfold selectResult.
    set (x := setShowResults false
                (setResults [] (call_onSelectChannel (login result) s))).
    assert (Hx : debounced x) by exact Hd.
    destruct (rerender_debounced "" x Hx) as (H1 & H2 & H3 & H4).
    destruct (Hres x eq_refl eq_refl) as [H5 H6].
    repeat split; try done. by apply Hidle.
  - subst s''. simpl. unfold clearSearch.
    set (x := setShowResults false (setResults [] s)).
    assert (Hx : debounced x) by exact Hd.
    destruct (rerender_debounced "" x Hx) as (H1 & H2 & H3 & H4).
    destruct (Hres x eq_refl eq_refl) as [H5 H6].
    repeat split; try done. by apply Hidle.
Qed.

End SearchFacts.

(** ** [useTopStreams] *)

Section TopStreamsFacts.
Import TopStreams.

Implicit Types (s : UseTopStreams) (e : Event) (tr : list Event)
  (rv : Revision).

Lemma filter_settle (P : Call -> bool) (cs : list Call) id c :
  cs !! id = Some c -> settled c = false ->
  List.filter (fun c => negb (settled c) && P c)
    (alter (fun c => {| isRefresh := isRefresh c; settled := true |}) id cs)
  `sublist_of` List.filter (fun c => negb (settled c) && P c) cs /\
  (P c = true ->
   length (List.filter (fun c => negb (settled c) && P c) cs) =
   S (length (List.filter (fun c => negb (settled c) && P c)
        (alter (fun c => {| isRefresh := isRefresh c; settled := true |})
           id cs)))) /\
  (P c = false ->
   (forall c', P {| isRefresh := isRefresh c'; settled := true |} = P c') ->
   List.filter (fun c => negb (settled c) && P c)
     (alter (fun c => {| isRefresh := isRefresh c; settled := true |}) id cs)
   = List.filter (fun c => negb (settled c) && P c) cs).
Proof.
  revert id. induction cs as [|x cs IH]; intros [|id] Hl Hs; simplify_eq/=.
  - rewrite Hs. simpl. split; [|split].
    + destruct (P c); [by apply sublist_cons | done].
    + by intros ->.
    + by intros ->.
  - destruct (IH id Hl Hs) as (H1 & H2 & H3).
    split; [|split].
    + destruct (negb (settled x) && P x); [by apply sublist_skip | done].
    + intros Hp. destruct (negb (settled x) && P x); simpl; by rewrite H2.
    + intros Hp Hext. by rewrite H3.
Qed.

(** *** The guard *)

Lemma guarded_step s e :
  length (in_flight s) = (if isLoadingRef s then 1 else 0)%nat ->
  length (in_flight (step guarded s e)) =
    (if isLoadingRef (step guarded s e) then 1 else 0)%nat.
Proof.
  intros H. destruct e as [refresh|id r]; simpl.
  - unfold loadTopStreams. destruct (isLoadingRef s) eqn:Hr; [by rewrite Hr|].
    unfold in_flight in *. simpl. rewrite List.filter_app, length_app.
    simpl. lia.
  - unfold settle. destruct (get_top_streams s !! id) as [c|] eqn:Hl; [|done].
    destruct (settled c) eqn:Hs; [done|].
    destruct (filter_settle (fun _ => true) _ id c Hl Hs) as (_ & H2 & _).
    specialize (H2 eq_refl). unfold in_flight in *. simpl.
    assert (E : forall cs, List.filter (fun c => negb (settled c)) cs =
                           List.filter (fun c => negb (settled c) && true) cs).
    { intros cs. apply List.filter_ext. intros ?. by rewrite andb_true_r. }
    rewrite !E in *. destruct (isLoadingRef s); lia.
Qed.

Lemma guarded_run tr s :
  length (in_flight s) = (if isLoadingRef s then 1 else 0)%nat ->
  length (in_flight (run guarded s tr)) =
    (if isLoadingRef (run guarded s tr) then 1 else 0)%nat.
Proof.
  revert s. induction tr as [|e tr IH]; intros s H; [done|].
  simpl. by apply IH, guarded_step.
Qed.

(** With the guard, at most one [get_top_streams] call is in flight at any
    time, [isLoadingRef] tells whether one is, and a [loadTopStreams] that
    comes while one is in flight does nothing at all. *)
Theorem top_streams_load_is_guarded tr :
  let s := run guarded mount tr in
  length (in_flight s) = (if isLoadingRef s then 1 else 0)%nat /\
  (forall refresh, in_flight s ≠ [] -> loadTopStreams guarded refresh s = s).
Proof.
  intros s.
  assert (H : length (in_flight s) = (if isLoadingRef s then 1 else 0)%nat)
    by (by apply guarded_run).
  split; [done|]. intros refresh Hne. unfold loadTopStreams.
  destruct (isLoadingRef s); [done|].
  destruct (in_flight s); [done | simpl in H; lia].
Qed.

Lemma top_streams_load_is_guarded_witness :
  let s := run guarded mount [LoadTopStreams false] in
  loadTopStreams guarded true s = s.
Proof.
  intros s.
  destruct (top_streams_load_is_guarded [LoadTopStreams false]) as [_ H].
  apply H. discriminate.
Defined.

(** *** The loading flag *)

Lemma loading_step rv s e :
  (isLoading s = true -> loading_calls s ≠ []) ->
  isLoading (step rv s e) = true -> loading_calls (step rv s e) ≠ [].
Proof.
  intros H. destruct e as [refresh|id r]; simpl.
  - unfold loadTopStreams.
    destruct rv, (isLoadingRef s); try done;
      unfold loading_calls in *; simpl; rewrite List.filter_app;
      (destruct refresh; simpl;
       [intros Hl; specialize (H Hl); by destruct (List.filter _ _)
       |intros _; by destruct (List.filter _ _)]).
  - unfold settle. destruct (get_top_streams s !! id) as [c|] eqn:Hl; [|done].
    destruct (settled c) eqn:Hs; [done|]. simpl.
    destruct (isRefresh c) eqn:Hr; [|done].
    intros Hload. specialize (H Hload).
    destruct (filter_settle (fun c => negb (isRefresh c)) _ id c Hl Hs)
      as (_ & _ & H3).
    unfold loading_calls in *. simpl. rewrite H3; [done | by rewrite Hr | done].
Qed.

Lemma loading_run rv tr s :
  (isLoading s = true -> loading_calls s ≠ []) ->
  isLoading (run rv s tr) = true -> loading_calls (run rv s tr) ≠ [].
Proof.
  revert s. induction tr as [|e tr IH]; intros s H; [done|].
  simpl. by apply IH, loading_step.
Qed.

Lemma loading_calls_in_flight s :
  in_flight s = [] -> loading_calls s = [].
Proof.
  unfold in_flight, loading_calls. generalize (get_top_streams s).
  induction l as [|c cs IH]; simpl; [done|].
  destruct (negb (settled c)); simpl; [done | exact IH].
Qed.

(** In both revisions the loading flag is never left on: whenever no call
    is in flight [isLoading] is false, whatever the outcomes were. *)
Theorem loading_flag_is_released rv tr :
  let s := run rv mount tr in
  in_flight s = [] -> isLoading s = false.
Proof.
  intros s Hidle. destruct (isLoading s) eqn:Hl; [|done].
  exfalso. apply (loading_run rv tr mount); [done | exact Hl |].
  by apply loading_calls_in_flight.
Qed.

Lemma loading_flag_is_released_witness :
  isLoading
    (run unguarded mount
       [LoadTopStreams false; LoadTopStreams true;
        Settled 1 (Emotes.rejected "timeout");
        Settled 0 (Emotes.fulfilled None)]) = false.
Proof.
  apply (loading_flag_is_released unguarded
           [LoadTopStreams false; LoadTopStreams true;
            Settled 1 (Emotes.rejected "timeout");
            Settled 0 (Emotes.fulfilled None)]).
  reflexivity.
Defined.

End TopStreamsFacts.

(** ** [lib/utils] *)

Section PersistFacts.
Import Persist.

(** The selected channel is found again at the next start; and clearing
    the selection only forgets it for the session: the next start falls
    back on the last channel that was selected. *)
Theorem channel_survives_restart c st :
  JS.truthy c = true ->
  getInitialChannel (persistChannel (Some c) st) = Some c /\
  getInitialChannel (persistChannel None (persistChannel (Some c) st)) =
    Some c /\
  getInitialChannel
    (persistChannel (Some ""%string) (persistChannel (Some c) st)) = Some c.
Proof.
  intros Hc. unfold getInitialChannel, persistChannel, or_else.
  rewrite Hc. simpl.
  rewrite !lookup_delete_eq, !lookup_insert_eq. simpl.
  rewrite !Hc. simpl. by rewrite Hc.
Qed.

Lemma channel_survives_restart_witness :
  let st := {| sessionStorage := ∅; localStorage := ∅ |} in
  getInitialChannel (persistChannel (Some "alpha"%string) st) =
    Some "alpha"%string /\
  getInitialChannel
    (persistChannel None (persistChannel (Some "alpha"%string) st)) =
    Some "alpha"%string /\
  getInitialChannel
    (persistChannel (Some ""%string)
       (persistChannel (Some "alpha"%string) st)) = Some "alpha"%string.
Proof.
  intros st. apply (channel_survives_restart "alpha" st). reflexivity.
Defined.

(** The active tab is found again at the next start, whatever was stored
    before, and the tab and the channel do not disturb each other. *)
Theorem active_tab_survives_restart tab channel st :
  getInitialActiveTab (persistActiveTab tab st) = tab /\
  getInitialChannel (persistActiveTab tab st) = getInitialChannel st /\
  getInitialActiveTab (persistChannel channel st) = getInitialActiveTab st.
Proof.
  unfold getInitialActiveTab, getInitialChannel, persistActiveTab,
    persistChannel.
  split; [|split]; simpl.
  - rewrite lookup_insert_eq. by destruct tab.
  - by rewrite lookup_insert_ne.
  - destruct channel as [c|]; [destruct (JS.truthy c)|]; simpl;
      by rewrite ?lookup_insert_ne.
Qed.

End PersistFacts.

(** ** [VideoPlayer] *)

Section VideoPlayerFacts.
Import VideoPlayer.

Implicit Types (x y : QualityLevel) (l : list QualityLevel) (p : Player).

Lemma insert_Permutation x l : insert x l ≡ₚ x :: l.
Proof.
  induction l as [|y l IH]; simpl; [done|].
  destruct (height y <? height x); [done|].
  rewrite IH. apply Permutation_swap.
Qed.

Lemma sort_from_Permutation l acc :
  fold_left (fun sorted x => insert x sorted) l acc ≡ₚ acc ++ l.
Proof.
  revert acc. induction l as [|x l IH]; intros acc; simpl.
  - by rewrite app_nil_r.
  - rewrite IH, insert_Permutation.
    by rewrite (Permutation_middle acc l x).
Qed.

Lemma insert_sorted x l :
  StronglySorted by_falling_height l -> StronglySorted by_falling_height (insert x l).
Proof.
  induction 1 as [|y l Hs IH Hall]; simpl; [by repeat constructor|].
  destruct (Z.ltb_spec (height y) (height x)).
  - constructor; [by constructor|]. constructor; [unfold by_falling_height; lia|].
    eapply Forall_impl; [exact Hall|]. unfold by_falling_height. intros z ?. lia.
  - constructor; [done|].
    rewrite insert_Permutation. constructor; [done | done].
Qed.

Lemma sort_from_sorted l acc :
  StronglySorted by_falling_height acc ->
  StronglySorted by_falling_height (fold_left (fun sorted x => insert x sorted) l acc).
Proof.
  revert acc. induction l as [|x l IH]; intros acc H; [done|].
  simpl. by apply IH, insert_sorted.
Qed.

Lemma filter_below h y l :
  StronglySorted by_falling_height (y :: l) -> height y < h ->
  List.filter (fun z => height z =? h) (y :: l) = [].
Proof.
  intros Hs Hlt. apply StronglySorted_inv in Hs as [_ Hall].
  simpl. destruct (Z.eqb_spec (height y) h); [lia|].
  induction Hall as [|z l Hz _ IH]; simpl; [done|].
  unfold by_falling_height in Hz.
  destruct (Z.eqb_spec (height z) h); [lia | done].
Qed.

Lemma insert_stable h x l :
  StronglySorted by_falling_height l ->
  List.filter (fun y => height y =? h) (insert x l) =
    List.filter (fun y => height y =? h) l
    ++ (if height x =? h then [x] else []).
Proof.
  induction 1 as [|y l Hs IH Hall]; simpl; [by destruct (height x =? h)|].
  destruct (Z.ltb_spec (height y) (height x)).
  - destruct (Z.eqb_spec (height x) h) as [Hx|Hx].
    + pose proof (filter_below h y l) as Hb. simpl in Hb.
      cbn [List.filter]. rewrite Hx, Z.eqb_refl.
      rewrite Hb; [done | by constructor | lia].
    + cbn [List.filter]. apply Z.eqb_neq in Hx. rewrite Hx.
      by rewrite app_nil_r.
  - simpl. rewrite IH. by destruct (height y =? h).
Qed.

Lemma sort_from_stable h l acc :
  StronglySorted by_falling_height acc ->
  List.filter (fun y => height y =? h)
    (fold_left (fun sorted x => insert x sorted) l acc) =
  List.filter (fun y => height y =? h) acc
  ++ List.filter (fun y => height y =? h) l.
Proof.
  revert acc. induction l as [|x l IH]; intros acc Hs; simpl.
  - by rewrite app_nil_r.
  - rewrite IH by (by apply insert_sorted).
    rewrite insert_stable by done. rewrite <- app_assoc.
    by destruct (height x =? h).
Qed.

Lemma to_qualities_id levels levelId :
  (exists q, q ∈ to_qualities levels /\ id q = levelId) <->
  0 <= levelId < Z.of_nat (length levels).
Proof.
  unfold to_qualities. split.
  - intros (q & Hq & <-). apply elem_of_lookup_imap in Hq
      as (i & level & -> & Hl). simpl. apply lookup_lt_Some in Hl. lia.
  - intros Hr.
    destruct (lookup_lt_is_Some_2 levels (Z.to_nat levelId)) as [level Hl];
      [lia|].
    eexists. split.
    + apply elem_of_lookup_imap. by exists (Z.to_nat levelId), level.
    + simpl. lia.
Qed.

Lemma menu_find levels levelId :
  is_Some (List.find (fun q => id q =? levelId)
             (sort_by_height (to_qualities levels))) <->
  0 <= levelId < Z.of_nat (length levels).
Proof.
  unfold sort_by_height.
  pose proof (sort_from_Permutation (to_qualities levels) []) as Hperm.
  simpl in Hperm. rewrite <- to_qualities_id. split.
  - intros [q Hq]. apply List.find_some in Hq as [Hin Hid].
    exists q. split; [|lia]. rewrite <- Hperm. by apply list_elem_of_In.
  - intros (q & Hq & Hid). rewrite <- Hperm in Hq.
    destruct (List.find _ _) as [q'|] eqn:Hf; [done|]. exfalso.
    apply list_elem_of_In in Hq.
    pose proof (List.find_none _ _ Hf q Hq) as Hn. simpl in Hn. lia.
Qed.

(** The quality menu after the manifest was parsed: it lists every level
    once, under its index in [hls.levels] as id, by falling height, levels
    of the same height in the order of [hls.levels]; and an id is found in
    it exactly when it is the index of a level. *)
Theorem quality_menu_is_sorted levels p :
  let menu := qualities (manifest_parsed levels p) in
  menu ≡ₚ to_qualities levels /\
  StronglySorted by_falling_height menu /\
  (forall h, List.filter (fun y => height y =? h) menu =
             List.filter (fun y => height y =? h) (to_qualities levels)) /\
  (forall levelId,
     is_Some (List.find (fun q => id q =? levelId) menu) <->
     0 <= levelId < Z.of_nat (length levels)) /\
  currentQuality (manifest_parsed levels p) = -1.
Proof.
  simpl. unfold sort_by_height.
  pose proof (sort_from_Permutation (to_qualities levels) []) as Hperm.
  simpl in Hperm.
  split; [done|]. split; [apply sort_from_sorted; constructor|].
  split; [intros h; rewrite sort_from_stable; [done | constructor]|].
  split; [|done].
  apply menu_find.
Qed.

Lemma changeQuality_valid levels levelId p :
  qualities p = sort_by_height (to_qualities levels) ->
  valid_level (length levels) p ->
  valid_level (length levels) (changeQuality levelId p) /\
  qualities (changeQuality levelId p) = qualities p.
Proof.
  intros Hq Hv. unfold changeQuality, valid_level in *.
  destruct (hlsRef p) as [cur|] eqn:Hr; [|by rewrite Hr]. simpl.
  split; [|done].
  destruct (Z.eqb_spec levelId (-1)); [by left|].
  destruct (List.find _ _) as [q|] eqn:Hf; [|done]. right.
  apply (menu_find levels levelId). rewrite <- Hq. by rewrite Hf.
Qed.

(** Whatever ids [changeQuality] is called with after the manifest was
    parsed, the player stays on the automatic level or on the index of a
    level that exists, when it was on one before: no id that is missing
    from the menu reaches [hls.currentLevel]. *)
Theorem player_level_stays_valid levels p ids :
  valid_level (length levels) p ->
  valid_level (length levels)
    (fold_left (fun p levelId => changeQuality levelId p) ids
       (manifest_parsed levels p)).
Proof.
  intros Hv.
  assert (H : forall p', qualities p' = sort_by_height (to_qualities levels) ->
            valid_level (length levels) p' ->
            valid_level (length levels)
              (fold_left (fun p levelId => changeQuality levelId p) ids p')).
  { induction ids as [|levelId ids IH]; intros p' Hq Hv'; [done|].
    simpl. destruct (changeQuality_valid levels levelId p' Hq Hv') as [H1 H2].
    apply IH; [by rewrite H2 | done]. }
  by apply H.
Qed.

Lemma player_level_stays_valid_witness :
  let levels := [{| level_label := "720p60"; level_height := 720 |};
                 {| level_label := "1080p60"; level_height := 1080 |}] in
  let p := {| hlsRef := Some (-1); qualities := []; currentQuality := -1;
              showQualityMenu := true |} in
  valid_level (length levels)
    (fold_left (fun p levelId => changeQuality levelId p) [1; 7; -1; 0]
       (manifest_parsed levels p)).
Proof.
  intros levels p.
  apply (player_level_stays_valid levels p [1; 7; -1; 0]).
  by left.
Defined.

End VideoPlayerFacts.
